(** * conversor-de-imagens-threads: a shallow embedding and its properties

    The development follows the layout of the JavaScript sources:

    - [Js]        the fragment of the JavaScript semantics the code relies on
                  (numbers with NaN, typed arrays, [Buffer.slice],
                  [readInt32LE]/[writeInt32LE], [parseInt]);
    - [Filters]   [src/filters.js]: the block transforms, over a store of
                  typed arrays so that aliasing of the two buffers is visible;
    - [FiltersPseudo]  the second copy of [filters.js] shipped in the
                  repository, which follows the pseudo code of the header
                  comment;
    - [PgmUtils]  [pgm-utils.js]: [Header], [Task], [PGM];
    - [SyncUtils] [src/sync-utils.js]: [Mutex], [Semaphore],
                  [CompletionCoordinator];
    - [Worker]    [src/worker.js]: [parseArgs], [receiveImageData],
                  [createTasks].

    JavaScript numbers are modelled by [Z] (all the quantities involved are
    integers far below 2^53, where IEEE doubles are exact), extended by NaN
    where the code can produce it. *)

From Stdlib Require Import ZArith Lia Bool String Ascii.
From stdpp Require Import base list.

Local Open Scope Z_scope.

(** ** JavaScript primitives *)

Module Js.

(** A JavaScript number: an integer or NaN. *)
Inductive num : Type :=
| Num (z : Z)
| NaN.

(** [undefined] read from an array converts to NaN in arithmetic and in
    comparisons. *)
Definition of_read (r : option Z) : num :=
  match r with Some z => Num z | None => NaN end.

(** Relational operators: every comparison with NaN is false. *)
Definition lt (a b : num) : bool :=
  match a, b with Num x, Num y => x <? y | _, _ => false end.
Definition le (a b : num) : bool :=
  match a, b with Num x, Num y => x <=? y | _, _ => false end.
Definition gt (a b : num) : bool := lt b a.
Definition ge (a b : num) : bool := le b a.

Definition sub (a b : num) : num :=
  match a, b with Num x, Num y => Num (x - y) | _, _ => NaN end.
Definition add (a b : num) : num :=
  match a, b with Num x, Num y => Num (x + y) | _, _ => NaN end.

(** ToUint8, the conversion applied by a store into a [Uint8Array]. *)
Definition ToUint8 (v : num) : Z :=
  match v with Num z => z mod 256 | NaN => 0 end.

(** A [Uint8Array] is the list of its elements. *)
Abbreviation typed_array := (list Z).

(** [a[i]]: [undefined] outside the array. *)
Definition ta_get (a : typed_array) (i : Z) : option Z :=
  if i <? 0 then None else a !! Z.to_nat i.

(** [a[i] = v]: a store outside the array is ignored. *)
Definition ta_set (a : typed_array) (i : Z) (v : num) : typed_array :=
  if i <? 0 then a else <[Z.to_nat i := ToUint8 v]> a.

(** Typed arrays live in a store and are passed by reference. Two
    references are the same array or two arrays that share no memory: two
    views that overlap on one [ArrayBuffer] are not represented. *)
Definition ref : Type := nat.
Definition store : Type := ref -> typed_array.

Definition upd (st : store) (r : ref) (a : typed_array) : store :=
  fun r' => if Nat.eqb r' r then a else st r'.

(** [for (let i = start; i < end; i++) body(i)], as [n = max (end - start) 0]
    iterations from [i = start]. *)
Fixpoint for_loop {St : Type} (n : nat) (i : Z) (body : Z -> St -> St) (s : St) : St :=
  match n with
  | O => s
  | S n' => for_loop n' (i + 1) body (body i s)
  end.

Definition for_range {St : Type} (start stop : Z) (body : Z -> St -> St) (s : St) : St :=
  for_loop (Z.to_nat (stop - start)) start body s.

(** [Buffer.alloc(n)]: [n] zero bytes. *)
Definition Buffer_alloc (n : Z) : typed_array := replicate (Z.to_nat n) 0.

(** [buf.slice(start, end)]: a negative index counts from the end, and both
    indices are clamped to the length. *)
Definition slice_index (len rel : Z) : Z :=
  if rel <? 0 then Z.max (len + rel) 0 else Z.min rel len.

Definition Buffer_slice (a : typed_array) (start stop : Z) : typed_array :=
  let len := Z.of_nat (length a) in
  let b := slice_index len start in
  let e := slice_index len stop in
  take (Z.to_nat (e - b)) (drop (Z.to_nat b) a).

(** 32-bit conversions and shifts. *)
Definition ToUint32 (z : Z) : Z := z mod 2 ^ 32.
Definition ToInt32 (z : Z) : Z :=
  let u := z mod 2 ^ 32 in if u <? 2 ^ 31 then u else u - 2 ^ 32.
(** [v >>> n] *)
Definition ushr (v n : Z) : Z := Z.shiftr (ToUint32 v) n.
(** [v << n] *)
Definition shl (v n : Z) : Z := ToInt32 (Z.shiftl v n).

(** [buf.writeInt32LE(value, offset)] of Node's [Buffer]: a range error
    ([None]) when [value] is no 32-bit signed integer or the four bytes do
    not fit; otherwise the bytes [value], [value >>> 8], ... are stored. *)
Definition writeInt32LE (buf : typed_array) (value offset : Z) : option typed_array :=
  if (value <? - 2 ^ 31) || (2 ^ 31 - 1 <? value) then None
  else
    match ta_get buf offset, ta_get buf (offset + 3) with
    | Some _, Some _ =>
        let buf := ta_set buf offset (Num value) in
        let value := ushr value 8 in
        let buf := ta_set buf (offset + 1) (Num value) in
        let value := ushr value 8 in
        let buf := ta_set buf (offset + 2) (Num value) in
        let value := ushr value 8 in
        let buf := ta_set buf (offset + 3) (Num value) in
        Some buf
    | _, _ => None
    end.

(** [buf.readInt32LE(offset)]:
    [first + this[offset+1] * 2**8 + this[offset+2] * 2**16 + (last << 24)],
    a bounds error ([None]) when [first] or [last] is [undefined]. *)
Definition readInt32LE (buf : typed_array) (offset : Z) : option Z :=
  match ta_get buf offset, ta_get buf (offset + 3) with
  | Some first, Some last =>
      match ta_get buf (offset + 1), ta_get buf (offset + 2) with
      | Some b1, Some b2 => Some (first + b1 * 2 ^ 8 + b2 * 2 ^ 16 + shl last 24)
      | _, _ => None
      end
  | _, _ => None
  end.

(** [parseInt(string)] without a radix: leading white space is skipped, a
    sign is read, a [0x]/[0X] prefix selects radix 16, and the longest
    prefix of digits is converted; NaN when there is no digit. A character
    of a string is a code unit below 256 here; the white space and line
    terminators of ECMAScript among them are the codes 9 to 13, 32 and 160
    (the no-break space), which [parseInt], [trim] and [\s] all use. *)
Definition is_white_space (c : ascii) : bool :=
  let n := nat_of_ascii c in
  ((9 <=? n) && (n <=? 13) || (n =? 32) || (n =? 160))%nat.

Definition digit_value (c : ascii) : option Z :=
  let n := Z.of_nat (nat_of_ascii c) in
  if (48 <=? n) && (n <=? 57) then Some (n - 48)
  else if (97 <=? n) && (n <=? 122) then Some (n - 87)
  else if (65 <=? n) && (n <=? 90) then Some (n - 55)
  else None.

Definition digit_in (radix : Z) (c : ascii) : option Z :=
  match digit_value c with
  | Some d => if d <? radix then Some d else None
  | None => None
  end.

Fixpoint skip_white_space (s : string) : string :=
  match s with
  | String c s' => if is_white_space c then skip_white_space s' else s
  | EmptyString => s
  end.

Fixpoint read_digits (radix : Z) (s : string) (acc : option Z) : option Z :=
  match s with
  | String c s' =>
      match digit_in radix c with
      | Some d =>
          read_digits radix s'
            (Some (match acc with Some a => a * radix + d | None => d end))
      | None => acc
      end
  | EmptyString => acc
  end.

Definition parseInt (s : string) : num :=
  let s := skip_white_space s in
  let '(sign, s) :=
    match s with
    | String "-"%char s' => (-1, s')
    | String "+"%char s' => (1, s')
    | _ => (1, s)
    end in
  let '(radix, s) :=
    match s with
    | String "0"%char (String "x"%char s') => (16, s')
    | String "0"%char (String "X"%char s') => (16, s')
    | _ => (10, s)
    end in
  match read_digits radix s None with
  | Some m => Num (sign * m)
  | None => NaN
  end.

End Js.

(** ** src/filters.js *)

Module Filters.
Import Js.

(** One iteration of the loop of [applyNegativeBlock]:
    [r = inputData[i]; L = maxValue + 1; s = L - 1 - r; outputData[i] = s].
    The minimum/maximum statistics of the source only feed a
    [console.log] and are left out. *)
Definition negative_step (inputData outputData : ref) (maxValue : Z)
    (i : Z) (st : store) : store :=
  let r := of_read (ta_get (st inputData) i) in
  let L := add (Num maxValue) (Num 1) in
  let s := sub (sub L (Num 1)) r in
  upd st outputData (ta_set (st outputData) i s).

Definition applyNegativeBlock (st : store) (inputData outputData : ref)
    (width rowStart rowEnd maxValue : Z) : store * Z :=
  let startPixel := rowStart * width in
  let endPixel := rowEnd * width in
  let st' := for_range startPixel endPixel
               (negative_step inputData outputData maxValue) st in
  (st', endPixel - startPixel).

(** One iteration of the loop of [applySliceBlock] of [src/filters.js]:
    [z = inputData[i]; if (z <= limite_a || z >= limite_b) outputData[i] = 0
     else outputData[i] = k] with [k = 255]. The two counters of the
    source only feed a [console.log]. *)
Definition slice_step (inputData outputData : ref) (limite_a limite_b : num)
    (i : Z) (st : store) : store :=
  let k := 255 in
  let z := of_read (ta_get (st inputData) i) in
  if le z limite_a || ge z limite_b
  then upd st outputData (ta_set (st outputData) i (Num 0))
  else upd st outputData (ta_set (st outputData) i (Num k)).

Definition applySliceBlock (st : store) (inputData outputData : ref)
    (width rowStart rowEnd : Z) (limite_a limite_b : num) : store * Z :=
  let startPixel := rowStart * width in
  let endPixel := rowEnd * width in
  let st' := for_range startPixel endPixel
               (slice_step inputData outputData limite_a limite_b) st in
  (st', endPixel - startPixel).

(** [validateSliceParams(t1, t2, maxValue = 255)]: [None] when it returns
    [true], the message kind when it throws. *)
Inductive slice_param_error : Type := T1_range | T2_range | T1_above_T2.

Definition validateSliceParams (t1 t2 maxValue : num) : option slice_param_error :=
  if lt t1 (Num 0) || gt t1 maxValue then Some T1_range
  else if lt t2 (Num 0) || gt t2 maxValue then Some T2_range
  else if gt t1 t2 then Some T1_above_T2
  else None.

End Filters.

(** ** The second copy of filters.js (pseudo-code variant) *)

Module FiltersPseudo.
Import Js.

(** [valor_pixel_original = inputData[i];
     if (v <= limite_a || v >= limite_b) outputData[i] = 255
     else outputData[i] = valor_pixel_original]. *)
Definition slice_step (inputData outputData : ref) (limite_a limite_b : num)
    (i : Z) (st : store) : store :=
  let valor_pixel_original := of_read (ta_get (st inputData) i) in
  if le valor_pixel_original limite_a || ge valor_pixel_original limite_b
  then upd st outputData (ta_set (st outputData) i (Num 255))
  else upd st outputData (ta_set (st outputData) i valor_pixel_original).

Definition applySliceBlock (st : store) (inputData outputData : ref)
    (width rowStart rowEnd : Z) (limite_a limite_b : num) : store * Z :=
  let startPixel := rowStart * width in
  let endPixel := rowEnd * width in
  let st' := for_range startPixel endPixel
               (slice_step inputData outputData limite_a limite_b) st in
  (st', endPixel - startPixel).

End FiltersPseudo.

(** ** pgm-utils.js *)

Module PgmUtils.
Import Js.

(** [class PGM]: [new PGM(width, height, maxValue, data)] with [data]
    given. *)
Module PGM.

Record t : Type := mk {
  w : Z;
  h : Z;
  maxv : Z;
  data : typed_array
}.

End PGM.

(** [class Header]: six integers. *)
Module Header.

Record t : Type := mk {
  w : Z;
  h : Z;
  maxv : Z;
  mode : Z;
  t1 : Z;
  t2 : Z
}.

(** [new Header()] *)
Definition new : t :=
  {| w := 0; h := 0; maxv := 255; mode := 0; t1 := 0; t2 := 0 |}.

(** [toBuffer()]: [None] when one of the writes throws. *)
Definition toBuffer (this : t) : option typed_array :=
  let buffer := Buffer_alloc 24 in
  buffer ← writeInt32LE buffer (w this) 0;
  buffer ← writeInt32LE buffer (h this) 4;
  buffer ← writeInt32LE buffer (maxv this) 8;
  buffer ← writeInt32LE buffer (mode this) 12;
  buffer ← writeInt32LE buffer (t1 this) 16;
  buffer ← writeInt32LE buffer (t2 this) 20;
  Some buffer.

(** [fromBuffer(buffer)]: every field of [this] is overwritten, so the
    header read does not depend on the one the method is called on. *)
Definition fromBuffer (buffer : typed_array) : option t :=
  w ← readInt32LE buffer 0;
  h ← readInt32LE buffer 4;
  maxv ← readInt32LE buffer 8;
  mode ← readInt32LE buffer 12;
  t1 ← readInt32LE buffer 16;
  t2 ← readInt32LE buffer 20;
  Some (mk w h maxv mode t1 t2).

End Header.

(** [class Task]: a half-open range of rows. *)
Module Task.

Record t : Type := mk {
  row_start : Z;
  row_end : Z
}.

End Task.

Definition MODE_NEG : Z := 0.
Definition MODE_SLICE : Z := 1.

End PgmUtils.

(** ** src/sync-utils.js *)

Module SyncUtils.

(** The [resolve] function of a pending promise: the identity of the
    suspended caller. *)
Definition resolver : Type := nat.

(** The three ways an [async] operation can stand when the caller looks at
    it in a sequential run: it has returned, it has thrown, or its promise
    is still pending (the caller is parked in some wait queue). *)
Inductive outcome (St A : Type) : Type :=
| Done (a : A) (s : St)
| Thrown (e : string) (s : St)
| Pending (s : St).
Arguments Done {St A} a s.
Arguments Thrown {St A} e s.
Arguments Pending {St A} s.

Module Mutex.

Record t : Type := mk {
  _locked : bool;
  _waitQueue : list resolver
}.

Definition new : t := {| _locked := false; _waitQueue := [] |}.

(** [lock()]: the promise resolves at once when the mutex is free;
    otherwise [resolve] is pushed on the wait queue. *)
Definition lock (resolve : resolver) (this : t) : outcome t unit :=
  if negb (_locked this)
  then Done tt {| _locked := true; _waitQueue := _waitQueue this |}
  else Pending {| _locked := _locked this;
                  _waitQueue := _waitQueue this ++ [resolve] |}.

(** [unlock()]: throws on a mutex that is not locked; otherwise hands the
    lock to the first waiter (returned, as it is resumed) or frees it. *)
Definition unlock (this : t) : outcome t (option resolver) :=
  if negb (_locked this)
  then Thrown "Tentativa de unlock em mutex não locked" this
  else
    match _waitQueue this with
    | nextResolve :: rest =>
        Done (Some nextResolve) {| _locked := _locked this; _waitQueue := rest |}
    | [] =>
        Done None {| _locked := false; _waitQueue := [] |}
    end.

Definition isLocked (this : t) : bool := _locked this.

End Mutex.

Module Semaphore.

Record t : Type := mk {
  _count : Z;
  _waitQueue : list resolver
}.

Definition new (initialCount : Z) : t :=
  {| _count := initialCount; _waitQueue := [] |}.

(** [wait()] *)
Definition wait (resolve : resolver) (this : t) : outcome t unit :=
  if 0 <? _count this
  then Done tt {| _count := _count this - 1; _waitQueue := _waitQueue this |}
  else Pending {| _count := _count this;
                  _waitQueue := _waitQueue this ++ [resolve] |}.

(** [signal()]: the resumed waiter, if any, is returned. *)
Definition signal (this : t) : option resolver * t :=
  match _waitQueue this with
  | nextResolve :: rest =>
      (Some nextResolve, {| _count := _count this; _waitQueue := rest |})
  | [] =>
      (None, {| _count := _count this + 1; _waitQueue := [] |})
  end.

Definition getCount (this : t) : Z := _count this.
Definition getWaitingCount (this : t) : nat := length (_waitQueue this).

End Semaphore.

(** [mutex.withLock(fn)] for a synchronous [fn] acting on the object [St]
    that owns the mutex: [await this.lock(); try { return await fn() }
    finally { this.unlock() }]. The result carries the value of [fn] and
    the waiter that [unlock] resumed. *)
Definition withLock {St A : Type}
    (get_mutex : St -> Mutex.t) (set_mutex : Mutex.t -> St -> St)
    (resolve : resolver) (fn : St -> A * St) (s : St)
    : outcome St (A * option resolver) :=
  match Mutex.lock resolve (get_mutex s) with
  | Done _ m =>
      let '(a, s) := fn (set_mutex m s) in
      match Mutex.unlock (get_mutex s) with
      | Done woken m => Done (a, woken) (set_mutex m s)
      | Thrown e m => Thrown e (set_mutex m s)
      | Pending m => Pending (set_mutex m s)
      end
  | Thrown e m => Thrown e (set_mutex m s)
  | Pending m => Pending (set_mutex m s)
  end.

Module CompletionCoordinator.

Record t : Type := mk {
  mutex : Mutex.t;
  semDone : Semaphore.t;
  remainingTasks : Z;
  completed : bool
}.

(** [new CompletionCoordinator(totalTasks)] *)
Definition new (totalTasks : Z) : t :=
  {| mutex := Mutex.new;
     semDone := Semaphore.new 0;
     remainingTasks := totalTasks;
     completed := false |}.

Definition set_mutex (m : Mutex.t) (this : t) : t :=
  {| mutex := m; semDone := semDone this;
     remainingTasks := remainingTasks this; completed := completed this |}.

(** The critical section of [taskCompleted]:
    [this.remainingTasks--; if (this.remainingTasks <= 0 && !this.completed)
     { this.completed = true; this.semDone.signal(); }].
    The value is the waiter resumed by the signal, if one was. *)
Definition taskCompleted_section (this : t) : option resolver * t :=
  let remaining := remainingTasks this - 1 in
  if (remaining <=? 0) && negb (completed this)
  then
    let '(woken, sem) := Semaphore.signal (semDone this) in
    (woken, {| mutex := mutex this; semDone := sem;
               remainingTasks := remaining; completed := true |})
  else
    (None, {| mutex := mutex this; semDone := semDone this;
              remainingTasks := remaining; completed := completed this |}).

Definition taskCompleted (resolve : resolver) (this : t)
    : outcome t (option resolver * option resolver) :=
  withLock mutex set_mutex resolve taskCompleted_section this.

(** [waitForCompletion()]: [await this.semDone.wait()]. *)
Definition waitForCompletion (resolve : resolver) (this : t) : outcome t unit :=
  match Semaphore.wait resolve (semDone this) with
  | Done a sem =>
      Done a {| mutex := mutex this; semDone := sem;
                remainingTasks := remainingTasks this; completed := completed this |}
  | Thrown e sem =>
      Thrown e {| mutex := mutex this; semDone := sem;
                  remainingTasks := remainingTasks this; completed := completed this |}
  | Pending sem =>
      Pending {| mutex := mutex this; semDone := sem;
                 remainingTasks := remainingTasks this; completed := completed this |}
  end.

Definition getRemainingTasks (resolve : resolver) (this : t)
    : outcome t (Z * option resolver) :=
  withLock mutex set_mutex resolve (fun c => (remainingTasks c, c)) this.

Definition isCompleted (resolve : resolver) (this : t)
    : outcome t (bool * option resolver) :=
  withLock mutex set_mutex resolve (fun c => (completed c, c)) this.

(** [setTotalTasks(total)] *)
Definition setTotalTasks (resolve : resolver) (total : Z) (this : t)
    : outcome t (unit * option resolver) :=
  withLock mutex set_mutex resolve
    (fun c => (tt, {| mutex := mutex c; semDone := semDone c;
                      remainingTasks := total; completed := false |})) this.

(** The state reached when a call has run to its end in a sequential run
    (the state is kept for a call that throws or stays pending). *)
Definition state_of {A : Type} (o : outcome t A) : t :=
  match o with Done _ s | Thrown _ s | Pending s => s end.

(** A sequence of [taskCompleted] calls, one per caller, each run to its
    end before the next starts. *)
Definition calls (callers : list resolver) (this : t) : t :=
  fold_left (fun c resolve => state_of (taskCompleted resolve c)) callers this.

(** The calls of the interface other than [taskCompleted]. *)
Inductive other_call : Type :=
| WaitForCompletion (resolve : resolver)
| GetRemainingTasks (resolve : resolver)
| IsCompleted (resolve : resolver).

Definition other (c : other_call) (this : t) : t :=
  match c with
  | WaitForCompletion resolve => state_of (waitForCompletion resolve this)
  | GetRemainingTasks resolve => state_of (getRemainingTasks resolve this)
  | IsCompleted resolve => state_of (isCompleted resolve this)
  end.

Definition others (cs : list other_call) (this : t) : t :=
  fold_left (fun c call => other call c) cs this.

End CompletionCoordinator.

(** [class TaskQueue], holding tasks. *)
Module TaskQueue.
Import PgmUtils.

(** An element of [this.buffer]: a hole left by [new Array(maxSize)]
    ([undefined] when read), [null] written by [dequeue], or a task. *)
Inductive slot : Type :=
| Hole
| Null
| Item (task : Task.t).

Record t : Type := mk {
  buffer : list slot;
  maxSize : Z;
  head : Z;
  tail : Z;
  count : Z;
  mutex : Mutex.t;
  semItems : Semaphore.t;
  semSpace : Semaphore.t
}.

(** [array[i]] and [array[i] = v] on a JavaScript array: a read outside the
    array gives [undefined], a write beyond its end extends it with holes. *)
Definition array_get (a : list slot) (i : Z) : slot :=
  if i <? 0 then Hole else default Hole (a !! Z.to_nat i).

Definition array_set (a : list slot) (i : Z) (v : slot) : list slot :=
  if i <? 0 then a
  else if (Z.to_nat i <? length a)%nat then <[Z.to_nat i := v]> a
  else a ++ replicate (Z.to_nat i - length a)%nat Hole ++ [v].

(** [new TaskQueue(maxSize)]; [new Array(maxSize)] throws a RangeError
    ([None]) for a negative length. *)
Definition new (maxSize : Z) : option t :=
  if maxSize <? 0 then None
  else Some {| buffer := replicate (Z.to_nat maxSize) Hole;
               maxSize := maxSize;
               head := 0;
               tail := 0;
               count := 0;
               mutex := Mutex.new;
               semItems := Semaphore.new 0;
               semSpace := Semaphore.new maxSize |}.

Definition set_mutex (m : Mutex.t) (this : t) : t :=
  {| buffer := buffer this; maxSize := maxSize this; head := head this;
     tail := tail this; count := count this; mutex := m;
     semItems := semItems this; semSpace := semSpace this |}.

Definition set_semItems (sem : Semaphore.t) (this : t) : t :=
  {| buffer := buffer this; maxSize := maxSize this; head := head this;
     tail := tail this; count := count this; mutex := mutex this;
     semItems := sem; semSpace := semSpace this |}.

Definition set_semSpace (sem : Semaphore.t) (this : t) : t :=
  {| buffer := buffer this; maxSize := maxSize this; head := head this;
     tail := tail this; count := count this; mutex := mutex this;
     semItems := semItems this; semSpace := sem |}.

(** The critical section of [enqueue]: [this.buffer[this.tail] = task;
    this.tail = (this.tail + 1) % this.maxSize; this.count++]. The remainder
    [%] is [Z.rem]; it is only evaluated with [maxSize <> 0] (a queue of
    capacity 0 never lets a caller into a section). *)
Definition enqueue_section (task : Task.t) (this : t) : unit * t :=
  (tt, {| buffer := array_set (buffer this) (tail this) (Item task);
          maxSize := maxSize this;
          head := head this;
          tail := Z.rem (tail this + 1) (maxSize this);
          count := count this + 1;
          mutex := mutex this;
          semItems := semItems this; semSpace := semSpace this |}).

(** The critical section of [dequeue]: [task = this.buffer[this.head];
    this.buffer[this.head] = null; this.head = (this.head + 1) %
    this.maxSize; this.count--]. *)
Definition dequeue_section (this : t) : slot * t :=
  (array_get (buffer this) (head this),
   {| buffer := array_set (buffer this) (head this) Null;
      maxSize := maxSize this;
      head := Z.rem (head this + 1) (maxSize this);
      tail := tail this;
      count := count this - 1;
      mutex := mutex this;
      semItems := semItems this; semSpace := semSpace this |}).

(** [enqueue(task)]: wait for space, write under the mutex, signal an
    item. The value is the waiter resumed by the signal, if one was. *)
Definition enqueue (resolve : resolver) (task : Task.t) (this : t)
    : outcome t (option resolver) :=
  match Semaphore.wait resolve (semSpace this) with
  | Done _ sem =>
      match withLock mutex set_mutex resolve (enqueue_section task)
              (set_semSpace sem this) with
      | Done _ this =>
          let '(woken, sem) := Semaphore.signal (semItems this) in
          Done woken (set_semItems sem this)
      | Thrown e this => Thrown e this
      | Pending this => Pending this
      end
  | Thrown e sem => Thrown e (set_semSpace sem this)
  | Pending sem => Pending (set_semSpace sem this)
  end.

(** [dequeue()]: wait for an item, read under the mutex, signal space. The
    value is what was read and the waiter resumed by the signal. *)
Definition dequeue (resolve : resolver) (this : t)
    : outcome t (slot * option resolver) :=
  match Semaphore.wait resolve (semItems this) with
  | Done _ sem =>
      match withLock mutex set_mutex resolve dequeue_section
              (set_semItems sem this) with
      | Done (task, _) this =>
          let '(woken, sem) := Semaphore.signal (semSpace this) in
          Done (task, woken) (set_semSpace sem this)
      | Thrown e this => Thrown e this
      | Pending this => Pending this
      end
  | Thrown e sem => Thrown e (set_semItems sem this)
  | Pending sem => Pending (set_semItems sem this)
  end.

(** [getSize()], [isEmpty()], [isFull()] *)
Definition getSize (resolve : resolver) (this : t) : outcome t (Z * option resolver) :=
  withLock mutex set_mutex resolve (fun q => (count q, q)) this.

Definition isEmpty (resolve : resolver) (this : t) : outcome t (bool * option resolver) :=
  withLock mutex set_mutex resolve (fun q => (count q =? 0, q)) this.

Definition isFull (resolve : resolver) (this : t) : outcome t (bool * option resolver) :=
  withLock mutex set_mutex resolve (fun q => (count q =? maxSize q, q)) this.

End TaskQueue.

(** Calls on one semaphore made one after the other, with a log of what
    became of the callers: the waits that returned at once, the callers that
    were parked, and the callers a signal resumed, each in order. *)
Inductive sem_call : Type :=
| Wait (resolve : resolver)
| Signal.

Record sem_log : Type := mkSemLog {
  passed : list resolver;
  parked : list resolver;
  resumed : list resolver;
  signals : Z
}.

Definition sem_step (sl : Semaphore.t * sem_log) (c : sem_call) : Semaphore.t * sem_log :=
  let '(s, l) := sl in
  match c with
  | Wait resolve =>
      match Semaphore.wait resolve s with
      | Done _ s' => (s', mkSemLog (passed l ++ [resolve]) (parked l) (resumed l) (signals l))
      | Pending s' => (s', mkSemLog (passed l) (parked l ++ [resolve]) (resumed l) (signals l))
      | Thrown _ s' => (s', l)
      end
  | Signal =>
      match Semaphore.signal s with
      | (Some woken, s') =>
          (s', mkSemLog (passed l) (parked l) (resumed l ++ [woken]) (signals l + 1))
      | (None, s') => (s', mkSemLog (passed l) (parked l) (resumed l) (signals l + 1))
      end
  end.

Definition sem_run (cs : list sem_call) (s : Semaphore.t) : Semaphore.t * sem_log :=
  fold_left sem_step cs (s, mkSemLog [] [] [] 0).

(** Calls on one mutex made one after the other, with a log: the callers
    that got the lock at once, those that were parked, those an [unlock]
    handed the lock to, and the numbers of [unlock] calls that returned and
    that threw. *)
Inductive mutex_call : Type :=
| Lock (resolve : resolver)
| Unlock.

Record mutex_log : Type := mkMutexLog {
  acquired : list resolver;
  queued : list resolver;
  handed : list resolver;
  released : Z;
  refused : Z
}.

Definition mutex_step (ml : Mutex.t * mutex_log) (c : mutex_call) : Mutex.t * mutex_log :=
  let '(m, l) := ml in
  match c with
  | Lock resolve =>
      match Mutex.lock resolve m with
      | Done _ m' =>
          (m', mkMutexLog (acquired l ++ [resolve]) (queued l) (handed l)
                 (released l) (refused l))
      | Pending m' =>
          (m', mkMutexLog (acquired l) (queued l ++ [resolve]) (handed l)
                 (released l) (refused l))
      | Thrown _ m' => (m', l)
      end
  | Unlock =>
      match Mutex.unlock m with
      | Done (Some next) m' =>
          (m', mkMutexLog (acquired l) (queued l) (handed l ++ [next])
                 (released l + 1) (refused l))
      | Done None m' =>
          (m', mkMutexLog (acquired l) (queued l) (handed l) (released l + 1) (refused l))
      | Thrown _ m' =>
          (m', mkMutexLog (acquired l) (queued l) (handed l) (released l) (refused l + 1))
      | Pending m' => (m', l)
      end
  end.

Definition mutex_run (cs : list mutex_call) (m : Mutex.t) : Mutex.t * mutex_log :=
  fold_left mutex_step cs (m, mkMutexLog [] [] [] 0 0).

End SyncUtils.

(** ** src/worker.js *)

Module Worker.
Import Js PgmUtils.

Record config : Type := mkConfig {
  fifoPath : string;
  outputPath : string;
  mode : Z;
  t1 : num;
  t2 : num;
  nthreads : num
}.

(** What [parseArgs] does: [process.exit(code)], an exception thrown by
    [validateSliceParams] (which [main] turns into [process.exit(1)]), or
    the parsed configuration. *)
Inductive parsed : Type :=
| Exit (code : Z)
| Raise (e : Filters.slice_param_error)
| Parsed (c : config).

(** [args[i]] for an index below [args.length]. *)
Definition arg (args : list string) (i : nat) : string :=
  nth i args EmptyString.

(** The final check of [parseArgs]. *)
Definition check_nthreads (c : config) : parsed :=
  if lt (nthreads c) (Num 1) || gt (nthreads c) (Num 32)
  then Exit 1
  else Parsed c.

(** [parseArgs()], on [args = process.argv.slice(2)]. *)
Definition parseArgs (args : list string) : parsed :=
  if (length args <? 3)%nat then Exit 1
  else
    let fifoPath := arg args 0 in
    let outputPath := arg args 1 in
    let modeStr := arg args 2 in
    if String.eqb modeStr "negativo" then
      let nthreads := if (4 <=? length args)%nat then parseInt (arg args 3) else Num 4 in
      check_nthreads (mkConfig fifoPath outputPath MODE_NEG (Num 0) (Num 255) nthreads)
    else if String.eqb modeStr "slice" then
      if (length args <? 5)%nat then Exit 1
      else
        let t1 := parseInt (arg args 3) in
        let t2 := parseInt (arg args 4) in
        let nthreads := if (6 <=? length args)%nat then parseInt (arg args 5) else Num 4 in
        match Filters.validateSliceParams t1 t2 (Num 255) with
        | Some e => Raise e
        | None => check_nthreads (mkConfig fifoPath outputPath MODE_SLICE t1 t2 nthreads)
        end
    else Exit 1.

(** The exit code [main] ends with when [parseArgs] does not return. *)
Definition exit_code (p : parsed) : option Z :=
  match p with
  | Exit code => Some code
  | Raise _ => Some 1
  | Parsed _ => None
  end.

(** The errors of the [end] handler of [receiveImageData]. *)
Inductive receive_error : Type :=
| ShortHeader                          (* 'Dados insuficientes para cabecalho' *)
| HeaderBounds                         (* a read of [fromBuffer] out of bounds *)
| IncompleteData (expected received : Z). (* 'Dados da imagem incompletos' *)

(** The [end] handler of [receiveImageData], on [fullBuffer], the
    concatenation of the chunks read from the FIFO: [inl pgm] when the
    promise is resolved, [inr error] when it is rejected. The numbers are
    integers: [expectedDataSize] is the product of two 32-bit fields, which
    the code rounds to a double above [2 ^ 53]; no buffer is that long, so
    the rounding shows only in the number the error reports. *)
Definition receiveImageData (fullBuffer : typed_array) : PGM.t + receive_error :=
  if Z.of_nat (length fullBuffer) <? 24 then inr ShortHeader
  else
    match Header.fromBuffer (Buffer_slice fullBuffer 0 24) with
    | None => inr HeaderBounds
    | Some header =>
        let expectedDataSize := Header.w header * Header.h header in
        let imageData := Buffer_slice fullBuffer 24 (24 + expectedDataSize) in
        if negb (Z.of_nat (length imageData) =? expectedDataSize)
        then inr (IncompleteData expectedDataSize (Z.of_nat (length imageData)))
        else inl (PGM.mk (Header.w header) (Header.h header) (Header.maxv header) imageData)
    end.

(** [Math.ceil(a / b)] on integers, [b <> 0]. *)
Definition ceil_div (a b : Z) : Z := - ((- a) / b).

(** One iteration of the loop of [createTasks]. *)
Definition createTasks_step (linesPerThread height : Z) (i : Z)
    (tasks : list Task.t) : list Task.t :=
  let rowStart := i * linesPerThread in
  let rowEnd := Z.min ((i + 1) * linesPerThread) height in
  if rowStart <? height then tasks ++ [Task.mk rowStart rowEnd] else tasks.

(** [createTasks(height, nthreads)] *)
Definition createTasks (height nthreads : Z) : list Task.t :=
  let tasks := [] in
  let linesPerThread := ceil_div height nthreads in
  for_range 0 nthreads (createTasks_step linesPerThread height) tasks.

End Worker.

(** ** src/filters.js, continued: the dispatch on the mode *)

Module FilterDispatch.
Import Js PgmUtils.

(** [throw new Error(`Modo de filtro invalido: ${mode}`)] *)
Inductive filter_error : Type :=
| InvalidMode (mode : Z).

(** [applyFilter(inputData, outputData, width, rowStart, rowEnd, mode, t1,
    t2, maxValue)]: the store after the call, with the number returned or
    the error thrown. *)
Definition applyFilter (st : store) (inputData outputData : ref)
    (width rowStart rowEnd mode : Z) (t1 t2 : num) (maxValue : Z)
    : store * (Z + filter_error) :=
  if mode =? MODE_NEG then
    let '(st', processedPixels) :=
      Filters.applyNegativeBlock st inputData outputData width rowStart rowEnd maxValue in
    (st', inl processedPixels)
  else if mode =? MODE_SLICE then
    let '(st', processedPixels) :=
      Filters.applySliceBlock st inputData outputData width rowStart rowEnd t1 t2 in
    (st', inl processedPixels)
  else (st, inr (InvalidMode mode)).

End FilterDispatch.

(** ** src/sender.js *)

Module Sender.
Import Js PgmUtils.

(** [parseArgs()] of the sender: [process.exit(1)] with fewer than two
    arguments, else the two paths. *)
Definition parseArgs (args : list string) : Z + string * string :=
  if (length args <? 2)%nat then inl 1
  else inr (Worker.arg args 0, Worker.arg args 1).

(** The header [sendImageData] prepares: the metadata of the raster, the
    filter fields zeroed. *)
Definition header_of (pgm : PGM.t) : Header.t :=
  {| Header.w := PGM.w pgm;
     Header.h := PGM.h pgm;
     Header.maxv := PGM.maxv pgm;
     Header.mode := 0;
     Header.t1 := 0;
     Header.t2 := 0 |}.

(** The bytes [sendImageData] writes to the FIFO, in the order of its two
    [writeStream.write] calls: the header buffer, then [pgm.data]. [None]
    when [toBuffer] throws. *)
Definition sendImageData (pgm : PGM.t) : option typed_array :=
  headerBuffer ← Header.toBuffer (header_of pgm);
  Some (headerBuffer ++ PGM.data pgm).

End Sender.

(** ** worker-thread.js *)

Module WorkerThread.
Import Js PgmUtils.

(** [workerData], with the view [outputBuffer] the thread makes of
    [sharedOutputBuffer]. *)
Record workerData : Type := mkWorkerData {
  inputBuffer : ref;
  outputBuffer : ref;
  width : Z;
  height : Z;
  mode : Z;
  t1 : num;
  t2 : num;
  maxValue : Z;
  threadId : Z
}.

(** The messages of the main thread, by their [type]. *)
Inductive message : Type :=
| PROCESS_TASK (task : Task.t) (taskId : option Z)
| TERMINATE
| OtherMessage.

(** What the listener does in answer: a message posted to the main thread,
    [process.exit(0)], or nothing. *)
Inductive answer : Type :=
| TASK_COMPLETED (threadId : Z) (taskId : option Z) (processedPixels : num)
| TASK_ERROR (threadId : Z) (task : Task.t) (error : FilterDispatch.filter_error)
| EXIT (code : Z)
| NoAnswer.

(** The listener of [parentPort.on('message', ...)]. The field
    [processedPixels] of the answer is [task.rowEnd - task.rowStart], and a
    task has the fields [row_start] and [row_end]: both operands are
    [undefined]. *)
Definition on_message (wd : workerData) (m : message) (st : store) : store * answer :=
  match m with
  | PROCESS_TASK task taskId =>
      match FilterDispatch.applyFilter st (inputBuffer wd) (outputBuffer wd) (width wd)
              (Task.row_start task) (Task.row_end task)
              (mode wd) (t1 wd) (t2 wd) (maxValue wd) with
      | (st', inl processedPixels) =>
          (st', TASK_COMPLETED (threadId wd) taskId (sub (of_read None) (of_read None)))
      | (st', inr error) =>
          (st', TASK_ERROR (threadId wd) task error)
      end
  | TERMINATE => (st, EXIT 0)
  | OtherMessage => (st, NoAnswer)
  end.

End WorkerThread.

(** ** src/worker.js, continued: the thread pool *)

Module WorkerPool.
Import Js PgmUtils.

(** The two arrays of [processWithThreadPool]: [inputBuffer], a copy of the
    pixels (every worker gets its own clone, which none of them writes), and
    the array over [sharedOutputBuffer], zero-filled and of the same length,
    which all workers share. *)
Definition inputBuffer : ref := 0%nat.
Definition outputBuffer : ref := 1%nat.

Definition initial_store (inputPgm : PGM.t) : store :=
  fun r => if Nat.eqb r inputBuffer then PGM.data inputPgm
           else Buffer_alloc (Z.of_nat (length (PGM.data inputPgm))).

(** What rejects the promise of [processWithThreadPool]: the [RangeError]
    of [Buffer.alloc] for a negative size, or the error of a task. *)
Inductive pool_error : Type :=
| RangeError (size : Z)
| TaskError (error : FilterDispatch.filter_error).

(** What [processWithThreadPool] comes to: the promise resolves with the
    output raster, it rejects, or it never settles. *)
Inductive pool_result : Type :=
| Resolved (outputPgm : PGM.t)
| Rejected (error : pool_error)
| Hangs.

(** [new PGM(width, height, maxValue)], with no data:
    [Buffer.alloc(width * height)], which throws for a negative size. (It
    also throws for a size above [buffer.constants.MAX_LENGTH], a limit of
    the platform that no buffer in existence exceeds; sizes are taken below
    it.) *)
Definition new_PGM (width height maxValue : Z) : PGM.t + pool_error :=
  if width * height <? 0 then inr (RangeError (width * height))
  else inl (PGM.mk width height maxValue (Buffer_alloc (width * height))).

(** Task [i] is posted with its index to worker [i % nthreads]. *)
Definition post (inputPgm : PGM.t) (mode : Z) (t1 t2 : num) (nthreads : Z)
    (i : nat) (task : Task.t) : WorkerThread.workerData * WorkerThread.message :=
  (WorkerThread.mkWorkerData inputBuffer outputBuffer
     (PGM.w inputPgm) (PGM.h inputPgm) mode t1 t2 (PGM.maxv inputPgm)
     (Z.rem (Z.of_nat i) nthreads),
   WorkerThread.PROCESS_TASK task (Some (Z.of_nat i))).

(** The workers handle the posted messages, one message after the other in
    some order; the answers are collected in that order. *)
Fixpoint run (posted : list (WorkerThread.workerData * WorkerThread.message))
    (st : store) : store * list WorkerThread.answer :=
  match posted with
  | [] => (st, [])
  | (wd, m) :: rest =>
      let '(st', a) := WorkerThread.on_message wd m st in
      let '(st'', answers) := run rest st' in
      (st'', a :: answers)
  end.

(** The fields [threadId] and [taskId] of a message a worker posts. The
    [TASK_ERROR] message has the field [task] and no field [taskId]:
    [message.taskId] is [undefined] for it. *)
Definition threadId_of (a : WorkerThread.answer) : option Z :=
  match a with
  | WorkerThread.TASK_COMPLETED threadId _ _ => Some threadId
  | WorkerThread.TASK_ERROR threadId _ _ => Some threadId
  | _ => None
  end.

Definition taskId_of (a : WorkerThread.answer) : option Z :=
  match a with
  | WorkerThread.TASK_COMPLETED _ taskId _ => taskId
  | _ => None
  end.

(** [message.taskId === i] *)
Definition taskId_is (taskId : option Z) (i : nat) : bool :=
  match taskId with
  | Some id => id =? Z.of_nat i
  | None => false
  end.

(** What the [messageListener] of task [i] does with a message: it calls
    [coordinator.taskCompleted()] and resolves the promise of the task, it
    rejects it, or it does nothing. (The other way to reject, the [error]
    event of a worker, is not raised: the listener of the thread catches
    what [applyFilter] throws.) *)
Inductive listener_action : Type :=
| Resolve
| Reject (error : FilterDispatch.filter_error)
| Ignore.

Definition messageListener (i : nat) (a : WorkerThread.answer) : listener_action :=
  match a with
  | WorkerThread.TASK_COMPLETED _ _ _ =>
      if taskId_is (taskId_of a) i then Resolve else Ignore
  | WorkerThread.TASK_ERROR _ _ error =>
      if taskId_is (taskId_of a) i then Reject error else Ignore
  | _ => Ignore
  end.

(** The listener of task [i] is attached to [workers[i % nthreads]]: it gets
    the messages of that worker only. *)
Definition hears (nthreads : Z) (i : nat) (a : WorkerThread.answer) : bool :=
  match threadId_of a with
  | Some threadId => threadId =? Z.rem (Z.of_nat i) nthreads
  | None => false
  end.

(** One message of a worker, given to the listeners of the tasks whose
    promise is not settled yet, in the order in which they were attached:
    the tasks left unsettled, the coordinator, and the first rejection. A
    listener that resolves or rejects removes itself. *)
Fixpoint deliver (nthreads : Z) (a : WorkerThread.answer) (unsettled : list nat)
    (coordinator : SyncUtils.CompletionCoordinator.t)
    : list nat * SyncUtils.CompletionCoordinator.t * option FilterDispatch.filter_error :=
  match unsettled with
  | [] => ([], coordinator, None)
  | i :: rest =>
      match (if hears nthreads i a then messageListener i a else Ignore) with
      | Resolve =>
          deliver nthreads a rest
            (SyncUtils.CompletionCoordinator.state_of
               (SyncUtils.CompletionCoordinator.taskCompleted 0%nat coordinator))
      | Reject error =>
          let '(unsettled', coordinator', _) := deliver nthreads a rest coordinator in
          (unsettled', coordinator', Some error)
      | Ignore =>
          let '(unsettled', coordinator', rejection) :=
            deliver nthreads a rest coordinator in
          (i :: unsettled', coordinator', rejection)
      end
  end.

(** [await Promise.all(taskPromises)] over the messages of the workers, in
    the order in which they arrive: [Promise.all] rejects with the first
    rejection, and is fulfilled when no task is left unsettled. *)
Fixpoint await_all (nthreads : Z) (unsettled : list nat)
    (coordinator : SyncUtils.CompletionCoordinator.t)
    (messages : list WorkerThread.answer)
    : list nat * SyncUtils.CompletionCoordinator.t * option FilterDispatch.filter_error :=
  match messages with
  | [] => (unsettled, coordinator, None)
  | a :: rest =>
      match deliver nthreads a unsettled coordinator with
      | (unsettled', coordinator', Some error) => (unsettled', coordinator', Some error)
      | (unsettled', coordinator', None) => await_all nthreads unsettled' coordinator' rest
      end
  end.

(** [processWithThreadPool(inputPgm, mode, t1, t2, nthreads)], given the
    order [schedule] in which the posted tasks get run by the workers. *)
Definition processWithThreadPool (inputPgm : PGM.t) (mode : Z) (t1 t2 : num)
    (nthreads : Z)
    (schedule : list (WorkerThread.workerData * WorkerThread.message) ->
                list (WorkerThread.workerData * WorkerThread.message))
    : pool_result :=
  match new_PGM (PGM.w inputPgm) (PGM.h inputPgm) (PGM.maxv inputPgm) with
  | inr error => Rejected error
  | inl outputPgm =>
      let tasks := Worker.createTasks (PGM.h inputPgm) nthreads in
      let coordinator := SyncUtils.CompletionCoordinator.new (Z.of_nat (length tasks)) in
      let posted := imap (post inputPgm mode t1 t2 nthreads) tasks in
      let '(st, messages) := run (schedule posted) (initial_store inputPgm) in
      match await_all nthreads (seq 0 (length tasks)) coordinator messages with
      | (_, _, Some error) => Rejected (TaskError error)
      | (_ :: _, _, None) => Hangs
      | ([], coordinator, None) =>
          match SyncUtils.CompletionCoordinator.waitForCompletion 0%nat coordinator with
          | SyncUtils.Done _ _ =>
              Resolved (PGM.mk (PGM.w outputPgm) (PGM.h outputPgm) (PGM.maxv outputPgm)
                          (st outputBuffer))
          | _ => Hangs
          end
      end
  end.

End WorkerPool.

(** ** pgm-utils.js, continued: reading and writing PGM files *)

Module PgmFile.
Import Js PgmUtils.

(** The decimal digits of a number in a template literal: [String(n)] for an
    integer [n], with a minus sign when it is negative. *)
Definition digit_char (d : Z) : ascii := ascii_of_nat (48 + Z.to_nat d).

Fixpoint digits_of (fuel : nat) (n : Z) (acc : string) : string :=
  match fuel with
  | O => acc
  | S fuel' =>
      let acc' := String (digit_char (n mod 10)) acc in
      if n <? 10 then acc' else digits_of fuel' (n / 10) acc'
  end.

Definition Number_toString (z : Z) : string :=
  if z <? 0
  then String "-"%char (digits_of (S (Z.to_nat (Z.log2 (- z)))) (- z) EmptyString)
  else digits_of (S (Z.to_nat (Z.log2 z))) z EmptyString.

(** [Buffer.from(s, 'ascii')]: one byte per character. *)
Fixpoint Buffer_from_ascii (s : string) : typed_array :=
  match s with
  | EmptyString => []
  | String c s' => Z.of_nat (nat_of_ascii c) :: Buffer_from_ascii s'
  end.

(** [buf.toString('ascii')]: one character per byte, the high bit
    dropped. *)
Fixpoint toString_ascii (buf : typed_array) : string :=
  match buf with
  | [] => EmptyString
  | b :: buf' => String (ascii_of_nat (Z.to_nat (Z.land b 127))) (toString_ascii buf')
  end.

(** [s.split(sep)] for a separator of one character. *)
Fixpoint split (sep : ascii) (s : string) : list string :=
  match s with
  | EmptyString => [EmptyString]
  | String c s' =>
      if Ascii.eqb c sep then EmptyString :: split sep s'
      else match split sep s' with
           | line :: lines => String c line :: lines
           | [] => [String c EmptyString]
           end
  end.

(** [s.trim()] *)
Fixpoint trim_end (s : string) : string :=
  match s with
  | EmptyString => EmptyString
  | String c s' =>
      match trim_end s' with
      | EmptyString => if is_white_space c then EmptyString else String c EmptyString
      | t => String c t
      end
  end.

Definition trim (s : string) : string := trim_end (skip_white_space s).

(** [s.split(/\s+/)]: [in_run] tells that the previous character was white
    space. *)
Fixpoint split_spaces_from (in_run : bool) (s : string) : list string :=
  match s with
  | EmptyString => [EmptyString]
  | String c s' =>
      if is_white_space c then
        if in_run then split_spaces_from true s'
        else EmptyString :: split_spaces_from true s'
      else match split_spaces_from false s' with
           | token :: tokens => String c token :: tokens
           | [] => [String c EmptyString]
           end
  end.

Definition split_spaces (s : string) : list string := split_spaces_from false s.

(** [s.startsWith('#')] *)
Definition startsWith_hash (s : string) : bool :=
  match s with
  | String c _ => Ascii.eqb c "#"%char
  | EmptyString => false
  end.

(** The errors of [readPGM]; [TypeError] is the one JavaScript raises on
    [lines[lineIndex].trim()] when the header has no such line. *)
Inductive read_error : Type :=
| NotP5
| TypeError
| InvalidDimensions
| InvalidMaxValue
| IncompleteData (expected obtained : Z).

(** The loop that skips the comment lines, on the lines from [lineIndex]
    on. *)
Fixpoint skip_comments (lines : list string) (headerSize : Z) : list string * Z :=
  match lines with
  | line :: rest =>
      if startsWith_hash line
      then skip_comments rest (headerSize + Z.of_nat (String.length line) + 1)
      else (lines, headerSize)
  | [] => ([], headerSize)
  end.

(** [readPGM(filePath)], on the bytes [data] of the file. *)
Definition readPGM (data : typed_array) : PGM.t + read_error :=
  let headerStr :=
    toString_ascii (Buffer_slice data 0 (Z.min 200 (Z.of_nat (length data)))) in
  match split "010"%char headerStr with
  | [] => inr TypeError
  | line0 :: lines =>
      if negb (String.eqb (trim line0) "P5") then inr NotP5
      else
        let headerSize := Z.of_nat (String.length line0) + 1 in
        let '(lines, headerSize) := skip_comments lines headerSize in
        match lines with
        | [] => inr TypeError
        | dimLine :: lines =>
            let dimensions := split_spaces (trim dimLine) in
            let width := parseInt (nth 0 dimensions EmptyString) in
            let height :=
              match dimensions with
              | _ :: d1 :: _ => parseInt d1
              | _ => NaN
              end in
            match width, height with
            | Num width, Num height =>
                let headerSize := headerSize + Z.of_nat (String.length dimLine) + 1 in
                match lines with
                | [] => inr TypeError
                | maxLine :: _ =>
                    match parseInt (trim maxLine) with
                    | NaN => inr InvalidMaxValue
                    | Num maxValue =>
                        let headerSize :=
                          headerSize + Z.of_nat (String.length maxLine) + 1 in
                        let imageData :=
                          Buffer_slice data headerSize (headerSize + width * height) in
                        if negb (Z.of_nat (length imageData) =? width * height)
                        then inr (IncompleteData (width * height)
                                    (Z.of_nat (length imageData)))
                        else inl (PGM.mk width height maxValue imageData)
                    end
                end
            | _, _ => inr InvalidDimensions
            end
        end
  end.

(** The header [writePGM] writes: [`P5\n${pgm.w} ${pgm.h}\n${pgm.maxv}\n`]. *)
Definition header_text (pgm : PGM.t) : string :=
  String.append "P5"
    (String "010"%char
       (String.append (Number_toString (PGM.w pgm))
          (String " "%char
             (String.append (Number_toString (PGM.h pgm))
                (String "010"%char
                   (String.append (Number_toString (PGM.maxv pgm))
                      (String "010"%char EmptyString))))))).

(** [writePGM(filePath, pgm)]: the bytes written to the file. *)
Definition writePGM (pgm : PGM.t) : typed_array :=
  let headerBuffer := Buffer_from_ascii (header_text pgm) in
  headerBuffer ++ PGM.data pgm.

End PgmFile.

(** ** Vocabulary of the statements *)

Module Spec.
Import Js PgmUtils.

(** The pixel function a block transform applies at every index. *)
Definition negative_pixel (maxValue : Z) (r : num) : num :=
  sub (sub (add (Num maxValue) (Num 1)) (Num 1)) r.

Definition slice_pixel (limite_a limite_b : num) (z : num) : num :=
  if le z limite_a || ge z limite_b then Num 0 else Num 255.

Definition slice_pixel_pseudo (limite_a limite_b : num) (z : num) : num :=
  if le z limite_a || ge z limite_b then Num 255 else z.

(** A loop body that stores [f (inp[i])] into [out[i]]. *)
Definition pointwise (f : num -> num) (inp out : ref) (i : Z) (st : store) : store :=
  upd st out (ta_set (st out) i (f (of_read (ta_get (st inp) i)))).

(** [st'] differs from [st] at most in the elements [lo <= j < hi] of the
    array [out]: no other array changed, [out] kept its length and its
    elements outside the range. *)
Definition writes_only (st st' : store) (out : ref) (lo hi : Z) : Prop :=
  (forall r : ref, r <> out -> st' r = st r) /\
  length (st' out) = length (st out) /\
  (forall j : Z, ~ (lo <= j < hi) -> ta_get (st' out) j = ta_get (st out) j).

(** The array holds bytes. *)
Definition bytes (a : typed_array) : Prop :=
  Forall (fun z => 0 <= z <= 255) a.

(** The raster of the end-to-end scenarios: 4 x 4 pixels 10, 20, ..., 160
    in array 0, and a zeroed output array of the same size elsewhere. *)
Definition scenario_pixels : typed_array :=
  [10; 20; 30; 40; 50; 60; 70; 80; 90; 100; 110; 120; 130; 140; 150; 160].

Definition scenario_store : store :=
  fun r => match r with O => scenario_pixels | _ => Buffer_alloc 16 end.

Definition in_ref : ref := 0%nat.
Definition out_ref : ref := 1%nat.
Definition out2_ref : ref := 2%nat.

(** A stream for the receive step: the header of a 1 x 1 raster followed
    by two payload bytes, one more than the header announces. *)
Definition long_stream : typed_array :=
  [1; 0; 0; 0;  1; 0; 0; 0;  255; 0; 0; 0;  0; 0; 0; 0;  0; 0; 0; 0;  0; 0; 0; 0;
   7; 9].

(** The header and the payload of a received stream of at least 24
    bytes. *)
Definition stream_header (fullBuffer : typed_array) : option Header.t :=
  Header.fromBuffer (take 24 fullBuffer).

Definition stream_payload (fullBuffer : typed_array) : typed_array :=
  drop 24 fullBuffer.

(** The coordinator expected after [j] calls of [taskCompleted], when it
    was started with [N] remaining tasks, a free mutex and the semaphore
    [sem]: the flag is set and the semaphore signalled from call number
    [max N 1] on. *)
Definition coordinator_after (N : Z) (sem : SyncUtils.Semaphore.t) (j : Z)
    : SyncUtils.CompletionCoordinator.t :=
  {| SyncUtils.CompletionCoordinator.mutex := SyncUtils.Mutex.new;
     SyncUtils.CompletionCoordinator.semDone :=
       if Z.max N 1 <=? j then snd (SyncUtils.Semaphore.signal sem) else sem;
     SyncUtils.CompletionCoordinator.remainingTasks := N - j;
     SyncUtils.CompletionCoordinator.completed := Z.max N 1 <=? j |}.

(** Row [r] belongs to the task. *)
Definition in_task (t : Task.t) (r : Z) : Prop :=
  Task.row_start t <= r < Task.row_end t.

(** A 32-bit signed integer. *)
Definition int32 (z : Z) : Prop := - 2 ^ 31 <= z <= 2 ^ 31 - 1.

(** The tasks follow one another from row [lo] to row [hi], each one
    starting where the previous one ends and none of them empty. *)
Inductive contiguous (lo : Z) : Z -> list Task.t -> Prop :=
| contiguous_nil : contiguous lo lo []
| contiguous_snoc mid hi tasks :
    contiguous lo mid tasks -> mid < hi ->
    contiguous lo hi (tasks ++ [Task.mk mid hi]).

End Spec.

(** ** Vocabulary for the task queue *)

Module QueueSpec.
Import SyncUtils PgmUtils.

(** What the queue holds, oldest first: the [count] slots from [head] on,
    around the ring. *)
Definition contents (q : TaskQueue.t) : list TaskQueue.slot :=
  map (fun k : nat =>
         TaskQueue.array_get (TaskQueue.buffer q)
           ((TaskQueue.head q + Z.of_nat k) mod TaskQueue.maxSize q))
      (seq 0 (Z.to_nat (TaskQueue.count q))).

(** A queue between two calls: a capacity of at least 1, the ring indices
    in range and [tail] at [count] slots after [head], nobody holding the
    mutex or parked, and the two semaphores counting the items and the free
    slots. *)
Definition at_rest (q : TaskQueue.t) : Prop :=
  1 <= TaskQueue.maxSize q /\
  length (TaskQueue.buffer q) = Z.to_nat (TaskQueue.maxSize q) /\
  0 <= TaskQueue.head q < TaskQueue.maxSize q /\
  0 <= TaskQueue.count q <= TaskQueue.maxSize q /\
  TaskQueue.tail q = (TaskQueue.head q + TaskQueue.count q) mod TaskQueue.maxSize q /\
  TaskQueue.mutex q = Mutex.new /\
  TaskQueue.semItems q = Semaphore.new (TaskQueue.count q) /\
  TaskQueue.semSpace q = Semaphore.new (TaskQueue.maxSize q - TaskQueue.count q).

(** The queue a call leaves behind. *)
Definition state_of {A : Type} (o : outcome TaskQueue.t A) : TaskQueue.t :=
  match o with Done _ s | Thrown _ s | Pending s => s end.

(** What a [dequeue] call returned, if it did. *)
Definition value_of (o : outcome TaskQueue.t (TaskQueue.slot * option resolver))
    : option TaskQueue.slot :=
  match o with Done (x, _) _ => Some x | _ => None end.

(** The tasks enqueued one after the other by one caller. *)
Definition enqueue_all (resolve : resolver) (tasks : list Task.t) (q : TaskQueue.t)
    : TaskQueue.t :=
  fold_left (fun q task => state_of (TaskQueue.enqueue resolve task q)) tasks q.

(** [n] calls of [dequeue] one after the other: what they returned, and the
    queue left. *)
Fixpoint dequeue_n (resolve : resolver) (n : nat) (q : TaskQueue.t)
    : list (option TaskQueue.slot) * TaskQueue.t :=
  match n with
  | O => ([], q)
  | S n' =>
      let o := TaskQueue.dequeue resolve q in
      let '(xs, q') := dequeue_n resolve n' (state_of o) in
      (value_of o :: xs, q')
  end.

(** A queue of capacity 3 at rest after some traffic: one task, in the
    last slot of the ring, so that the next [enqueue] wraps around. *)
Definition sample_queue : TaskQueue.t :=
  {| TaskQueue.buffer := [TaskQueue.Null; TaskQueue.Null; TaskQueue.Item (Task.mk 4 6)];
     TaskQueue.maxSize := 3;
     TaskQueue.head := 2;
     TaskQueue.tail := 0;
     TaskQueue.count := 1;
     TaskQueue.mutex := Mutex.new;
     TaskQueue.semItems := Semaphore.new 1;
     TaskQueue.semSpace := Semaphore.new 2 |}.

(** The same queue at rest when it is full, after two more tasks were
    enqueued, and when it is empty, after its task was dequeued. *)
Definition full_queue : TaskQueue.t :=
  {| TaskQueue.buffer :=
       [TaskQueue.Item (Task.mk 6 8); TaskQueue.Item (Task.mk 8 9);
        TaskQueue.Item (Task.mk 4 6)];
     TaskQueue.maxSize := 3;
     TaskQueue.head := 2;
     TaskQueue.tail := 2;
     TaskQueue.count := 3;
     TaskQueue.mutex := Mutex.new;
     TaskQueue.semItems := Semaphore.new 3;
     TaskQueue.semSpace := Semaphore.new 0 |}.

Definition empty_queue : TaskQueue.t :=
  {| TaskQueue.buffer := [TaskQueue.Null; TaskQueue.Null; TaskQueue.Null];
     TaskQueue.maxSize := 3;
     TaskQueue.head := 0;
     TaskQueue.tail := 0;
     TaskQueue.count := 0;
     TaskQueue.mutex := Mutex.new;
     TaskQueue.semItems := Semaphore.new 0;
     TaskQueue.semSpace := Semaphore.new 3 |}.

End QueueSpec.

(** ** Vocabulary for the thread pool *)

Module PoolSpec.
Import Js PgmUtils Spec.

(** The pixel function [applyFilter] applies in a mode. *)
Definition pixel (mode : Z) (t1 t2 : num) (maxValue : Z) : num -> num :=
  if mode =? MODE_NEG then negative_pixel maxValue else slice_pixel t1 t2.

(** The byte the output array gets for an input byte. *)
Definition filtered (mode : Z) (t1 t2 : num) (maxValue : Z) (r : Z) : Z :=
  ToUint8 (pixel mode t1 t2 maxValue (Num r)).

(** Pixel [j] lies in the rows of the task posted by [p]. *)
Definition in_block (width : Z) (p : WorkerThread.workerData * WorkerThread.message)
    (j : Z) : bool :=
  match p.2 with
  | WorkerThread.PROCESS_TASK task _ =>
      (Task.row_start task * width <=? j) && (j <? Task.row_end task * width)
  | _ => false
  end.

(** The scenario raster as a PGM. *)
Definition scenario_pgm : PGM.t := PGM.mk 4 4 255 scenario_pixels.

(** The index a posted task carries. *)
Definition post_index (p : WorkerThread.workerData * WorkerThread.message) : nat :=
  match p.2 with
  | WorkerThread.PROCESS_TASK _ (Some taskId) => Z.to_nat taskId
  | _ => 0%nat
  end.

(** The message by which worker [i % nthreads] tells that task [i] is
    done. *)
Definition completed_by (nthreads : Z) (i : nat) (a : WorkerThread.answer) : Prop :=
  a = WorkerThread.TASK_COMPLETED (Z.rem (Z.of_nat i) nthreads) (Some (Z.of_nat i)) NaN.

(** A [TASK_ERROR] message. *)
Definition is_error (a : WorkerThread.answer) : Prop :=
  exists threadId task error, a = WorkerThread.TASK_ERROR threadId task error.

End PoolSpec.

(** ** Vocabulary for PGM files *)

Module FileSpec.
Import Js PgmUtils.

(** Every character of the string passes the test. *)
Fixpoint all_chars (P : ascii -> bool) (s : string) : bool :=
  match s with
  | EmptyString => true
  | String c s' => P c && all_chars P s'
  end.

Definition is_digit (c : ascii) : bool :=
  ((48 <=? nat_of_ascii c) && (nat_of_ascii c <=? 57))%nat.

(** A 7-bit character other than the line feed: what a comment of a PGM
    header is made of. *)
Definition plain (c : ascii) : bool :=
  ((nat_of_ascii c <? 128) && negb (nat_of_ascii c =? 10))%nat.

Definition ascii7 (c : ascii) : bool := (nat_of_ascii c <? 128)%nat.

(** No white space. *)
Definition solid (c : ascii) : bool := negb (is_white_space c).

(** A character of a printed integer. *)
Definition num_char (c : ascii) : bool := is_digit c || Ascii.eqb c "-"%char.

(** An integer that a JavaScript number represents exactly. *)
Definition safe_integer (z : Z) : Prop := - 2 ^ 53 < z < 2 ^ 53.

(** Comment lines of a header: [#], the text, a line feed. *)
Fixpoint comment_lines (comments : list string) : string :=
  match comments with
  | [] => EmptyString
  | c :: cs => String "#"%char (String.append c (String "010"%char (comment_lines cs)))
  end.

(** A PGM header with comment lines after the magic number. *)
Definition header_with (comments : list string) (w h maxv : Z) : string :=
  String.append "P5"
    (String "010"%char
       (String.append (comment_lines comments)
          (String.append (PgmFile.Number_toString w)
             (String " "%char
                (String.append (PgmFile.Number_toString h)
                   (String "010"%char
                      (String.append (PgmFile.Number_toString maxv)
                         (String "010"%char EmptyString)))))))).

(** The two prefixes [parseInt] strips: a sign, and [0x] or [0X]. *)
Definition strip_sign (s : string) : Z * string :=
  match s with
  | String "-"%char s' => (-1, s')
  | String "+"%char s' => (1, s')
  | _ => (1, s)
  end.

Definition strip_prefix (s : string) : Z * string :=
  match s with
  | String "0"%char (String "x"%char s') => (16, s')
  | String "0"%char (String "X"%char s') => (16, s')
  | _ => (10, s)
  end.

End FileSpec.

(** ** Typed arrays, stores and loops *)

Section TypedArrays.
Import Js.

Lemma in_range_spec (lo hi j : Z) :
  reflect (lo <= j < hi) ((lo <=? j) && (j <? hi)).
Proof.
  destruct (Z.leb_spec0 lo j), (Z.ltb_spec0 j hi); constructor; lia.
Qed.

Lemma ta_get_set_eq (a : typed_array) (i : Z) (v : num) :
  ta_get (ta_set a i v) i =
  match ta_get a i with Some _ => Some (ToUint8 v) | None => None end.
Proof.
  unfold ta_get, ta_set. destruct (i <? 0) eqn:Hi; [reflexivity|].
  destruct (a !! Z.to_nat i) eqn:Hl.
  - apply list_lookup_insert_eq. eapply lookup_lt_Some; eassumption.
  - apply lookup_ge_None. rewrite length_insert. apply lookup_ge_None. assumption.
Qed.

Lemma ta_get_set_ne (a : typed_array) (i j : Z) (v : num) :
  i <> j -> ta_get (ta_set a i v) j = ta_get a j.
Proof.
  intros Hne. unfold ta_get, ta_set.
  destruct (j <? 0) eqn:Hj; [reflexivity|].
  destruct (i <? 0) eqn:Hi; [reflexivity|].
  apply list_lookup_insert_ne. lia.
Qed.

Lemma length_ta_set (a : typed_array) (i : Z) (v : num) :
  length (ta_set a i v) = length a.
Proof. unfold ta_set. destruct (i <? 0); [reflexivity|apply length_insert]. Qed.

Lemma upd_eq (st : store) (r : ref) (a : typed_array) : upd st r a r = a.
Proof. unfold upd. rewrite Nat.eqb_refl. reflexivity. Qed.

Lemma upd_ne (st : store) (r r' : ref) (a : typed_array) :
  r' <> r -> upd st r a r' = st r'.
Proof.
  intros Hne. unfold upd. destruct (Nat.eqb_spec r' r); [contradiction|reflexivity].
Qed.

Lemma ta_get_Some_bytes (a : typed_array) (i z : Z) :
  Spec.bytes a -> ta_get a i = Some z -> 0 <= z <= 255.
Proof.
  unfold Spec.bytes, ta_get. intros Hb Hg.
  destruct (i <? 0); [discriminate|].
  rewrite Forall_lookup in Hb. exact (Hb _ _ Hg).
Qed.

Lemma ta_get_is_Some (a : typed_array) (i : Z) :
  is_Some (ta_get a i) <-> 0 <= i < Z.of_nat (length a).
Proof.
  unfold ta_get. destruct (Z.ltb_spec i 0).
  - split; [intros [x Hx]; discriminate|lia].
  - rewrite lookup_lt_is_Some. lia.
Qed.

Import Spec.

Variables (f : num -> num) (inp out : ref).

Lemma pointwise_other (i : Z) (st : store) (r : ref) :
  r <> out -> pointwise f inp out i st r = st r.
Proof. intros. unfold pointwise. apply upd_ne. assumption. Qed.

Lemma pointwise_get_ne (i j : Z) (st : store) (r : ref) :
  i <> j -> ta_get (pointwise f inp out i st r) j = ta_get (st r) j.
Proof.
  intros Hne. unfold pointwise, upd.
  destruct (Nat.eqb_spec r out) as [->|]; [|reflexivity].
  apply ta_get_set_ne. assumption.
Qed.

Lemma for_loop_other (n : nat) :
  forall (start : Z) (st : store) (r : ref),
    r <> out -> for_loop n start (pointwise f inp out) st r = st r.
Proof.
  induction n as [|n IH]; intros start st r Hr; simpl; [reflexivity|].
  rewrite IH by assumption. apply pointwise_other. assumption.
Qed.

Lemma for_loop_length (n : nat) :
  forall (start : Z) (st : store) (r : ref),
    length (for_loop n start (pointwise f inp out) st r) = length (st r).
Proof.
  induction n as [|n IH]; intros start st r; simpl; [reflexivity|].
  rewrite IH. unfold pointwise, upd.
  destruct (Nat.eqb r out) eqn:E; [|reflexivity].
  apply Nat.eqb_eq in E. subst r. apply length_ta_set.
Qed.

(** The loop, element by element. The input may be the output array: the
    element read at [j] has not been written before iteration [j]. *)
Lemma for_loop_get (n : nat) :
  forall (start : Z) (st : store) (j : Z),
    ta_get (for_loop n start (pointwise f inp out) st out) j =
    if (start <=? j) && (j <? start + Z.of_nat n)
    then match ta_get (st out) j with
         | Some _ => Some (ToUint8 (f (of_read (ta_get (st inp) j))))
         | None => None
         end
    else ta_get (st out) j.
Proof.
  induction n as [|n IH]; intros start st j.
  - cbn [for_loop]. destruct (in_range_spec start (start + Z.of_nat 0) j); [lia|reflexivity].
  - cbn [for_loop]. rewrite IH.
    destruct (in_range_spec (start + 1) (start + 1 + Z.of_nat n) j) as [Hin|Hout];
      destruct (in_range_spec start (start + Z.of_nat (S n)) j) as [Hin'|Hout'];
      try lia.
    + rewrite !pointwise_get_ne by lia. reflexivity.
    + assert (j = start) as -> by lia.
      unfold pointwise at 1. rewrite upd_eq. apply ta_get_set_eq.
    + apply pointwise_get_ne. lia.
Qed.

Lemma for_range_writes_only (lo hi : Z) (st : store) :
  writes_only st (for_range lo hi (pointwise f inp out) st) out lo hi.
Proof.
  unfold writes_only, for_range. split; [|split].
  - intros r Hr. apply for_loop_other. assumption.
  - apply for_loop_length.
  - intros j Hj. rewrite for_loop_get.
    destruct (in_range_spec lo (lo + Z.of_nat (Z.to_nat (hi - lo))) j);
      [lia|reflexivity].
Qed.

Lemma for_range_get (lo hi : Z) (st : store) (j : Z) :
  lo <= j < hi ->
  ta_get (for_range lo hi (pointwise f inp out) st out) j =
  match ta_get (st out) j with
  | Some _ => Some (ToUint8 (f (of_read (ta_get (st inp) j))))
  | None => None
  end.
Proof.
  intros Hj. unfold for_range. rewrite for_loop_get.
  destruct (in_range_spec lo (lo + Z.of_nat (Z.to_nat (hi - lo))) j);
    [reflexivity|lia].
Qed.

End TypedArrays.

(** ** The block transforms of filters.js *)

Section FilterProofs.
Import Js Spec.

Lemma for_loop_ext {St : Type} (body body' : Z -> St -> St) :
  (forall i s, body i s = body' i s) ->
  forall (n : nat) (start : Z) (s : St),
    for_loop n start body s = for_loop n start body' s.
Proof.
  intros Hext. induction n as [|n IH]; intros start s; simpl; [reflexivity|].
  rewrite Hext. apply IH.
Qed.

Lemma negative_loop (inp out : ref) (maxValue lo hi : Z) (st : store) :
  for_range lo hi (Filters.negative_step inp out maxValue) st =
  for_range lo hi (pointwise (negative_pixel maxValue) inp out) st.
Proof. reflexivity. Qed.

Lemma slice_loop (inp out : ref) (a b : num) (lo hi : Z) (st : store) :
  for_range lo hi (Filters.slice_step inp out a b) st =
  for_range lo hi (pointwise (slice_pixel a b) inp out) st.
Proof.
  apply for_loop_ext. intros i s.
  unfold Filters.slice_step, pointwise, slice_pixel.
  destruct (le _ a || ge _ b); reflexivity.
Qed.

Lemma slice_pseudo_loop (inp out : ref) (a b : num) (lo hi : Z) (st : store) :
  for_range lo hi (FiltersPseudo.slice_step inp out a b) st =
  for_range lo hi (pointwise (slice_pixel_pseudo a b) inp out) st.
Proof.
  apply for_loop_ext. intros i s.
  unfold FiltersPseudo.slice_step, pointwise, slice_pixel_pseudo.
  destruct (le _ a || ge _ b); reflexivity.
Qed.

(** What [applyNegativeBlock] leaves at an index of the block. *)
Lemma applyNegativeBlock_get st inp out width rowStart rowEnd maxValue j :
  rowStart * width <= j < rowEnd * width ->
  ta_get (fst (Filters.applyNegativeBlock st inp out width rowStart rowEnd maxValue) out) j =
  match ta_get (st out) j with
  | Some _ => Some (ToUint8 (negative_pixel maxValue (of_read (ta_get (st inp) j))))
  | None => None
  end.
Proof.
  intros Hj. unfold Filters.applyNegativeBlock. cbn [fst].
  rewrite negative_loop. apply for_range_get. assumption.
Qed.

Lemma applyNegativeBlock_frame st inp out width rowStart rowEnd maxValue :
  writes_only st
    (fst (Filters.applyNegativeBlock st inp out width rowStart rowEnd maxValue))
    out (rowStart * width) (rowEnd * width).
Proof.
  unfold Filters.applyNegativeBlock. cbn [fst].
  rewrite negative_loop. apply for_range_writes_only.
Qed.

(** What [applySliceBlock] of [src/filters.js] leaves at an index of the
    block: 0 outside the band, 255 inside. *)
Lemma applySliceBlock_get st inp out width rowStart rowEnd a b j :
  rowStart * width <= j < rowEnd * width ->
  ta_get (fst (Filters.applySliceBlock st inp out width rowStart rowEnd a b) out) j =
  match ta_get (st out) j with
  | Some _ => Some (ToUint8 (slice_pixel a b (of_read (ta_get (st inp) j))))
  | None => None
  end.
Proof.
  intros Hj. unfold Filters.applySliceBlock. cbn [fst].
  rewrite slice_loop. apply for_range_get. assumption.
Qed.

Lemma applySliceBlock_frame st inp out width rowStart rowEnd a b :
  writes_only st
    (fst (Filters.applySliceBlock st inp out width rowStart rowEnd a b))
    out (rowStart * width) (rowEnd * width).
Proof.
  unfold Filters.applySliceBlock. cbn [fst].
  rewrite slice_loop. apply for_range_writes_only.
Qed.

(** The pseudo-code copy of [applySliceBlock] does what the header comment
    of [filters.js] describes: 255 where the input is at most [low] or at
    least [high], the input byte elsewhere. *)
Lemma applySliceBlock_pseudo_get st inp out width rowStart rowEnd (low high : Z) j z :
  rowStart * width <= j < rowEnd * width ->
  bytes (st inp) ->
  ta_get (st inp) j = Some z ->
  is_Some (ta_get (st out) j) ->
  ta_get (fst (FiltersPseudo.applySliceBlock st inp out width rowStart rowEnd
                 (Num low) (Num high)) out) j =
  Some (if (z <=? low) || (high <=? z) then 255 else z).
Proof.
  intros Hj Hb Hz [y Hy]. unfold FiltersPseudo.applySliceBlock. cbn [fst].
  rewrite slice_pseudo_loop, for_range_get by assumption.
  rewrite Hy, Hz. cbn [of_read]. unfold slice_pixel_pseudo, le, ge, le.
  pose proof (ta_get_Some_bytes _ _ _ Hb Hz) as Hr.
  destruct ((z <=? low) || (high <=? z)); cbn [ToUint8].
  - reflexivity.
  - rewrite Z.mod_small by lia. reflexivity.
Qed.

Lemma applyNegativeBlock_length st inp out width rowStart rowEnd maxValue r :
  length (fst (Filters.applyNegativeBlock st inp out width rowStart rowEnd maxValue) r) =
  length (st r).
Proof.
  unfold Filters.applyNegativeBlock. cbn [fst].
  rewrite negative_loop. apply for_loop_length.
Qed.

Lemma negative_pixel_255 (r : Z) :
  0 <= r <= 255 -> ToUint8 (negative_pixel 255 (Num r)) = 255 - r.
Proof.
  intros Hr. unfold negative_pixel. cbn [add sub ToUint8].
  rewrite Z.mod_small by lia. lia.
Qed.

(** C1, as the code of [src/filters.js] has it. On the raster of the
    end-to-end scenario with [low = 50] and [high = 100],
    [applySliceBlock] writes 0 where the input is at most 50 or at least
    100 and 255 elsewhere, although the header comment of the function (and
    the specification) asks for 255 and the input byte: pixel 0 (input 10)
    becomes 0 instead of 255, pixel 5 (input 60) becomes 255 instead of
    60. *)
Theorem applySliceBlock_scenario_binarises :
  fst (Filters.applySliceBlock scenario_store in_ref out_ref 4 0 4 (Num 50) (Num 100)) out_ref =
    [0; 0; 0; 0; 0; 255; 255; 255; 255; 0; 0; 0; 0; 0; 0; 0] /\
  fst (FiltersPseudo.applySliceBlock scenario_store in_ref out_ref 4 0 4 (Num 50) (Num 100)) out_ref =
    [255; 255; 255; 255; 255; 60; 70; 80; 90; 255; 255; 255; 255; 255; 255; 255].
Proof. split; vm_compute; reflexivity. Qed.

(** C9. On buffers of one size, with bytes in the input, the negative
    transform with [maxValue = 255] applied to the input and then to its
    own output gives back the input at every pixel index of the row range.
    The three buffers may be any arrays of the store, also the same one. *)
Theorem negative_twice_restores_input st inp mid out width rowStart rowEnd :
  bytes (st inp) ->
  length (st mid) = length (st inp) ->
  length (st out) = length (st inp) ->
  let st1 := fst (Filters.applyNegativeBlock st inp mid width rowStart rowEnd 255) in
  let st2 := fst (Filters.applyNegativeBlock st1 mid out width rowStart rowEnd 255) in
  forall j : Z,
    rowStart * width <= j < rowEnd * width ->
    ta_get (st2 out) j = ta_get (st inp) j.
Proof.
  intros Hb Hmid Hout st1 st2 j Hj. subst st2.
  rewrite applyNegativeBlock_get by assumption.
  assert (Hlen1 : length (st1 out) = length (st inp)).
  { subst st1. rewrite applyNegativeBlock_length. assumption. }
  assert (Hget1 : ta_get (st1 mid) j =
                  match ta_get (st mid) j with
                  | Some _ => Some (ToUint8 (negative_pixel 255 (of_read (ta_get (st inp) j))))
                  | None => None
                  end).
  { subst st1. apply applyNegativeBlock_get. assumption. }
  destruct (ta_get (st inp) j) as [r|] eqn:Hin.
  - assert (Hbound : 0 <= j < Z.of_nat (length (st inp))).
    { apply ta_get_is_Some. rewrite Hin. eexists; reflexivity. }
    destruct (proj2 (ta_get_is_Some (st1 out) j)) as [y Hy]; [lia|].
    destruct (proj2 (ta_get_is_Some (st mid) j)) as [y' Hy']; [lia|].
    rewrite Hy, Hget1, Hy'. cbn [of_read].
    pose proof (ta_get_Some_bytes _ _ _ Hb Hin) as Hr.
    rewrite (negative_pixel_255 r) by assumption.
    rewrite negative_pixel_255 by lia. f_equal. lia.
  - destruct (ta_get (st1 out) j) as [y|] eqn:Hy; [|reflexivity].
    assert (is_Some (ta_get (st1 out) j)) as Hs by (rewrite Hy; eexists; reflexivity).
    apply ta_get_is_Some in Hs.
    assert (is_Some (ta_get (st inp) j)) as [z Hz] by (apply ta_get_is_Some; lia).
    congruence.
Qed.

Lemma negative_twice_restores_input_witness :
  ta_get (fst (Filters.applyNegativeBlock
                 (fst (Filters.applyNegativeBlock scenario_store in_ref out_ref 4 0 4 255))
                 out_ref out2_ref 4 0 4 255) out2_ref) 5 =
  ta_get (scenario_store in_ref) 5.
Proof.
  apply (negative_twice_restores_input scenario_store in_ref out_ref out2_ref 4 0 4).
  - unfold bytes. vm_compute. repeat constructor; discriminate.
  - reflexivity.
  - reflexivity.
  - lia.
Defined.

(** C10, as the code has it. A call of [applyNegativeBlock] or
    [applySliceBlock] with [0 <= rowStart <= rowEnd] writes only the
    elements [rowStart*width <= j < rowEnd*width] of the output array: every
    other element of it and every other array of the store are as before,
    and the value returned is [(rowEnd - rowStart) * width]. The input
    array is unchanged when it is another array than the output one; the
    functions do not check that, and a caller that passes one array as
    both gets its input overwritten. *)
Theorem block_transforms_write_only_their_rows
    st inp out width rowStart rowEnd maxValue limite_a limite_b :
  0 <= rowStart <= rowEnd ->
  let neg := Filters.applyNegativeBlock st inp out width rowStart rowEnd maxValue in
  let sli := Filters.applySliceBlock st inp out width rowStart rowEnd limite_a limite_b in
  (writes_only st (fst neg) out (rowStart * width) (rowEnd * width) /\
   (inp <> out -> fst neg inp = st inp) /\
   snd neg = (rowEnd - rowStart) * width) /\
  (writes_only st (fst sli) out (rowStart * width) (rowEnd * width) /\
   (inp <> out -> fst sli inp = st inp) /\
   snd sli = (rowEnd - rowStart) * width).
Proof.
  intros Hrows neg sli.
  pose proof (applyNegativeBlock_frame st inp out width rowStart rowEnd maxValue) as Hn.
  pose proof (applySliceBlock_frame st inp out width rowStart rowEnd limite_a limite_b) as Hs.
  fold neg in Hn. fold sli in Hs.
  split; (split; [assumption|split]).
  - intros Hne. apply Hn. assumption.
  - subst neg. cbn [snd Filters.applyNegativeBlock]. lia.
  - intros Hne. apply Hs. assumption.
  - subst sli. cbn [snd Filters.applySliceBlock]. lia.
Qed.

Lemma block_transforms_write_only_their_rows_witness :
  let neg := Filters.applyNegativeBlock scenario_store in_ref out_ref 4 0 2 255 in
  let sli := Filters.applySliceBlock scenario_store in_ref out_ref 4 0 2 (Num 50) (Num 100) in
  (writes_only scenario_store (fst neg) out_ref (0 * 4) (2 * 4) /\
   fst neg in_ref = scenario_store in_ref /\
   snd neg = (2 - 0) * 4) /\
  (writes_only scenario_store (fst sli) out_ref (0 * 4) (2 * 4) /\
   fst sli in_ref = scenario_store in_ref /\
   snd sli = (2 - 0) * 4).
Proof.
  destruct (block_transforms_write_only_their_rows
              scenario_store in_ref out_ref 4 0 2 255 (Num 50) (Num 100) ltac:(lia))
    as [(Wn & In & Rn) (Ws & Is & Rs)].
  split; (split; [assumption|split; [|assumption]]).
  - apply In. discriminate.
  - apply Is. discriminate.
Defined.

(** Passing one array as input and as output is the only way for a block
    transform to change its input: the negative of the scenario raster in
    place. *)
Example applyNegativeBlock_in_place :
  fst (Filters.applyNegativeBlock scenario_store in_ref in_ref 4 0 1 255) in_ref =
  [245; 235; 225; 215; 50; 60; 70; 80; 90; 100; 110; 120; 130; 140; 150; 160].
Proof. vm_compute. reflexivity. Qed.

(** C10, as stated, fails for a call that is given one array as input and
    as output: with [rowStart = 0] and [rowEnd = 1] on the scenario raster,
    the first row of the input buffer is overwritten, by its negative and
    by its slice. *)
Lemma block_transform_in_place_changes_input :
  let neg := Filters.applyNegativeBlock scenario_store in_ref in_ref 4 0 1 255 in
  let sli := Filters.applySliceBlock scenario_store in_ref in_ref 4 0 1 (Num 50) (Num 100) in
  0 <= 0 <= 1 /\
  scenario_store in_ref =
    [10; 20; 30; 40; 50; 60; 70; 80; 90; 100; 110; 120; 130; 140; 150; 160] /\
  fst neg in_ref =
    [245; 235; 225; 215; 50; 60; 70; 80; 90; 100; 110; 120; 130; 140; 150; 160] /\
  fst sli in_ref =
    [0; 0; 0; 0; 50; 60; 70; 80; 90; 100; 110; 120; 130; 140; 150; 160] /\
  fst neg in_ref <> scenario_store in_ref /\
  fst sli in_ref <> scenario_store in_ref.
Proof.
  cbv zeta. split; [lia|]. split; [reflexivity|].
  split; [vm_compute; reflexivity|]. split; [vm_compute; reflexivity|].
  split; vm_compute; discriminate.
Qed.

End FilterProofs.

(** ** The wire form of the header *)

Section HeaderProofs.
Import Js Spec PgmUtils.

(** The four bytes stored by [writeInt32LE] read back as the value. *)
Lemma int32_bytes (v : Z) :
  int32 v ->
  let v1 := ushr v 8 in
  let v2 := ushr v1 8 in
  let v3 := ushr v2 8 in
  v mod 256 + (v1 mod 256) * 2 ^ 8 + (v2 mod 256) * 2 ^ 16 + shl (v3 mod 256) 24 = v.
Proof.
  intros Hv. unfold int32 in Hv. cbv zeta.
  unfold ushr, shl, ToInt32, ToUint32.
  rewrite !Z.shiftr_div_pow2, Z.shiftl_mul_pow2 by lia.
  change (2 ^ 32) with 4294967296. change (2 ^ 31) with 2147483648 in *.
  change (2 ^ 8) with 256. change (2 ^ 16) with 65536.
  change (2 ^ 24) with 16777216.
  match goal with |- context [if ?c then _ else _] => destruct c eqn:E end;
    [apply Z.ltb_lt in E|apply Z.ltb_ge in E];
    Z.div_mod_to_equations; lia.
Qed.

Lemma writeInt32LE_inv buf v off buf' :
  writeInt32LE buf v off = Some buf' ->
  int32 v /\ 0 <= off /\ off + 4 <= Z.of_nat (length buf) /\
  buf' = ta_set (ta_set (ta_set (ta_set buf off (Num v))
                   (off + 1) (Num (ushr v 8)))
                   (off + 2) (Num (ushr (ushr v 8) 8)))
                   (off + 3) (Num (ushr (ushr (ushr v 8) 8) 8)).
Proof.
  unfold writeInt32LE, int32. intros Hw.
  destruct ((v <? - 2 ^ 31) || (2 ^ 31 - 1 <? v)) eqn:Hrange; [discriminate|].
  apply orb_false_iff in Hrange. destruct Hrange as [H1 H2].
  apply Z.ltb_ge in H1, H2.
  destruct (ta_get buf off) eqn:Hfirst; [|discriminate].
  destruct (ta_get buf (off + 3)) eqn:Hlast; [|discriminate].
  assert (is_Some (ta_get buf off)) as Hs1 by (rewrite Hfirst; eexists; reflexivity).
  assert (is_Some (ta_get buf (off + 3))) as Hs2 by (rewrite Hlast; eexists; reflexivity).
  apply ta_get_is_Some in Hs1, Hs2.
  injection Hw as Hw. subst buf'. repeat split; lia.
Qed.

Lemma writeInt32LE_defined buf v off :
  int32 v -> 0 <= off -> off + 4 <= Z.of_nat (length buf) ->
  exists buf', writeInt32LE buf v off = Some buf' /\ length buf' = length buf.
Proof.
  unfold int32. intros Hv Hoff Hlen. unfold writeInt32LE.
  replace ((v <? - 2 ^ 31) || (2 ^ 31 - 1 <? v)) with false
    by (symmetry; apply orb_false_iff; split; apply Z.ltb_ge; lia).
  destruct (proj2 (ta_get_is_Some buf off)) as [x ->]; [lia|].
  destruct (proj2 (ta_get_is_Some buf (off + 3))) as [y ->]; [lia|].
  eexists. split; [reflexivity|].
  rewrite !length_ta_set. reflexivity.
Qed.

Lemma writeInt32LE_get_other buf v off buf' j :
  writeInt32LE buf v off = Some buf' ->
  ~ (off <= j < off + 4) ->
  ta_get buf' j = ta_get buf j.
Proof.
  intros Hw Hj. apply writeInt32LE_inv in Hw as (_ & _ & _ & ->).
  rewrite !ta_get_set_ne by lia. reflexivity.
Qed.

Lemma writeInt32LE_read_same buf v off buf' :
  writeInt32LE buf v off = Some buf' -> readInt32LE buf' off = Some v.
Proof.
  intros Hw. apply writeInt32LE_inv in Hw as (Hv & Hoff & Hlen & ->).
  assert (Hin : forall k, 0 <= k < 4 -> is_Some (ta_get buf (off + k))).
  { intros k Hk. apply ta_get_is_Some. lia. }
  destruct (Hin 0) as [x0 H0]; [lia|]. rewrite Z.add_0_r in H0.
  destruct (Hin 1) as [x1 H1]; [lia|].
  destruct (Hin 2) as [x2 H2]; [lia|].
  destruct (Hin 3) as [x3 H3]; [lia|].
  set (b1 := ta_set buf off (Num v)).
  set (b2 := ta_set b1 (off + 1) (Num (ushr v 8))).
  set (b3 := ta_set b2 (off + 2) (Num (ushr (ushr v 8) 8))).
  set (b4 := ta_set b3 (off + 3) (Num (ushr (ushr (ushr v 8) 8) 8))).
  assert (G0 : ta_get b4 off = Some (ToUint8 (Num v))).
  { subst b4 b3 b2 b1. rewrite !ta_get_set_ne by lia.
    rewrite ta_get_set_eq, H0. reflexivity. }
  assert (G1 : ta_get b4 (off + 1) = Some (ToUint8 (Num (ushr v 8)))).
  { subst b4 b3 b2. rewrite !ta_get_set_ne by lia.
    rewrite ta_get_set_eq. subst b1. rewrite ta_get_set_ne, H1 by lia. reflexivity. }
  assert (G2 : ta_get b4 (off + 2) = Some (ToUint8 (Num (ushr (ushr v 8) 8)))).
  { subst b4 b3. rewrite !ta_get_set_ne by lia.
    rewrite ta_get_set_eq. subst b2 b1. rewrite !ta_get_set_ne, H2 by lia. reflexivity. }
  assert (G3 : ta_get b4 (off + 3) = Some (ToUint8 (Num (ushr (ushr (ushr v 8) 8) 8)))).
  { subst b4. rewrite ta_get_set_eq. subst b3 b2 b1.
    rewrite !ta_get_set_ne, H3 by lia. reflexivity. }
  unfold readInt32LE. rewrite G0, G1, G2, G3.
  cbn [ToUint8]. f_equal. apply int32_bytes. assumption.
Qed.

Lemma writeInt32LE_read_other buf v off buf' o :
  writeInt32LE buf v off = Some buf' ->
  o + 4 <= off \/ off + 4 <= o ->
  readInt32LE buf' o = readInt32LE buf o.
Proof.
  intros Hw Ho. unfold readInt32LE.
  rewrite !(writeInt32LE_get_other _ _ _ _ _ Hw) by lia. reflexivity.
Qed.

(** C5. A header whose six fields are 32-bit signed integers serialises
    into a buffer of 24 bytes, and [fromBuffer] reads the same six fields
    back from it. *)
Theorem header_roundtrip (header : Header.t) :
  int32 (Header.w header) -> int32 (Header.h header) -> int32 (Header.maxv header) ->
  int32 (Header.mode header) -> int32 (Header.t1 header) -> int32 (Header.t2 header) ->
  exists buffer,
    Header.toBuffer header = Some buffer /\
    length buffer = 24%nat /\
    Header.fromBuffer buffer = Some header.
Proof.
  intros Hw Hh Hmaxv Hmode Ht1 Ht2. unfold Header.toBuffer.
  destruct (writeInt32LE_defined (Buffer_alloc 24) (Header.w header) 0) as (b1 & E1 & L1);
    [assumption|lia|vm_compute; discriminate|].
  assert (length b1 = 24%nat) as L1' by (rewrite L1; reflexivity).
  destruct (writeInt32LE_defined b1 (Header.h header) 4) as (b2 & E2 & L2);
    [assumption|lia|lia|].
  destruct (writeInt32LE_defined b2 (Header.maxv header) 8) as (b3 & E3 & L3);
    [assumption|lia|lia|].
  destruct (writeInt32LE_defined b3 (Header.mode header) 12) as (b4 & E4 & L4);
    [assumption|lia|lia|].
  destruct (writeInt32LE_defined b4 (Header.t1 header) 16) as (b5 & E5 & L5);
    [assumption|lia|lia|].
  destruct (writeInt32LE_defined b5 (Header.t2 header) 20) as (b6 & E6 & L6);
    [assumption|lia|lia|].
  exists b6. rewrite E1. cbn [mbind option_bind]. rewrite E2. cbn [mbind option_bind].
  rewrite E3. cbn [mbind option_bind]. rewrite E4. cbn [mbind option_bind].
  rewrite E5. cbn [mbind option_bind]. rewrite E6. cbn [mbind option_bind].
  split; [reflexivity|]. split; [lia|].
  unfold Header.fromBuffer.
  rewrite (writeInt32LE_read_other _ _ _ _ 0 E6), (writeInt32LE_read_other _ _ _ _ 0 E5),
    (writeInt32LE_read_other _ _ _ _ 0 E4), (writeInt32LE_read_other _ _ _ _ 0 E3),
    (writeInt32LE_read_other _ _ _ _ 0 E2), (writeInt32LE_read_same _ _ _ _ E1) by lia.
  cbn [mbind option_bind].
  rewrite (writeInt32LE_read_other _ _ _ _ 4 E6), (writeInt32LE_read_other _ _ _ _ 4 E5),
    (writeInt32LE_read_other _ _ _ _ 4 E4), (writeInt32LE_read_other _ _ _ _ 4 E3),
    (writeInt32LE_read_same _ _ _ _ E2) by lia.
  cbn [mbind option_bind].
  rewrite (writeInt32LE_read_other _ _ _ _ 8 E6), (writeInt32LE_read_other _ _ _ _ 8 E5),
    (writeInt32LE_read_other _ _ _ _ 8 E4), (writeInt32LE_read_same _ _ _ _ E3) by lia.
  cbn [mbind option_bind].
  rewrite (writeInt32LE_read_other _ _ _ _ 12 E6), (writeInt32LE_read_other _ _ _ _ 12 E5),
    (writeInt32LE_read_same _ _ _ _ E4) by lia.
  cbn [mbind option_bind].
  rewrite (writeInt32LE_read_other _ _ _ _ 16 E6), (writeInt32LE_read_same _ _ _ _ E5) by lia.
  cbn [mbind option_bind].
  rewrite (writeInt32LE_read_same _ _ _ _ E6).
  cbn [mbind option_bind]. destruct header; reflexivity.
Qed.

Lemma header_roundtrip_witness :
  exists buffer,
    Header.toBuffer (Header.mk 640 480 255 1 50 (-2)) = Some buffer /\
    length buffer = 24%nat /\
    Header.fromBuffer buffer = Some (Header.mk 640 480 255 1 50 (-2)).
Proof.
  apply (header_roundtrip (Header.mk 640 480 255 1 50 (-2)));
    unfold int32; simpl; lia.
Defined.

Example toBuffer_little_endian :
  Header.toBuffer (Header.mk 640 480 255 1 50 (-2)) =
  Some [128; 2; 0; 0;  224; 1; 0; 0;  255; 0; 0; 0;
        1; 0; 0; 0;  50; 0; 0; 0;  254; 255; 255; 255].
Proof. vm_compute. reflexivity. Qed.

Lemma readInt32LE_defined buf off :
  0 <= off -> off + 4 <= Z.of_nat (length buf) -> is_Some (readInt32LE buf off).
Proof.
  intros Hoff Hlen. unfold readInt32LE.
  destruct (proj2 (ta_get_is_Some buf off)) as [x0 ->]; [lia|].
  destruct (proj2 (ta_get_is_Some buf (off + 3))) as [x3 ->]; [lia|].
  destruct (proj2 (ta_get_is_Some buf (off + 1))) as [x1 ->]; [lia|].
  destruct (proj2 (ta_get_is_Some buf (off + 2))) as [x2 ->]; [lia|].
  eexists; reflexivity.
Qed.

Lemma fromBuffer_defined buf :
  length buf = 24%nat -> is_Some (Header.fromBuffer buf).
Proof.
  intros Hlen. unfold Header.fromBuffer.
  destruct (readInt32LE_defined buf 0) as [x0 ->]; [lia|lia|].
  destruct (readInt32LE_defined buf 4) as [x1 ->]; [lia|lia|].
  destruct (readInt32LE_defined buf 8) as [x2 ->]; [lia|lia|].
  destruct (readInt32LE_defined buf 12) as [x3 ->]; [lia|lia|].
  destruct (readInt32LE_defined buf 16) as [x4 ->]; [lia|lia|].
  destruct (readInt32LE_defined buf 20) as [x5 ->]; [lia|lia|].
  eexists; reflexivity.
Qed.

End HeaderProofs.

(** ** The receive step of worker.js *)

Section ReceiveProofs.
Import Js Spec PgmUtils.

Lemma Buffer_slice_head (a : typed_array) (n : Z) :
  0 <= n <= Z.of_nat (length a) -> Buffer_slice a 0 n = take (Z.to_nat n) a.
Proof.
  intros Hn. unfold Buffer_slice, slice_index.
  change (0 <? 0) with false. cbv iota.
  destruct (Z.ltb_spec n 0); [lia|].
  rewrite Z.min_l, Z.min_l by lia. rewrite Z.sub_0_r. reflexivity.
Qed.

(** The slice taken for the pixels: the first [size] bytes of the payload
    when there are that many, and otherwise fewer than [size] bytes or,
    for a negative [size], a number of bytes that cannot equal it. *)
Lemma Buffer_slice_payload (a : typed_array) (size : Z) :
  24 <= Z.of_nat (length a) ->
  let data := Buffer_slice a 24 (24 + size) in
  if (0 <=? size) && (size <=? Z.of_nat (length (drop 24 a)))
  then data = take (Z.to_nat size) (drop 24 a) /\ Z.of_nat (length data) = size
  else Z.of_nat (length data) <> size.
Proof.
  intros Hlen data. subst data. unfold Buffer_slice.
  assert (Hb : slice_index (Z.of_nat (length a)) 24 = 24).
  { unfold slice_index. change (24 <? 0) with false. cbv iota. lia. }
  rewrite Hb. change (Z.to_nat 24) with 24%nat.
  rewrite length_take, !length_drop.
  destruct (Z.leb_spec 0 size) as [Hpos|Hneg]; cbn [andb].
  - destruct (Z.leb_spec size (Z.of_nat (length a - 24))) as [Hfit|Hshort].
    + assert (He : slice_index (Z.of_nat (length a)) (24 + size) = 24 + size).
      { unfold slice_index. destruct (Z.ltb_spec (24 + size) 0); lia. }
      rewrite He. replace (24 + size - 24) with size by lia.
      split; [reflexivity|lia].
    + unfold slice_index. destruct (Z.ltb_spec (24 + size) 0); lia.
  - lia.
Qed.

(** C4, as the code has it. A stream of at least 24 bytes has a header;
    the receive step rejects it exactly when fewer than [w * h] bytes
    follow the header (or [w * h] is negative), and otherwise resolves
    with the raster made of the header fields and the first [w * h] bytes
    of the payload: bytes after them are dropped, not rejected. *)
Theorem receive_rejects_short_payload_only (fullBuffer : typed_array) :
  24 <= Z.of_nat (length fullBuffer) ->
  exists header,
    stream_header fullBuffer = Some header /\
    let size := Header.w header * Header.h header in
    let payload := stream_payload fullBuffer in
    match Worker.receiveImageData fullBuffer with
    | inr e =>
        (size < 0 \/ Z.of_nat (length payload) < size) /\
        exists received, e = Worker.IncompleteData size received
    | inl pgm =>
        0 <= size <= Z.of_nat (length payload) /\
        pgm = PGM.mk (Header.w header) (Header.h header) (Header.maxv header)
                (take (Z.to_nat size) payload)
    end.
Proof.
  intros Hlen. unfold stream_header, stream_payload.
  destruct (fromBuffer_defined (take 24 fullBuffer)) as [header Hh].
  { rewrite length_take. lia. }
  exists header. split; [assumption|]. cbv zeta.
  unfold Worker.receiveImageData.
  destruct (Z.ltb_spec (Z.of_nat (length fullBuffer)) 24); [lia|].
  rewrite Buffer_slice_head by lia. change (Z.to_nat 24) with 24%nat.
  rewrite Hh.
  pose proof (Buffer_slice_payload fullBuffer (Header.w header * Header.h header) Hlen) as Hp.
  cbv zeta in Hp.
  destruct (Z.leb_spec 0 (Header.w header * Header.h header)) as [Hpos|Hneg];
    [destruct (Z.leb_spec (Header.w header * Header.h header)
                 (Z.of_nat (length (drop 24 fullBuffer))))
       as [Hfit|Hshort]|]; cbn [andb] in Hp.
  - destruct Hp as [Hdata Hsize]. rewrite Hsize, Z.eqb_refl. cbn [negb].
    split; [lia|]. rewrite Hdata. reflexivity.
  - apply Z.eqb_neq in Hp. rewrite Hp. cbn [negb].
    split; [right; lia|eexists; reflexivity].
  - apply Z.eqb_neq in Hp. rewrite Hp. cbn [negb].
    split; [left; lia|eexists; reflexivity].
Qed.

Lemma receive_rejects_short_payload_only_witness :
  exists header,
    stream_header long_stream = Some header /\
    let size := Header.w header * Header.h header in
    let payload := stream_payload long_stream in
    match Worker.receiveImageData long_stream with
    | inr e =>
        (size < 0 \/ Z.of_nat (length payload) < size) /\
        exists received, e = Worker.IncompleteData size received
    | inl pgm =>
        0 <= size <= Z.of_nat (length payload) /\
        pgm = PGM.mk (Header.w header) (Header.h header) (Header.maxv header)
                (take (Z.to_nat size) payload)
    end.
Proof.
  apply (receive_rejects_short_payload_only long_stream). vm_compute. discriminate.
Defined.

(** C4, as stated, fails: a stream that carries two bytes after the header
    of a 1 x 1 raster, one more than [width * height], is accepted. *)
Lemma receive_accepts_long_payload :
  stream_header long_stream = Some (Header.mk 1 1 255 0 0 0) /\
  Z.of_nat (length (stream_payload long_stream)) <> 1 * 1 /\
  Z.of_nat (length long_stream) > 24 + 1 * 1 /\
  Worker.receiveImageData long_stream = inl (PGM.mk 1 1 255 [7]).
Proof. vm_compute. repeat split; discriminate. Qed.

End ReceiveProofs.

(** ** The partition step of worker.js *)

Section PartitionProofs.
Import Js Spec PgmUtils.

Example createTasks_4_rows_2_workers :
  Worker.createTasks 4 2 = [Task.mk 0 2; Task.mk 2 4].
Proof. reflexivity. Qed.

Example createTasks_5_rows_4_workers :
  Worker.createTasks 5 4 = [Task.mk 0 2; Task.mk 2 4; Task.mk 4 5].
Proof. reflexivity. Qed.

Lemma ceil_div_bounds (a b : Z) :
  1 <= a -> 1 <= b -> 1 <= Worker.ceil_div a b /\ a <= b * Worker.ceil_div a b.
Proof.
  intros Ha Hb. unfold Worker.ceil_div.
  pose proof (Z.div_mod (- a) b ltac:(lia)) as Hdiv.
  pose proof (Z.mod_pos_bound (- a) b ltac:(lia)) as Hmod.
  split; nia.
Qed.

Lemma contiguous_le lo hi tasks : contiguous lo hi tasks -> lo <= hi.
Proof. induction 1; lia. Qed.

Lemma contiguous_bounds lo hi tasks :
  contiguous lo hi tasks ->
  forall t, t ∈ tasks ->
    lo <= Task.row_start t /\ Task.row_start t < Task.row_end t /\ Task.row_end t <= hi.
Proof.
  induction 1 as [|mid hi tasks Hc IH Hlt]; intros t Ht.
  - inversion Ht.
  - pose proof (contiguous_le _ _ _ Hc).
    apply elem_of_app in Ht as [Ht|Ht].
    + specialize (IH t Ht). lia.
    + apply list_elem_of_singleton in Ht. subst t. cbn. lia.
Qed.

(** The rows of the tasks are the rows from [lo] to [hi]. *)
Lemma contiguous_cover lo hi tasks :
  contiguous lo hi tasks ->
  forall r, lo <= r < hi <-> exists t, t ∈ tasks /\ in_task t r.
Proof.
  induction 1 as [|mid hi tasks Hc IH Hlt]; intros r.
  - split; [lia|]. intros (t & Ht & _). inversion Ht.
  - pose proof (contiguous_le _ _ _ Hc). split.
    + intros Hr. destruct (Z.lt_ge_cases r mid) as [Hlow|Hhigh].
      * destruct (proj1 (IH r)) as (t & Ht & Hin); [lia|].
        exists t. split; [apply elem_of_app; left|]; assumption.
      * exists (Task.mk mid hi). split.
        -- apply elem_of_app. right. apply list_elem_of_singleton. reflexivity.
        -- unfold in_task. cbn. lia.
    + intros (t & Ht & Hin). apply elem_of_app in Ht as [Ht|Ht].
      * assert (lo <= r < mid) by (apply IH; exists t; split; assumption). lia.
      * apply list_elem_of_singleton in Ht. subst t. unfold in_task in Hin.
        cbn in Hin. lia.
Qed.

(** An earlier task ends before a later one starts. *)
Lemma contiguous_ordered lo hi tasks :
  contiguous lo hi tasks ->
  forall (i j : nat) t1 t2,
    (i < j)%nat -> tasks !! i = Some t1 -> tasks !! j = Some t2 ->
    Task.row_end t1 <= Task.row_start t2.
Proof.
  induction 1 as [|mid hi tasks Hc IH Hlt]; intros i j t1 t2 Hij H1 H2.
  - discriminate.
  - apply lookup_snoc_Some in H1, H2.
    destruct H2 as [[Hj H2]|[Hj H2]].
    + destruct H1 as [[Hi H1]|[Hi H1]]; [|lia].
      exact (IH i j t1 t2 Hij H1 H2).
    + subst t2. cbn. destruct H1 as [[Hi H1]|[Hi H1]]; [|lia].
      assert (t1 ∈ tasks) as Hin by (eapply list_elem_of_lookup_2; eassumption).
      pose proof (contiguous_bounds _ _ _ Hc t1 Hin). lia.
Qed.

(** The loop of [createTasks] extends a partition of the rows below
    [i * linesPerThread] to one of the rows below
    [(i + n) * linesPerThread], both cut at [height]. *)
Lemma createTasks_loop_contiguous (linesPerThread height : Z) :
  1 <= linesPerThread ->
  forall (n : nat) (i : Z) (tasks : list Task.t),
    0 <= i ->
    contiguous 0 (Z.min (i * linesPerThread) height) tasks ->
    contiguous 0 (Z.min ((i + Z.of_nat n) * linesPerThread) height)
      (for_loop n i (Worker.createTasks_step linesPerThread height) tasks).
Proof.
  intros HL. induction n as [|n IH]; intros i tasks Hi Hc.
  - cbn [for_loop]. replace (i + Z.of_nat 0) with i by lia. assumption.
  - cbn [for_loop].
    replace (i + Z.of_nat (S n)) with (i + 1 + Z.of_nat n) by lia.
    apply IH; [lia|].
    assert (Hmul : (i + 1) * linesPerThread = i * linesPerThread + linesPerThread)
      by ring.
    unfold Worker.createTasks_step.
    destruct (Z.ltb_spec (i * linesPerThread) height) as [Hlt|Hge].
    + rewrite Z.min_l in Hc by lia.
      apply contiguous_snoc; [assumption|lia].
    + rewrite Z.min_r in Hc by lia. rewrite Z.min_r by lia. assumption.
Qed.

Lemma createTasks_contiguous (height nthreads : Z) :
  1 <= height -> 1 <= nthreads ->
  contiguous 0 height (Worker.createTasks height nthreads).
Proof.
  intros Hh Hn. unfold Worker.createTasks, for_range.
  destruct (ceil_div_bounds height nthreads Hh Hn) as [HL Hcover].
  pose proof (createTasks_loop_contiguous (Worker.ceil_div height nthreads) height HL
                (Z.to_nat (nthreads - 0)) 0 [] ltac:(lia)) as Hloop.
  replace (Z.min ((0 + Z.of_nat (Z.to_nat (nthreads - 0))) *
                    Worker.ceil_div height nthreads) height)
    with height in Hloop by nia.
  apply Hloop. replace (Z.min (0 * Worker.ceil_div height nthreads) height) with 0 by lia.
  constructor.
Qed.

(** C2. For a height and a worker count of at least 1, the tasks of
    [createTasks] cover exactly the rows [0 <= r < height], and no row
    belongs to two of them. *)
Theorem createTasks_partitions_rows (height nthreads : Z) :
  1 <= height -> 1 <= nthreads ->
  let tasks := Worker.createTasks height nthreads in
  (forall r : Z, 0 <= r < height <-> exists t, t ∈ tasks /\ in_task t r) /\
  (forall (i j : nat) (t1 t2 : Task.t),
      i <> j -> tasks !! i = Some t1 -> tasks !! j = Some t2 ->
      forall r : Z, ~ (in_task t1 r /\ in_task t2 r)).
Proof.
  intros Hh Hn tasks.
  pose proof (createTasks_contiguous height nthreads Hh Hn) as Hc. fold tasks in Hc.
  split.
  - apply contiguous_cover. assumption.
  - intros i j t1 t2 Hij H1 H2 r [Hr1 Hr2]. unfold in_task in Hr1, Hr2.
    destruct (Nat.lt_total i j) as [Hlt|[Heq|Hgt]]; [|contradiction|].
    + pose proof (contiguous_ordered _ _ _ Hc i j t1 t2 Hlt H1 H2). lia.
    + pose proof (contiguous_ordered _ _ _ Hc j i t2 t1 Hgt H2 H1). lia.
Qed.

Lemma createTasks_partitions_rows_witness :
  let tasks := Worker.createTasks 5 4 in
  (forall r : Z, 0 <= r < 5 <-> exists t, t ∈ tasks /\ in_task t r) /\
  (forall (i j : nat) (t1 t2 : Task.t),
      i <> j -> tasks !! i = Some t1 -> tasks !! j = Some t2 ->
      forall r : Z, ~ (in_task t1 r /\ in_task t2 r)).
Proof. apply (createTasks_partitions_rows 5 4); lia. Defined.

End PartitionProofs.

(** ** The primitives of sync-utils.js *)

Section SyncProofs.
Import SyncUtils.
Import CompletionCoordinator.
Import Spec.

(** C7. [unlock] throws exactly on a mutex that is not locked, and then
    leaves the locked flag and the wait queue as they were; on a locked
    mutex it returns. It never stays pending. *)
Theorem unlock_throws_iff_unlocked (m : Mutex.t) :
  match Mutex.unlock m with
  | Thrown _ m' => Mutex._locked m = false /\ m' = m
  | Done _ _ => Mutex._locked m = true
  | Pending _ => False
  end.
Proof.
  unfold Mutex.unlock. destruct (Mutex._locked m) eqn:Hl; cbn [negb].
  - destruct (Mutex._waitQueue m); reflexivity.
  - split; reflexivity.
Qed.

Example unlock_hands_over_in_fifo_order :
  Mutex.unlock {| Mutex._locked := true; Mutex._waitQueue := [3; 5]%nat |} =
  Done (Some 3%nat) {| Mutex._locked := true; Mutex._waitQueue := [5%nat] |}.
Proof. reflexivity. Qed.

Ltac coord_simpl :=
  cbn [mutex semDone remainingTasks completed set_mutex state_of
       Mutex.unlock Mutex.lock Mutex.new Mutex._locked Mutex._waitQueue
       negb andb fst snd].

Lemma taskCompleted_step (N : Z) (sem : Semaphore.t) (j : Z) (resolve : resolver) :
  0 <= j ->
  exists woken,
    taskCompleted resolve (coordinator_after N sem j) =
    Done (woken, None) (coordinator_after N sem (j + 1)).
Proof.
  intros Hj. unfold coordinator_after.
  unfold taskCompleted, withLock, Mutex.lock, Mutex.new. cbn [mutex Mutex._locked negb].
  unfold taskCompleted_section, set_mutex.
  cbn [mutex semDone remainingTasks completed Mutex._waitQueue].
  destruct (Z.leb_spec (Z.max N 1) j) as [Hdone|Hnot];
    destruct (Z.leb_spec (Z.max N 1) (j + 1)) as [Hdone'|Hnot']; try lia.
  - rewrite andb_false_r. coord_simpl.
    eexists. do 2 f_equal; lia.
  - destruct (Z.leb_spec (N - j - 1) 0); [|lia]. coord_simpl.
    destruct (Semaphore.signal sem) as [woken sem'] eqn:Hsig. coord_simpl.
    eexists. do 2 f_equal; lia.
  - destruct (Z.leb_spec (N - j - 1) 0); [lia|]. coord_simpl.
    eexists. do 2 f_equal; lia.
Qed.

Lemma calls_from (N : Z) (sem : Semaphore.t) (callers : list resolver) :
  forall j : Z,
    0 <= j ->
    calls callers (coordinator_after N sem j) =
    coordinator_after N sem (j + Z.of_nat (length callers)).
Proof.
  induction callers as [|resolve callers IH]; intros j Hj.
  - cbn [calls fold_left length]. rewrite Z.add_0_r. reflexivity.
  - unfold calls. cbn [fold_left].
    destruct (taskCompleted_step N sem j resolve Hj) as [woken Hstep].
    rewrite Hstep. cbn [state_of].
    specialize (IH (j + 1) ltac:(lia)). unfold calls in IH. rewrite IH.
    f_equal. cbn [length]. lia.
Qed.

Lemma new_is_after_0 (N : Z) : new N = coordinator_after N (Semaphore.new 0) 0.
Proof.
  unfold new, coordinator_after.
  destruct (Z.leb_spec (Z.max N 1) 0); [lia|]. f_equal. lia.
Qed.

Lemma calls_new (N : Z) (callers : list resolver) :
  calls callers (new N) =
  coordinator_after N (Semaphore.new 0) (Z.of_nat (length callers)).
Proof. rewrite new_is_after_0, calls_from by lia. reflexivity. Qed.

(** C3, as the code has it. A coordinator created with [N] tasks, after
    any [k] calls of [taskCompleted] made one after the other: every call
    returns; [remaining] is [N - k]; the flag [completed] is false before
    the call number [max N 1] and true from that call on, so it goes from
    false to true once, on the [N]-th call when [N >= 1] and on the first
    call when [N <= 0]; and the semaphore has been signalled once from
    that call on and not at all before it (count 1, respectively 0). *)
Theorem completion_signalled_once (N : Z) (callers : list resolver) (next : resolver) :
  let k := Z.of_nat (length callers) in
  let c := calls callers (new N) in
  remainingTasks c = N - k /\
  completed c = (Z.max N 1 <=? k) /\
  Semaphore._count (semDone c) = (if Z.max N 1 <=? k then 1 else 0) /\
  Semaphore._waitQueue (semDone c) = [] /\
  exists woken, taskCompleted next c = Done woken (calls (callers ++ [next]) (new N)).
Proof.
  intros k c. subst c. rewrite calls_new. fold k. unfold coordinator_after at 1 2 3 4.
  cbn [remainingTasks completed semDone].
  split; [reflexivity|]. split; [reflexivity|].
  split; [destruct (Z.max N 1 <=? k); reflexivity|].
  split; [destruct (Z.max N 1 <=? k); reflexivity|].
  destruct (taskCompleted_step N (Semaphore.new 0) k next ltac:(lia)) as [woken Hstep].
  rewrite Hstep. eexists. f_equal.
  rewrite calls_new, length_app. f_equal. cbn [length]. lia.
Qed.

(** C3, as stated, fails for [N = 0]: the flag is not set after [N] calls
    (none), and the transition takes place on the first call. *)
Lemma completion_zero_tasks_needs_a_call :
  completed (calls [] (new 0)) = false /\
  completed (calls [7%nat] (new 0)) = true /\
  Semaphore._count (semDone (calls [7%nat] (new 0))) = 1.
Proof. repeat split. Qed.

Lemma others_keep_waiting (cs : list other_call) :
  forall (c : t) (resolve : resolver) (queue : list resolver),
    mutex c = Mutex.new ->
    completed c = false ->
    Semaphore._count (semDone c) = 0 ->
    Semaphore._waitQueue (semDone c) = resolve :: queue ->
    let c' := others cs c in
    mutex c' = Mutex.new /\
    completed c' = false /\
    remainingTasks c' = remainingTasks c /\
    Semaphore._count (semDone c') = 0 /\
    exists queue', Semaphore._waitQueue (semDone c') = resolve :: queue'.
Proof.
  induction cs as [|call cs IH]; intros c resolve queue Hm Hc Hn Hq.
  - cbn. repeat split; try assumption. eexists; eassumption.
  - unfold others. cbn [fold_left].
    set (c1 := other call c).
    assert (H1 : mutex c1 = Mutex.new /\ completed c1 = false /\
                 remainingTasks c1 = remainingTasks c /\
                 Semaphore._count (semDone c1) = 0 /\
                 exists queue1, Semaphore._waitQueue (semDone c1) = resolve :: queue1).
    { subst c1. destruct call as [r|r|r]; unfold other.
      - unfold waitForCompletion, Semaphore.wait. rewrite Hn, Hq.
        cbn. repeat split; try assumption. eexists; reflexivity.
      - unfold getRemainingTasks, withLock. rewrite Hm. cbn.
        repeat split; try assumption. eexists; eassumption.
      - unfold isCompleted, withLock. rewrite Hm. cbn.
        repeat split; try assumption. eexists; eassumption. }
    destruct H1 as (Hm1 & Hc1 & Hr1 & Hn1 & queue1 & Hq1).
    destruct (IH c1 resolve queue1 Hm1 Hc1 Hn1 Hq1) as (A & B & C & D & E).
    fold (others cs c1). repeat split; try assumption. congruence.
Qed.

(** C6. A coordinator created with [totalTasks = 0] starts with
    [remaining = 0], [completed = false] and an unsignalled semaphore. A
    [waitForCompletion] called first stays pending, parked at the head of
    the wait queue of the semaphore, and stays there whatever calls other
    than [taskCompleted] follow; the first [taskCompleted] sets
    [completed], and resumes that waiter (or, when nobody waits, leaves the
    count of the semaphore at 1). *)
Theorem coordinator_zero_tasks (waiter caller : resolver) (cs : list other_call) :
  let c0 := new 0 in
  (remainingTasks c0 = 0 /\ completed c0 = false /\ semDone c0 = Semaphore.new 0) /\
  (exists c1,
      waitForCompletion waiter c0 = Pending c1 /\
      let c2 := others cs c1 in
      completed c2 = false /\
      (exists queue, Semaphore._waitQueue (semDone c2) = waiter :: queue) /\
      exists c3 unlocked,
        taskCompleted caller c2 = Done (Some waiter, unlocked) c3 /\
        completed c3 = true) /\
  (exists c3,
      taskCompleted caller c0 = Done (None, None) c3 /\
      completed c3 = true /\ Semaphore._count (semDone c3) = 1).
Proof.
  intros c0. split; [repeat split|]. split.
  - eexists. split; [reflexivity|].
    match goal with |- let c2 := others cs ?c in _ => set (c1 := c) end.
    destruct (others_keep_waiting cs c1 waiter [] eq_refl eq_refl eq_refl eq_refl)
      as (Hm & Hc & Hr & Hn & queue & Hq).
    cbv zeta. split; [assumption|]. split; [eexists; eassumption|].
    unfold taskCompleted, withLock. rewrite Hm. cbn [Mutex.lock Mutex.new Mutex._locked negb].
    unfold taskCompleted_section, set_mutex.
    cbn [mutex semDone remainingTasks completed Mutex._waitQueue].
    rewrite Hr, Hc. change (remainingTasks c1) with 0. cbn [Z.sub Z.opp Z.add Z.leb Z.compare andb negb].
    unfold Semaphore.signal. rewrite Hq.
    cbn [mutex Mutex.unlock Mutex._locked negb Mutex._waitQueue].
    do 2 eexists. split; reflexivity.
  - eexists. repeat split.
Qed.

End SyncProofs.

(** ** The command line of worker.js *)

Section ParseArgsProofs.
Import Js Spec PgmUtils.

Example parseInt_decimal : parseInt "8"%string = Num 8.
Proof. reflexivity. Qed.

Example parseInt_stops_at_first_non_digit : parseInt " 12abc"%string = Num 12.
Proof. reflexivity. Qed.

Example parseInt_signed : parseInt "-3"%string = Num (-3).
Proof. reflexivity. Qed.

Example parseInt_hexadecimal : parseInt "0x1F"%string = Num 31.
Proof. reflexivity. Qed.

Example parseInt_not_a_number : parseInt "abc"%string = NaN.
Proof. reflexivity. Qed.

Example parseInt_skips_no_break_space :
  parseInt (String (ascii_of_nat 160) "12"%string) = Num 12.
Proof. reflexivity. Qed.

(** Without a worker count, [nthreads] is 4. *)
Lemma parseArgs_default_negativo (fifo out : string) :
  Worker.parseArgs [fifo; out; "negativo"]%string =
  Worker.Parsed (Worker.mkConfig fifo out MODE_NEG (Num 0) (Num 255) (Num 4)).
Proof. reflexivity. Qed.

Lemma parseArgs_default_slice (fifo out : string) :
  Worker.parseArgs [fifo; out; "slice"; "50"; "100"]%string =
  Worker.Parsed (Worker.mkConfig fifo out MODE_SLICE (Num 50) (Num 100) (Num 4)).
Proof. reflexivity. Qed.

(** With a worker count in mode [negativo]: a number outside 1..32 exits
    with code 1, a number inside is taken, and NaN passes the check. *)
Lemma parseArgs_negativo_count (fifo out count : string) (rest : list string) :
  Worker.parseArgs (fifo :: out :: "negativo"%string :: count :: rest) =
  match parseInt count with
  | Num n =>
      if (n <? 1) || (32 <? n) then Worker.Exit 1
      else Worker.Parsed (Worker.mkConfig fifo out MODE_NEG (Num 0) (Num 255) (Num n))
  | NaN => Worker.Parsed (Worker.mkConfig fifo out MODE_NEG (Num 0) (Num 255) NaN)
  end.
Proof.
  unfold Worker.parseArgs. cbn [length Nat.ltb Nat.leb Worker.arg nth].
  change (String.eqb "negativo" "negativo") with true. cbv iota.
  unfold Worker.check_nthreads. cbn [Worker.nthreads].
  destruct (parseInt count) as [n|]; reflexivity.
Qed.

Lemma parseArgs_rejects_numbers_out_of_range (fifo out count : string) (n : Z) :
  parseInt count = Num n -> ~ (1 <= n <= 32) ->
  Worker.parseArgs [fifo; out; "negativo"; count]%string = Worker.Exit 1.
Proof.
  intros Hp Hn. rewrite parseArgs_negativo_count, Hp.
  destruct (Z.ltb_spec n 1); [reflexivity|].
  destruct (Z.ltb_spec 32 n); [reflexivity|lia].
Qed.

(** C8, on the code. A worker count that is no number is not rejected:
    [parseInt] gives NaN, both comparisons of the range check are false,
    and [parseArgs] returns with [nthreads = NaN], in mode [negativo] and
    in mode [slice] alike; numbers outside 1..32 are rejected. *)
Theorem parseArgs_accepts_non_numeric_count :
  Worker.parseArgs ["/tmp/imgpipe"; "out.pgm"; "negativo"; "abc"]%string =
    Worker.Parsed
      (Worker.mkConfig "/tmp/imgpipe"%string "out.pgm"%string MODE_NEG (Num 0) (Num 255) NaN) /\
  Worker.parseArgs ["/tmp/imgpipe"; "out.pgm"; "slice"; "50"; "100"; "abc"]%string =
    Worker.Parsed
      (Worker.mkConfig "/tmp/imgpipe"%string "out.pgm"%string MODE_SLICE (Num 50) (Num 100) NaN) /\
  Worker.parseArgs ["/tmp/imgpipe"; "out.pgm"; "negativo"; "0"]%string = Worker.Exit 1 /\
  Worker.parseArgs ["/tmp/imgpipe"; "out.pgm"; "negativo"; "33"]%string = Worker.Exit 1.
Proof. repeat split. Qed.

End ParseArgsProofs.


(** ** More on filters.js *)

Section FilterValues.
Import Js Spec PgmUtils.

(** In its block, [applyNegativeBlock] stores [maxValue - input] reduced
    modulo 256 wherever both arrays have the element: [255 - input] for a
    byte and [maxValue = 255], and also for a 16-bit [maxValue = 65535]. *)
Theorem applyNegativeBlock_value st inp out width rowStart rowEnd maxValue j r :
  rowStart * width <= j < rowEnd * width ->
  ta_get (st inp) j = Some r ->
  is_Some (ta_get (st out) j) ->
  ta_get (fst (Filters.applyNegativeBlock st inp out width rowStart rowEnd maxValue) out) j =
  Some ((maxValue - r) mod 256).
Proof.
  intros Hj Hin [y Hy]. rewrite applyNegativeBlock_get by assumption.
  rewrite Hy, Hin. cbn [of_read]. unfold negative_pixel. cbn [add sub ToUint8].
  do 2 f_equal. lia.
Qed.

Lemma applyNegativeBlock_value_witness :
  ta_get (fst (Filters.applyNegativeBlock scenario_store in_ref out_ref 4 0 4 255) out_ref) 5 =
  Some ((255 - 60) mod 256).
Proof.
  apply (applyNegativeBlock_value scenario_store in_ref out_ref 4 0 4 255 5 60).
  - lia.
  - reflexivity.
  - eexists; reflexivity.
Defined.

Lemma slice_block_at st inp out width rowStart rowEnd limite_a limite_b j r :
  rowStart * width <= j < rowEnd * width ->
  ta_get (st inp) j = Some r ->
  is_Some (ta_get (st out) j) ->
  ta_get (fst (Filters.applySliceBlock st inp out width rowStart rowEnd
                 limite_a limite_b) out) j =
  Some (if le (Num r) limite_a || ge (Num r) limite_b then 0 else 255).
Proof.
  intros Hj Hin [y Hy]. rewrite applySliceBlock_get by assumption.
  rewrite Hy, Hin. cbn [of_read]. unfold slice_pixel.
  destruct (le (Num r) limite_a || ge (Num r) limite_b); reflexivity.
Qed.

(** In its block, [applySliceBlock] of [src/filters.js] produces a
    two-level image: 0 where the input is at most [limite_a] or at least
    [limite_b], 255 elsewhere (and everywhere when both limits are NaN). *)
Theorem applySliceBlock_value st inp out width rowStart rowEnd limite_a limite_b j r :
  rowStart * width <= j < rowEnd * width ->
  ta_get (st inp) j = Some r ->
  is_Some (ta_get (st out) j) ->
  ta_get (fst (Filters.applySliceBlock st inp out width rowStart rowEnd
                 limite_a limite_b) out) j =
  Some (if le (Num r) limite_a || ge (Num r) limite_b then 0 else 255).
Proof. apply slice_block_at. Qed.

Lemma applySliceBlock_value_witness :
  ta_get (fst (Filters.applySliceBlock scenario_store in_ref out_ref 4 0 4
                 (Num 50) (Num 100)) out_ref) 5 =
  Some (if le (Num 60) (Num 50) || ge (Num 60) (Num 100) then 0 else 255).
Proof.
  apply (applySliceBlock_value scenario_store in_ref out_ref 4 0 4 (Num 50) (Num 100) 5 60).
  - lia.
  - reflexivity.
  - eexists; reflexivity.
Defined.

Lemma applySliceBlock_length st inp out width rowStart rowEnd a b r :
  length (fst (Filters.applySliceBlock st inp out width rowStart rowEnd a b) r) =
  length (st r).
Proof.
  unfold Filters.applySliceBlock. cbn [fst].
  rewrite slice_loop. apply for_loop_length.
Qed.

(** [applySliceBlock] of [src/filters.js] is not idempotent: with limits
    [0 <= limite_a] and [limite_b <= 255] (what [validateSliceParams]
    accepts), applying it to its own output blacks the block out. *)
Theorem applySliceBlock_twice_is_black st inp mid out width rowStart rowEnd a b j :
  0 <= a -> b <= 255 ->
  length (st mid) = length (st inp) ->
  length (st out) = length (st inp) ->
  let st1 := fst (Filters.applySliceBlock st inp mid width rowStart rowEnd (Num a) (Num b)) in
  let st2 := fst (Filters.applySliceBlock st1 mid out width rowStart rowEnd (Num a) (Num b)) in
  rowStart * width <= j < rowEnd * width ->
  is_Some (ta_get (st inp) j) ->
  ta_get (st2 out) j = Some 0.
Proof.
  intros Ha Hb Hmid Hout st1 st2 Hj Hin.
  assert (Hbound : 0 <= j < Z.of_nat (length (st inp))) by (apply ta_get_is_Some; assumption).
  destruct Hin as [r Hr].
  assert (Hm : is_Some (ta_get (st mid) j)) by (apply ta_get_is_Some; lia).
  pose proof (slice_block_at st inp mid width rowStart rowEnd (Num a) (Num b) j r
                Hj Hr Hm) as H1.
  fold st1 in H1.
  assert (Ho : is_Some (ta_get (st1 out) j)).
  { apply ta_get_is_Some. subst st1. rewrite applySliceBlock_length. lia. }
  subst st2. rewrite (slice_block_at _ _ _ _ _ _ _ _ _ _ Hj H1 Ho).
  f_equal. unfold le, ge, le.
  destruct ((r <=? a) || (b <=? r)).
  - destruct (Z.leb_spec 0 a); [reflexivity|lia].
  - destruct (Z.leb_spec b 255); [|lia]. rewrite orb_true_r. reflexivity.
Qed.

Lemma applySliceBlock_twice_is_black_witness :
  ta_get (fst (Filters.applySliceBlock
                 (fst (Filters.applySliceBlock scenario_store in_ref out_ref 4 0 4
                         (Num 50) (Num 100)))
                 out_ref out2_ref 4 0 4 (Num 50) (Num 100)) out2_ref) 5 = Some 0.
Proof.
  apply (applySliceBlock_twice_is_black scenario_store in_ref out_ref out2_ref 4 0 4 50 100 5).
  - lia.
  - lia.
  - reflexivity.
  - reflexivity.
  - lia.
  - eexists; reflexivity.
Defined.

End FilterValues.

Section FilterMore.
Import Js Spec PgmUtils.

Lemma applySliceBlock_pseudo_get_witness :
  ta_get (fst (FiltersPseudo.applySliceBlock scenario_store in_ref out_ref 4 0 4
                 (Num 50) (Num 100)) out_ref) 5 =
  Some (if (60 <=? 50) || (100 <=? 60) then 255 else 60).
Proof.
  apply (applySliceBlock_pseudo_get scenario_store in_ref out_ref 4 0 4 50 100 5 60).
  - lia.
  - unfold bytes. vm_compute. repeat constructor; discriminate.
  - reflexivity.
  - eexists; reflexivity.
Defined.

Lemma applySliceBlock_pseudo_value st inp out width rowStart rowEnd a b j r :
  rowStart * width <= j < rowEnd * width ->
  0 <= r <= 255 ->
  ta_get (st inp) j = Some r ->
  is_Some (ta_get (st out) j) ->
  ta_get (fst (FiltersPseudo.applySliceBlock st inp out width rowStart rowEnd a b) out) j =
  Some (if le (Num r) a || ge (Num r) b then 255 else r).
Proof.
  intros Hj Hr Hin [y Hy]. unfold FiltersPseudo.applySliceBlock. cbn [fst].
  rewrite slice_pseudo_loop, for_range_get by assumption.
  rewrite Hy, Hin. cbn [of_read]. unfold slice_pixel_pseudo.
  destruct (le (Num r) a || ge (Num r) b); cbn [ToUint8]; [reflexivity|].
  rewrite Z.mod_small by lia. reflexivity.
Qed.

Lemma applySliceBlock_pseudo_length st inp out width rowStart rowEnd a b r :
  length (fst (FiltersPseudo.applySliceBlock st inp out width rowStart rowEnd a b) r) =
  length (st r).
Proof.
  unfold FiltersPseudo.applySliceBlock. cbn [fst].
  rewrite slice_pseudo_loop. apply for_loop_length.
Qed.

(** The pseudo-code copy of [applySliceBlock] is idempotent on bytes: applied
    to its own output with the same limits (numbers or NaN), it reproduces
    that output at every index of the block. *)
Theorem applySliceBlock_pseudo_idempotent st inp mid out width rowStart rowEnd a b j :
  bytes (st inp) ->
  length (st mid) = length (st inp) ->
  length (st out) = length (st inp) ->
  let st1 := fst (FiltersPseudo.applySliceBlock st inp mid width rowStart rowEnd a b) in
  let st2 := fst (FiltersPseudo.applySliceBlock st1 mid out width rowStart rowEnd a b) in
  rowStart * width <= j < rowEnd * width ->
  is_Some (ta_get (st inp) j) ->
  ta_get (st2 out) j = ta_get (st1 mid) j.
Proof.
  intros Hb Hmid Hout st1 st2 Hj Hin.
  assert (Hbound : 0 <= j < Z.of_nat (length (st inp))) by (apply ta_get_is_Some; assumption).
  destruct Hin as [r Hr].
  pose proof (ta_get_Some_bytes _ _ _ Hb Hr) as Hrange.
  assert (Hm : is_Some (ta_get (st mid) j)) by (apply ta_get_is_Some; lia).
  pose proof (applySliceBlock_pseudo_value st inp mid width rowStart rowEnd a b j r
                Hj Hrange Hr Hm) as H1.
  fold st1 in H1.
  assert (Ho : is_Some (ta_get (st1 out) j)).
  { apply ta_get_is_Some. subst st1. rewrite applySliceBlock_pseudo_length. lia. }
  subst st2. rewrite H1.
  destruct (le (Num r) a || ge (Num r) b) eqn:Hc.
  - rewrite (applySliceBlock_pseudo_value _ _ _ _ _ _ _ _ _ 255 Hj ltac:(lia) H1 Ho).
    destruct (le (Num 255) a || ge (Num 255) b); reflexivity.
  - rewrite (applySliceBlock_pseudo_value _ _ _ _ _ _ _ _ _ r Hj Hrange H1 Ho).
    rewrite Hc. reflexivity.
Qed.

Lemma applySliceBlock_pseudo_idempotent_witness :
  ta_get (fst (FiltersPseudo.applySliceBlock
                 (fst (FiltersPseudo.applySliceBlock scenario_store in_ref out_ref 4 0 4
                         (Num 50) (Num 100)))
                 out_ref out2_ref 4 0 4 (Num 50) (Num 100)) out2_ref) 5 =
  ta_get (fst (FiltersPseudo.applySliceBlock scenario_store in_ref out_ref 4 0 4
                 (Num 50) (Num 100)) out_ref) 5.
Proof.
  apply (applySliceBlock_pseudo_idempotent scenario_store in_ref out_ref out2_ref 4 0 4
           (Num 50) (Num 100) 5).
  - unfold bytes. vm_compute. repeat constructor; discriminate.
  - reflexivity.
  - reflexivity.
  - lia.
  - eexists; reflexivity.
Defined.

(** Whatever the mode, [applyFilter] writes nothing outside the block of
    the output array; it returns [(rowEnd - rowStart) * width] for the modes
    0 and 1, and for any other mode it throws and has written nothing. *)
Theorem applyFilter_frame st inp out width rowStart rowEnd mode t1 t2 maxValue :
  let r := FilterDispatch.applyFilter st inp out width rowStart rowEnd mode t1 t2 maxValue in
  writes_only st (fst r) out (rowStart * width) (rowEnd * width) /\
  if (mode =? MODE_NEG) || (mode =? MODE_SLICE)
  then snd r = inl ((rowEnd - rowStart) * width)
  else fst r = st /\ snd r = inr (FilterDispatch.InvalidMode mode).
Proof.
  unfold FilterDispatch.applyFilter.
  destruct (mode =? MODE_NEG) eqn:Hneg; [|destruct (mode =? MODE_SLICE) eqn:Hsl];
    cbn [orb].
  - pose proof (applyNegativeBlock_frame st inp out width rowStart rowEnd maxValue) as Hf.
    destruct (Filters.applyNegativeBlock st inp out width rowStart rowEnd maxValue)
      as [st' n] eqn:E.
    cbn [fst snd] in *. split; [assumption|].
    unfold Filters.applyNegativeBlock in E. injection E as _ <-. f_equal. lia.
  - pose proof (applySliceBlock_frame st inp out width rowStart rowEnd t1 t2) as Hf.
    destruct (Filters.applySliceBlock st inp out width rowStart rowEnd t1 t2)
      as [st' n] eqn:E.
    cbn [fst snd] in *. split; [assumption|].
    unfold Filters.applySliceBlock in E. injection E as _ <-. f_equal. lia.
  - cbn [fst snd]. split; [|split; reflexivity].
    unfold writes_only. repeat split; reflexivity.
Qed.

(** On numbers, [validateSliceParams] accepts exactly the limits with
    [0 <= t1 <= t2 <= maxValue]. *)
Theorem validateSliceParams_accepts_iff (t1 t2 maxValue : Z) :
  Filters.validateSliceParams (Num t1) (Num t2) (Num maxValue) = None <->
  0 <= t1 /\ t1 <= t2 /\ t2 <= maxValue.
Proof.
  unfold Filters.validateSliceParams, lt, gt, lt.
  destruct (Z.ltb_spec t1 0), (Z.ltb_spec maxValue t1), (Z.ltb_spec t2 0),
    (Z.ltb_spec maxValue t2), (Z.ltb_spec t2 t1); cbn [orb];
    split; intros Hv; try discriminate; try reflexivity; lia.
Qed.

(** A limit that is NaN is never rejected: with [t1 = NaN] the validation
    looks at [t2] alone, with [t2 = NaN] at [t1] alone. *)
Theorem validateSliceParams_ignores_NaN (t maxValue : Z) :
  Filters.validateSliceParams NaN NaN (Num maxValue) = None /\
  (Filters.validateSliceParams NaN (Num t) (Num maxValue) = None <-> 0 <= t <= maxValue) /\
  (Filters.validateSliceParams (Num t) NaN (Num maxValue) = None <-> 0 <= t <= maxValue).
Proof.
  unfold Filters.validateSliceParams, lt, gt, lt. cbn [orb].
  destruct (Z.ltb_spec t 0), (Z.ltb_spec maxValue t); cbn [orb];
    repeat split; intros; try discriminate; try reflexivity; lia.
Qed.

End FilterMore.

(** ** Sequences of calls on a semaphore and on a mutex *)

Section SyncSequences.
Import SyncUtils.

Lemma fold_left_invariant {St C : Type} (P : St -> Prop) (f : St -> C -> St) :
  (forall s c, P s -> P (f s c)) ->
  forall (cs : list C) (s : St), P s -> P (fold_left f cs s).
Proof.
  intros Hstep. induction cs as [|c cs IH]; intros s Hs; cbn [fold_left].
  - assumption.
  - apply IH, Hstep, Hs.
Qed.

Lemma sem_step_invariant (n : Z) (sl : Semaphore.t * sem_log) (c : sem_call) :
  let P (sl : Semaphore.t * sem_log) :=
    0 <= Semaphore._count sl.1 /\
    (Semaphore._waitQueue sl.1 <> [] -> Semaphore._count sl.1 = 0) /\
    parked sl.2 = resumed sl.2 ++ Semaphore._waitQueue sl.1 /\
    Semaphore._count sl.1 + Z.of_nat (length (passed sl.2))
      + Z.of_nat (length (resumed sl.2)) = n + signals sl.2 in
  P sl -> P (sem_step sl c).
Proof.
  intros P. subst P. cbv beta. destruct sl as [s l]. cbn [fst snd].
  intros (Hpos & Hq & Hfifo & Hcons).
  destruct c as [resolve|]; unfold sem_step.
  - unfold Semaphore.wait. destruct (Z.ltb_spec 0 (Semaphore._count s)) as [Hlt|Hge].
    + cbn [fst snd Semaphore._count Semaphore._waitQueue passed parked resumed signals].
      rewrite length_app. cbn [length].
      repeat split; try lia; try assumption.
      intros Hne. specialize (Hq Hne). lia.
    + cbn [fst snd Semaphore._count Semaphore._waitQueue passed parked resumed signals].
      repeat split; try lia.
      rewrite Hfifo, app_assoc. reflexivity.
  - unfold Semaphore.signal. destruct (Semaphore._waitQueue s) as [|next rest] eqn:Hqueue.
    + cbn [fst snd Semaphore._count Semaphore._waitQueue passed parked resumed signals].
      repeat split; try lia; try contradiction.
      rewrite Hfifo. reflexivity.
    + cbn [fst snd Semaphore._count Semaphore._waitQueue passed parked resumed signals].
      rewrite length_app. cbn [length].
      assert (Semaphore._count s = 0) by (apply Hq; discriminate).
      repeat split; try lia.
      rewrite Hfifo, <- app_assoc. reflexivity.
Qed.

Lemma sem_run_invariant (n : Z) (cs : list sem_call) :
  0 <= n ->
  let sl := sem_run cs (Semaphore.new n) in
  0 <= Semaphore._count sl.1 /\
  (Semaphore._waitQueue sl.1 <> [] -> Semaphore._count sl.1 = 0) /\
  parked sl.2 = resumed sl.2 ++ Semaphore._waitQueue sl.1 /\
  Semaphore._count sl.1 + Z.of_nat (length (passed sl.2))
    + Z.of_nat (length (resumed sl.2)) = n + signals sl.2.
Proof.
  intros Hn. unfold sem_run.
  apply (fold_left_invariant _ sem_step (sem_step_invariant n)).
  cbn. repeat split; try lia. contradiction.
Qed.

(** A semaphore created with a count [n >= 0] never shows a negative
    count, has waiters only while its count is 0, and loses no signal: after
    any calls of [wait] and [signal], the count plus the number of callers
    let through (at once, or resumed by a signal) is [n] plus the number of
    signals. *)
Theorem semaphore_loses_no_signal (n : Z) (cs : list sem_call) :
  0 <= n ->
  let sl := sem_run cs (Semaphore.new n) in
  0 <= Semaphore._count sl.1 /\
  (Semaphore._waitQueue sl.1 <> [] -> Semaphore._count sl.1 = 0) /\
  Semaphore._count sl.1 + Z.of_nat (length (passed sl.2))
    + Z.of_nat (length (resumed sl.2)) = n + signals sl.2.
Proof.
  intros Hn sl. destruct (sem_run_invariant n cs Hn) as (A & B & _ & D).
  fold sl in A, B, D. repeat split; assumption.
Qed.

Lemma semaphore_loses_no_signal_witness :
  let sl := sem_run [Wait 1%nat; Wait 2%nat; Signal; Wait 3%nat; Signal; Signal; Signal]
              (Semaphore.new 1) in
  0 <= Semaphore._count sl.1 /\
  (Semaphore._waitQueue sl.1 <> [] -> Semaphore._count sl.1 = 0) /\
  Semaphore._count sl.1 + Z.of_nat (length (passed sl.2))
    + Z.of_nat (length (resumed sl.2)) = 1 + signals sl.2.
Proof.
  apply (semaphore_loses_no_signal 1
           [Wait 1%nat; Wait 2%nat; Signal; Wait 3%nat; Signal; Signal; Signal]).
  lia.
Defined.

(** Waiters of a semaphore are resumed in the order in which they were
    parked: at any time the callers parked so far are those resumed so far,
    in the same order, followed by the wait queue. *)
Theorem semaphore_resumes_in_fifo_order (n : Z) (cs : list sem_call) :
  0 <= n ->
  let sl := sem_run cs (Semaphore.new n) in
  parked sl.2 = resumed sl.2 ++ Semaphore._waitQueue sl.1.
Proof.
  intros Hn sl. destruct (sem_run_invariant n cs Hn) as (_ & _ & C & _). exact C.
Qed.

Lemma semaphore_resumes_in_fifo_order_witness :
  let sl := sem_run [Wait 1%nat; Wait 2%nat; Wait 3%nat; Signal; Wait 4%nat; Signal]
              (Semaphore.new 0) in
  parked sl.2 = resumed sl.2 ++ Semaphore._waitQueue sl.1.
Proof.
  apply (semaphore_resumes_in_fifo_order 0
           [Wait 1%nat; Wait 2%nat; Wait 3%nat; Signal; Wait 4%nat; Signal]).
  lia.
Defined.

Lemma mutex_step_invariant (ml : Mutex.t * mutex_log) (c : mutex_call) :
  let P (ml : Mutex.t * mutex_log) :=
    (Mutex._waitQueue ml.1 <> [] -> Mutex._locked ml.1 = true) /\
    queued ml.2 = handed ml.2 ++ Mutex._waitQueue ml.1 /\
    Z.of_nat (length (acquired ml.2)) + Z.of_nat (length (handed ml.2)) - released ml.2 =
      (if Mutex._locked ml.1 then 1 else 0) in
  P ml -> P (mutex_step ml c).
Proof.
  intros P. subst P. cbv beta. destruct ml as [m l]. cbn [fst snd].
  intros (Hq & Hfifo & Hhold).
  destruct c as [resolve|]; unfold mutex_step.
  - unfold Mutex.lock. destruct (Mutex._locked m) eqn:Hl; cbn [negb].
    + cbn [fst snd Mutex._locked Mutex._waitQueue acquired queued handed released].
      rewrite ?Hl. repeat split; try lia.
      rewrite Hfifo, app_assoc. reflexivity.
    + cbn [fst snd Mutex._locked Mutex._waitQueue acquired queued handed released].
      rewrite length_app. cbn [length].
      repeat split; try lia; try assumption.
  - unfold Mutex.unlock. destruct (Mutex._locked m) eqn:Hl; cbn [negb].
    + destruct (Mutex._waitQueue m) as [|next rest] eqn:Hqueue.
      * cbn [fst snd Mutex._locked Mutex._waitQueue acquired queued handed released].
        repeat split; try lia; try contradiction.
        rewrite Hfifo. reflexivity.
      * cbn [fst snd Mutex._locked Mutex._waitQueue acquired queued handed released].
        rewrite ?Hl, length_app. cbn [length].
        repeat split; try lia.
        rewrite Hfifo, <- app_assoc. reflexivity.
    + cbn [fst snd Mutex._locked Mutex._waitQueue acquired queued handed released].
      rewrite ?Hl. repeat split; assumption.
Qed.

Lemma mutex_run_invariant (cs : list mutex_call) :
  let ml := mutex_run cs Mutex.new in
  (Mutex._waitQueue ml.1 <> [] -> Mutex._locked ml.1 = true) /\
  queued ml.2 = handed ml.2 ++ Mutex._waitQueue ml.1 /\
  Z.of_nat (length (acquired ml.2)) + Z.of_nat (length (handed ml.2)) - released ml.2 =
    (if Mutex._locked ml.1 then 1 else 0).
Proof.
  unfold mutex_run.
  apply (fold_left_invariant _ mutex_step mutex_step_invariant).
  cbn. repeat split; try lia. contradiction.
Qed.

(** Mutual exclusion. After any calls of [lock] and [unlock] on a new
    mutex, the callers that were given the lock (at once, or handed it by an
    [unlock]) outnumber the [unlock] calls that returned by exactly one when
    the mutex is locked and by none when it is free: the lock never has two
    holders. Callers wait only while it is locked. *)
Theorem mutex_has_one_holder (cs : list mutex_call) :
  let ml := mutex_run cs Mutex.new in
  Z.of_nat (length (acquired ml.2)) + Z.of_nat (length (handed ml.2)) - released ml.2 =
    (if Mutex._locked ml.1 then 1 else 0) /\
  (Mutex._waitQueue ml.1 <> [] -> Mutex._locked ml.1 = true).
Proof.
  intros ml. destruct (mutex_run_invariant cs) as (A & _ & C).
  fold ml in A, C. split; assumption.
Qed.

(** The lock is handed over in the order in which the callers queued. *)
Theorem mutex_hands_over_in_fifo_order (cs : list mutex_call) :
  let ml := mutex_run cs Mutex.new in
  queued ml.2 = handed ml.2 ++ Mutex._waitQueue ml.1.
Proof.
  intros ml. destruct (mutex_run_invariant cs) as (_ & B & _). exact B.
Qed.

Example mutex_run_sample :
  mutex_run [Lock 1%nat; Lock 2%nat; Lock 3%nat; Unlock; Unlock; Unlock; Unlock] Mutex.new =
  (Mutex.new, mkMutexLog [1%nat] [2%nat; 3%nat] [2%nat; 3%nat] 3 1).
Proof. reflexivity. Qed.

End SyncSequences.

(** ** The task queue of sync-utils.js *)

Section TaskQueueProofs.
Import SyncUtils PgmUtils QueueSpec.

Lemma array_get_set_eq (a : list TaskQueue.slot) (i : Z) (v : TaskQueue.slot) :
  0 <= i < Z.of_nat (length a) ->
  TaskQueue.array_get (TaskQueue.array_set a i v) i = v.
Proof.
  intros Hi. unfold TaskQueue.array_get, TaskQueue.array_set.
  destruct (Z.ltb_spec i 0); [lia|].
  destruct (Nat.ltb_spec (Z.to_nat i) (length a)); [|lia].
  rewrite list_lookup_insert_eq by assumption. reflexivity.
Qed.

Lemma array_get_set_ne (a : list TaskQueue.slot) (i j : Z) (v : TaskQueue.slot) :
  0 <= i < Z.of_nat (length a) -> i <> j ->
  TaskQueue.array_get (TaskQueue.array_set a i v) j = TaskQueue.array_get a j.
Proof.
  intros Hi Hne. unfold TaskQueue.array_get, TaskQueue.array_set.
  destruct (Z.ltb_spec i 0); [lia|].
  destruct (Nat.ltb_spec (Z.to_nat i) (length a)); [|lia].
  destruct (Z.ltb_spec j 0); [reflexivity|].
  rewrite list_lookup_insert_ne by lia. reflexivity.
Qed.

Lemma length_array_set (a : list TaskQueue.slot) (i : Z) (v : TaskQueue.slot) :
  0 <= i < Z.of_nat (length a) ->
  length (TaskQueue.array_set a i v) = length a.
Proof.
  intros Hi. unfold TaskQueue.array_set.
  destruct (Z.ltb_spec i 0); [lia|].
  destruct (Nat.ltb_spec (Z.to_nat i) (length a)); [|lia].
  apply length_insert.
Qed.

Lemma mod_shift_distinct (N a d : Z) :
  0 < N -> 0 < d < N -> (a + d) mod N <> a mod N.
Proof.
  intros HN Hd Heq.
  assert (Hz : (a + d - a) mod N = 0).
  { rewrite Zminus_mod, Heq, Z.sub_diag. apply Z.mod_0_l. lia. }
  replace (a + d - a) with d in Hz by lia.
  rewrite Z.mod_small in Hz by lia. lia.
Qed.

Lemma contents_eq (q : TaskQueue.t) :
  contents q =
  map (fun k : nat =>
         TaskQueue.array_get (TaskQueue.buffer q)
           ((TaskQueue.head q + Z.of_nat k) mod TaskQueue.maxSize q))
      (seq 0 (Z.to_nat (TaskQueue.count q))).
Proof. reflexivity. Qed.

(** [enqueue] on a queue at rest that is not full returns, and appends the
    task to what the queue holds. *)
Lemma enqueue_at_rest (resolve : resolver) (task : Task.t) (q : TaskQueue.t) :
  at_rest q ->
  TaskQueue.count q < TaskQueue.maxSize q ->
  exists q',
    TaskQueue.enqueue resolve task q = Done None q' /\
    at_rest q' /\
    TaskQueue.maxSize q' = TaskQueue.maxSize q /\
    TaskQueue.count q' = TaskQueue.count q + 1 /\
    contents q' = contents q ++ [TaskQueue.Item task].
Proof.
  intros (HN & Hlen & Hhead & Hcount & Htail & Hm & Hitems & Hspace) Hfree.
  destruct q as [buffer N head tail count mutex semItems semSpace].
  cbn [TaskQueue.buffer TaskQueue.maxSize TaskQueue.head TaskQueue.tail TaskQueue.count
       TaskQueue.mutex TaskQueue.semItems TaskQueue.semSpace] in *.
  subst tail mutex semItems semSpace.
  assert (Htl : 0 <= (head + count) mod N < N) by (apply Z.mod_pos_bound; lia).
  unfold TaskQueue.enqueue, Semaphore.wait, Semaphore.new.
  cbn [TaskQueue.semSpace Semaphore._count Semaphore._waitQueue].
  destruct (Z.ltb_spec 0 (N - count)); [|lia].
  unfold withLock, TaskQueue.set_semSpace, TaskQueue.set_mutex, Mutex.lock, Mutex.new.
  cbn. eexists. split; [reflexivity|].
  split; [|split; [reflexivity|split; [reflexivity|]]].
  - unfold at_rest. cbn.
    rewrite length_array_set by lia.
    repeat split; try lia.
    + rewrite Z.rem_mod_nonneg by lia.
      rewrite Z.add_mod_idemp_l by lia. f_equal. lia.
    + unfold Semaphore.new. f_equal. lia.
  - rewrite !contents_eq. cbn.
    replace (Z.to_nat (count + 1)) with (Z.to_nat count + 1)%nat by lia.
    rewrite seq_app, map_app. cbn [seq map]. f_equal.
    + apply map_ext_in. intros k Hk. apply in_seq in Hk.
      apply array_get_set_ne; [lia|].
      replace (head + count) with (head + Z.of_nat k + (count - Z.of_nat k)) by lia.
      apply mod_shift_distinct; lia.
    + f_equal. rewrite Nat.add_0_l, Z2Nat.id by lia.
      apply array_get_set_eq. lia.
Qed.

(** [dequeue] on a queue at rest that is not empty returns the oldest slot
    and leaves the rest. *)
Lemma dequeue_at_rest (resolve : resolver) (q : TaskQueue.t) :
  at_rest q ->
  0 < TaskQueue.count q ->
  exists x rest q',
    contents q = x :: rest /\
    TaskQueue.dequeue resolve q = Done (x, None) q' /\
    at_rest q' /\
    TaskQueue.maxSize q' = TaskQueue.maxSize q /\
    TaskQueue.count q' = TaskQueue.count q - 1 /\
    contents q' = rest.
Proof.
  intros (HN & Hlen & Hhead & Hcount & Htail & Hm & Hitems & Hspace) Hsome.
  destruct q as [buffer N head tail count mutex semItems semSpace].
  cbn [TaskQueue.buffer TaskQueue.maxSize TaskQueue.head TaskQueue.tail TaskQueue.count
       TaskQueue.mutex TaskQueue.semItems TaskQueue.semSpace] in *.
  subst tail mutex semItems semSpace.
  rewrite contents_eq. cbn [TaskQueue.buffer TaskQueue.maxSize TaskQueue.head TaskQueue.count].
  replace (Z.to_nat count) with (S (Z.to_nat (count - 1))) by lia.
  cbn [seq map]. rewrite Z.add_0_r, Z.mod_small by lia.
  do 3 eexists. split; [reflexivity|].
  unfold TaskQueue.dequeue, Semaphore.wait, Semaphore.new.
  cbn [TaskQueue.semItems Semaphore._count Semaphore._waitQueue].
  destruct (Z.ltb_spec 0 count); [|lia].
  unfold withLock, TaskQueue.set_semItems, TaskQueue.set_mutex, Mutex.lock, Mutex.new.
  cbn. split; [reflexivity|].
  split; [|split; [reflexivity|split; [reflexivity|]]].
  - unfold at_rest. cbn.
    rewrite length_array_set by lia.
    assert (Hh : 0 <= Z.rem (head + 1) N < N).
    { rewrite Z.rem_mod_nonneg by lia. apply Z.mod_pos_bound. lia. }
    repeat split; try lia.
    + rewrite Z.rem_mod_nonneg by lia.
      rewrite Z.add_mod_idemp_l by lia. f_equal. lia.
    + unfold Semaphore.new. f_equal. lia.
  - rewrite contents_eq. cbn.
    rewrite <- seq_shift, map_map.
    apply map_ext_in. intros k Hk. apply in_seq in Hk.
    rewrite Z.rem_mod_nonneg by lia.
    rewrite Z.add_mod_idemp_l by lia.
    replace (head + 1 + Z.of_nat k) with (head + Z.of_nat (S k)) by lia.
    apply array_get_set_ne; [lia|].
    intros Heq. symmetry in Heq. revert Heq.
    rewrite <- (Z.mod_small head N) at 2 by lia.
    apply mod_shift_distinct; lia.
Qed.

Lemma new_at_rest (N : Z) :
  1 <= N ->
  exists q, TaskQueue.new N = Some q /\ at_rest q /\
            TaskQueue.maxSize q = N /\ TaskQueue.count q = 0.
Proof.
  intros HN. unfold TaskQueue.new. destruct (Z.ltb_spec N 0); [lia|].
  eexists. split; [reflexivity|]. split; [|split; reflexivity].
  unfold at_rest. cbn. rewrite length_replicate, Z.mod_0_l by lia.
  repeat split; try lia. unfold Semaphore.new. f_equal. lia.
Qed.

Lemma enqueue_all_at_rest (resolve : resolver) (tasks : list Task.t) :
  forall q : TaskQueue.t,
    at_rest q ->
    TaskQueue.count q + Z.of_nat (length tasks) <= TaskQueue.maxSize q ->
    let q' := enqueue_all resolve tasks q in
    at_rest q' /\
    TaskQueue.maxSize q' = TaskQueue.maxSize q /\
    TaskQueue.count q' = TaskQueue.count q + Z.of_nat (length tasks) /\
    contents q' = contents q ++ map TaskQueue.Item tasks.
Proof.
  induction tasks as [|task tasks IH]; intros q Hrest Hfit.
  - unfold enqueue_all. cbn [fold_left length map]. rewrite app_nil_r.
    split; [assumption|]. repeat split; lia.
  - cbn [length] in Hfit.
    destruct (enqueue_at_rest resolve task q Hrest ltac:(lia))
      as (q1 & Henq & Hrest1 & HN1 & Hc1 & Hcont1).
    unfold enqueue_all. cbn [fold_left]. rewrite Henq. cbn [state_of].
    destruct (IH q1 Hrest1 ltac:(lia)) as (A & B & C & D).
    unfold enqueue_all in A, B, C, D.
    split; [assumption|]. split; [congruence|]. split.
    + rewrite C, Hc1. cbn [length]. lia.
    + rewrite D, Hcont1, <- app_assoc. reflexivity.
Qed.

Lemma dequeue_n_at_rest (resolve : resolver) (n : nat) :
  forall q : TaskQueue.t,
    at_rest q ->
    Z.of_nat n <= TaskQueue.count q ->
    let r := dequeue_n resolve n q in
    r.1 = map Some (take n (contents q)) /\
    at_rest r.2 /\
    TaskQueue.maxSize r.2 = TaskQueue.maxSize q /\
    TaskQueue.count r.2 = TaskQueue.count q - Z.of_nat n /\
    contents r.2 = drop n (contents q).
Proof.
  induction n as [|n IH]; intros q Hrest Hn.
  - cbn [dequeue_n fst snd take drop map].
    split; [reflexivity|]. split; [assumption|]. repeat split; lia.
  - destruct (dequeue_at_rest resolve q Hrest ltac:(lia))
      as (x & rest & q1 & Hcont & Hdeq & Hrest1 & HN1 & Hc1 & Hcont1).
    cbn [dequeue_n]. rewrite Hdeq. cbn [state_of value_of].
    destruct (IH q1 Hrest1 ltac:(lia)) as (A & B & C & D & E).
    destruct (dequeue_n resolve n q1) as [xs q2]. cbn [fst snd] in *.
    rewrite Hcont. cbn [take drop map].
    split; [rewrite A, Hcont1; reflexivity|].
    split; [assumption|]. split; [congruence|]. split; [lia|].
    rewrite E, Hcont1. reflexivity.
Qed.

(** On a queue at rest that is not full, [enqueue] returns at once and the
    queue, again at rest, holds the task after what it held; [count] stays
    within the capacity. This includes the wrap of [tail] around the ring. *)
Theorem enqueue_appends (resolve : resolver) (task : Task.t) (q : TaskQueue.t) :
  at_rest q ->
  TaskQueue.count q < TaskQueue.maxSize q ->
  exists q',
    TaskQueue.enqueue resolve task q = Done None q' /\
    at_rest q' /\
    contents q' = contents q ++ [TaskQueue.Item task].
Proof.
  intros Hrest Hfree.
  destruct (enqueue_at_rest resolve task q Hrest Hfree) as (q' & A & B & _ & _ & C).
  exists q'. split; [assumption|]. split; assumption.
Qed.

(** On a queue at rest that is not empty, [dequeue] returns at once the
    oldest task and the queue, again at rest, holds the others. *)
Theorem dequeue_takes_oldest (resolve : resolver) (q : TaskQueue.t) :
  at_rest q ->
  0 < TaskQueue.count q ->
  exists x rest q',
    contents q = x :: rest /\
    TaskQueue.dequeue resolve q = Done (x, None) q' /\
    at_rest q' /\
    contents q' = rest.
Proof.
  intros Hrest Hsome.
  destruct (dequeue_at_rest resolve q Hrest Hsome) as (x & rest & q' & A & B & C & _ & _ & D).
  exists x, rest, q'. split; [assumption|]. split; [assumption|]. split; assumption.
Qed.

(** A full queue blocks [enqueue] and an empty one blocks [dequeue]: the
    caller is parked on the semaphore, and the ring (buffer, head, tail,
    count) is untouched. *)
Theorem queue_blocks_at_its_bounds (resolve : resolver) (task : Task.t) (q : TaskQueue.t) :
  at_rest q ->
  (TaskQueue.count q = TaskQueue.maxSize q ->
   TaskQueue.enqueue resolve task q =
   Pending (TaskQueue.set_semSpace
              {| Semaphore._count := 0; Semaphore._waitQueue := [resolve] |} q)) /\
  (TaskQueue.count q = 0 ->
   TaskQueue.dequeue resolve q =
   Pending (TaskQueue.set_semItems
              {| Semaphore._count := 0; Semaphore._waitQueue := [resolve] |} q)).
Proof.
  intros (HN & Hlen & Hhead & Hcount & Htail & Hm & Hitems & Hspace). split.
  - intros Hfull. unfold TaskQueue.enqueue. rewrite Hspace, Hfull, Z.sub_diag.
    reflexivity.
  - intros Hempty. unfold TaskQueue.dequeue. rewrite Hitems, Hempty. reflexivity.
Qed.

(** First in, first out. Tasks enqueued on a queue at rest that has room for
    them come out of as many [dequeue] calls after what the queue held, in
    the order in which they went in, and the queue ends empty and at
    rest. *)
Theorem queue_is_fifo (producer consumer : resolver) (tasks : list Task.t)
    (q : TaskQueue.t) :
  at_rest q ->
  TaskQueue.count q + Z.of_nat (length tasks) <= TaskQueue.maxSize q ->
  let q1 := enqueue_all producer tasks q in
  let r := dequeue_n consumer (Z.to_nat (TaskQueue.count q1)) q1 in
  r.1 = map Some (contents q ++ map TaskQueue.Item tasks) /\
  at_rest r.2 /\
  TaskQueue.count r.2 = 0.
Proof.
  intros Hrest Hfit q1 r.
  destruct (enqueue_all_at_rest producer tasks q Hrest Hfit) as (A & B & C & D).
  fold q1 in A, B, C, D.
  assert (Hn : Z.of_nat (Z.to_nat (TaskQueue.count q1)) <= TaskQueue.count q1).
  { destruct A as (_ & _ & _ & Hc & _). lia. }
  destruct (dequeue_n_at_rest consumer (Z.to_nat (TaskQueue.count q1)) q1 A Hn)
    as (E & F & _ & G & _).
  fold r in E, F, G. split; [|split; [assumption|]].
  - rewrite E, take_ge, D; [reflexivity|].
    unfold contents. rewrite length_map, length_seq. lia.
  - destruct A as (_ & _ & _ & Hc & _). lia.
Qed.

Lemma enqueue_appends_witness :
  exists q',
    TaskQueue.enqueue 1%nat (Task.mk 6 8) sample_queue = Done None q' /\
    at_rest q' /\
    contents q' = contents sample_queue ++ [TaskQueue.Item (Task.mk 6 8)].
Proof.
  apply (enqueue_appends 1%nat (Task.mk 6 8) sample_queue).
  - unfold at_rest, sample_queue. cbn. repeat split; lia.
  - cbn. lia.
Defined.

Lemma dequeue_takes_oldest_witness :
  exists x rest q',
    contents sample_queue = x :: rest /\
    TaskQueue.dequeue 1%nat sample_queue = Done (x, None) q' /\
    at_rest q' /\
    contents q' = rest.
Proof.
  apply (dequeue_takes_oldest 1%nat sample_queue).
  - unfold at_rest, sample_queue. cbn. repeat split; lia.
  - cbn. lia.
Defined.

Example full_queue_from_sample :
  enqueue_all 1%nat [Task.mk 6 8; Task.mk 8 9] sample_queue = full_queue.
Proof. reflexivity. Qed.

Example empty_queue_from_sample :
  dequeue_n 2%nat 1 sample_queue = ([Some (TaskQueue.Item (Task.mk 4 6))], empty_queue).
Proof. reflexivity. Qed.

Lemma queue_blocks_at_its_bounds_witness :
  TaskQueue.enqueue 1%nat (Task.mk 9 10) full_queue =
  Pending (TaskQueue.set_semSpace
             {| Semaphore._count := 0; Semaphore._waitQueue := [1%nat] |} full_queue) /\
  TaskQueue.dequeue 2%nat empty_queue =
  Pending (TaskQueue.set_semItems
             {| Semaphore._count := 0; Semaphore._waitQueue := [2%nat] |} empty_queue).
Proof.
  split.
  - apply (proj1 (queue_blocks_at_its_bounds 1%nat (Task.mk 9 10) full_queue
                    ltac:(unfold at_rest, full_queue; cbn; repeat split; lia))).
    reflexivity.
  - apply (proj2 (queue_blocks_at_its_bounds 2%nat (Task.mk 9 10) empty_queue
                    ltac:(unfold at_rest, empty_queue; cbn; repeat split; lia))).
    reflexivity.
Defined.

Lemma queue_is_fifo_witness :
  let q1 := enqueue_all 1%nat [Task.mk 6 8; Task.mk 8 9] sample_queue in
  let r := dequeue_n 2%nat (Z.to_nat (TaskQueue.count q1)) q1 in
  r.1 = map Some (contents sample_queue ++
                  map TaskQueue.Item [Task.mk 6 8; Task.mk 8 9]) /\
  at_rest r.2 /\
  TaskQueue.count r.2 = 0.
Proof.
  apply (queue_is_fifo 1%nat 2%nat [Task.mk 6 8; Task.mk 8 9] sample_queue).
  - unfold at_rest, sample_queue. cbn. repeat split; lia.
  - cbn. lia.
Defined.

Example queue_wraps_around :
  (dequeue_n 2%nat 3 (enqueue_all 1%nat [Task.mk 6 8; Task.mk 8 9] sample_queue)).1 =
  [Some (TaskQueue.Item (Task.mk 4 6)); Some (TaskQueue.Item (Task.mk 6 8));
   Some (TaskQueue.Item (Task.mk 8 9))].
Proof. reflexivity. Qed.

(** A queue of capacity 0 lets nobody in: the first [enqueue] and the first
    [dequeue] both stay pending, so the remainder by [maxSize] is never
    computed with a zero divisor. *)
Example queue_of_capacity_0_blocks (resolve : resolver) (task : Task.t) :
  exists q, TaskQueue.new 0 = Some q /\
    (exists q', TaskQueue.enqueue resolve task q = Pending q') /\
    (exists q', TaskQueue.dequeue resolve q = Pending q').
Proof. eexists. split; [reflexivity|]. split; eexists; reflexivity. Qed.

End TaskQueueProofs.

(** ** More on the completion coordinator *)

Section CoordinatorMore.
Import SyncUtils.
Import CompletionCoordinator.
Import Spec.

(** The completion signal releases one [waitForCompletion] and no more:
    once at least [max N 1] calls of [taskCompleted] have been made, a first
    [waitForCompletion] returns at once, and a second one stays pending. *)
Theorem completion_releases_one_waiter (N : Z) (callers : list resolver)
    (first second : resolver) :
  Z.max N 1 <= Z.of_nat (length callers) ->
  exists c1 c2,
    waitForCompletion first (calls callers (new N)) = Done tt c1 /\
    waitForCompletion second c1 = Pending c2 /\
    Semaphore._waitQueue (semDone c2) = [second].
Proof.
  intros Hk. rewrite calls_new. unfold coordinator_after.
  destruct (Z.leb_spec (Z.max N 1) (Z.of_nat (length callers))); [|lia].
  do 2 eexists. repeat split.
Qed.

Lemma completion_releases_one_waiter_witness :
  exists c1 c2,
    waitForCompletion 8%nat (calls [1%nat; 2%nat] (new 2)) = Done tt c1 /\
    waitForCompletion 9%nat c1 = Pending c2 /\
    Semaphore._waitQueue (semDone c2) = [9%nat].
Proof.
  apply (completion_releases_one_waiter 2 [1%nat; 2%nat] 8%nat 9%nat). cbn. lia.
Defined.

(** [setTotalTasks] does not take the signal back. On a coordinator that
    has completed and that nobody waited for, it resets [completed] and
    [remaining], but the semaphore keeps its count of 1: the next
    [waitForCompletion] returns at once although [total] tasks remain. *)
Theorem setTotalTasks_keeps_the_signal (N total : Z) (callers : list resolver)
    (setter waiter : resolver) :
  Z.max N 1 <= Z.of_nat (length callers) ->
  exists c1 c2,
    setTotalTasks setter total (calls callers (new N)) = Done (tt, None) c1 /\
    completed c1 = false /\ remainingTasks c1 = total /\
    waitForCompletion waiter c1 = Done tt c2 /\
    completed c2 = false /\ remainingTasks c2 = total.
Proof.
  intros Hk. rewrite calls_new. unfold coordinator_after.
  destruct (Z.leb_spec (Z.max N 1) (Z.of_nat (length callers))); [|lia].
  do 2 eexists. repeat split.
Qed.

Lemma setTotalTasks_keeps_the_signal_witness :
  exists c1 c2,
    setTotalTasks 8%nat 5 (calls [1%nat; 2%nat] (new 2)) = Done (tt, None) c1 /\
    completed c1 = false /\ remainingTasks c1 = 5 /\
    waitForCompletion 9%nat c1 = Done tt c2 /\
    completed c2 = false /\ remainingTasks c2 = 5.
Proof.
  apply (setTotalTasks_keeps_the_signal 2 5 [1%nat; 2%nat] 8%nat 9%nat). cbn. lia.
Defined.

End CoordinatorMore.


(** ** The sender and the thread pool *)

Section WireProofs.
Import Js Spec PgmUtils.

Lemma toBuffer_fromBuffer (header : Header.t) :
  int32 (Header.w header) -> int32 (Header.h header) -> int32 (Header.maxv header) ->
  int32 (Header.mode header) -> int32 (Header.t1 header) -> int32 (Header.t2 header) ->
  exists buffer,
    Header.toBuffer header = Some buffer /\
    length buffer = 24%nat /\
    Header.fromBuffer buffer = Some header.
Proof.
  intros Hw Hh Hmaxv Hmode Ht1 Ht2. unfold Header.toBuffer.
  destruct (writeInt32LE_defined (Buffer_alloc 24) (Header.w header) 0) as (b1 & E1 & L1);
    [assumption|lia|vm_compute; discriminate|].
  assert (length b1 = 24%nat) as L1' by (rewrite L1; reflexivity).
  destruct (writeInt32LE_defined b1 (Header.h header) 4) as (b2 & E2 & L2);
    [assumption|lia|lia|].
  destruct (writeInt32LE_defined b2 (Header.maxv header) 8) as (b3 & E3 & L3);
    [assumption|lia|lia|].
  destruct (writeInt32LE_defined b3 (Header.mode header) 12) as (b4 & E4 & L4);
    [assumption|lia|lia|].
  destruct (writeInt32LE_defined b4 (Header.t1 header) 16) as (b5 & E5 & L5);
    [assumption|lia|lia|].
  destruct (writeInt32LE_defined b5 (Header.t2 header) 20) as (b6 & E6 & L6);
    [assumption|lia|lia|].
  exists b6. rewrite E1. cbn [mbind option_bind]. rewrite E2. cbn [mbind option_bind].
  rewrite E3. cbn [mbind option_bind]. rewrite E4. cbn [mbind option_bind].
  rewrite E5. cbn [mbind option_bind]. rewrite E6. cbn [mbind option_bind].
  split; [reflexivity|]. split; [lia|].
  unfold Header.fromBuffer.
  repeat first
    [ rewrite (writeInt32LE_read_same _ _ _ _ E6)
    | rewrite (writeInt32LE_read_other _ _ _ _ _ E6) by lia
    | rewrite (writeInt32LE_read_same _ _ _ _ E5)
    | rewrite (writeInt32LE_read_other _ _ _ _ _ E5) by lia
    | rewrite (writeInt32LE_read_same _ _ _ _ E4)
    | rewrite (writeInt32LE_read_other _ _ _ _ _ E4) by lia
    | rewrite (writeInt32LE_read_same _ _ _ _ E3)
    | rewrite (writeInt32LE_read_other _ _ _ _ _ E3) by lia
    | rewrite (writeInt32LE_read_same _ _ _ _ E2)
    | rewrite (writeInt32LE_read_other _ _ _ _ _ E2) by lia
    | rewrite (writeInt32LE_read_same _ _ _ _ E1)
    | progress cbn [mbind option_bind] ].
  destruct header; reflexivity.
Qed.

(** What the sender writes, the worker reads back. For a raster whose
    width, height and maximum are 32-bit integers and whose data has
    [w * h] bytes, [sendImageData] writes 24 + [w * h] bytes, and
    [receiveImageData] on these bytes resolves with the same raster. *)
Theorem send_receive_roundtrip (pgm : PGM.t) :
  int32 (PGM.w pgm) -> int32 (PGM.h pgm) -> int32 (PGM.maxv pgm) ->
  Z.of_nat (length (PGM.data pgm)) = PGM.w pgm * PGM.h pgm ->
  exists stream,
    Sender.sendImageData pgm = Some stream /\
    length stream = (24 + length (PGM.data pgm))%nat /\
    Worker.receiveImageData stream = inl pgm.
Proof.
  intros Hw Hh Hmaxv Hsize.
  destruct (toBuffer_fromBuffer (Sender.header_of pgm)) as (hb & Hto & Hlen & Hfrom);
    try assumption; try (unfold int32; cbn; lia).
  unfold Sender.sendImageData. rewrite Hto. cbn [mbind option_bind].
  eexists. split; [reflexivity|]. split; [rewrite length_app; lia|].
  unfold Worker.receiveImageData.
  assert (Hstream : 24 <= Z.of_nat (length (hb ++ PGM.data pgm))) by (rewrite length_app; lia).
  destruct (Z.ltb_spec (Z.of_nat (length (hb ++ PGM.data pgm))) 24); [lia|].
  rewrite Buffer_slice_head by lia. change (Z.to_nat 24) with 24%nat.
  rewrite (take_app_length' hb (PGM.data pgm) 24) by (symmetry; assumption).
  rewrite Hfrom. cbn [Sender.header_of Header.w Header.h Header.maxv].
  pose proof (Buffer_slice_payload (hb ++ PGM.data pgm) (PGM.w pgm * PGM.h pgm) Hstream) as Hp.
  cbv zeta in Hp.
  rewrite (drop_app_length' hb (PGM.data pgm) 24) in Hp by (symmetry; assumption).
  destruct (Z.leb_spec 0 (PGM.w pgm * PGM.h pgm)); [|lia].
  destruct (Z.leb_spec (PGM.w pgm * PGM.h pgm) (Z.of_nat (length (PGM.data pgm)))); [|lia].
  cbn [andb] in Hp. destruct Hp as [Hdata Hlen'].
  rewrite Hlen', Z.eqb_refl. cbn [negb]. rewrite Hdata.
  rewrite take_ge by lia. destruct pgm; reflexivity.
Qed.

Lemma send_receive_roundtrip_witness :
  exists stream,
    Sender.sendImageData PoolSpec.scenario_pgm = Some stream /\
    length stream = (24 + length (PGM.data PoolSpec.scenario_pgm))%nat /\
    Worker.receiveImageData stream = inl PoolSpec.scenario_pgm.
Proof.
  apply (send_receive_roundtrip PoolSpec.scenario_pgm).
  - unfold int32. cbn. lia.
  - unfold int32. cbn. lia.
  - unfold int32. cbn. lia.
  - reflexivity.
Defined.

End WireProofs.

Section PoolProofs.
Import Js Spec PgmUtils PoolSpec.

Variables (inputPgm : PGM.t) (mode : Z) (t1 t2 : num) (nthreads : Z).
Hypothesis Hmode : mode = MODE_NEG \/ mode = MODE_SLICE.

Let f : num -> num := pixel mode t1 t2 (PGM.maxv inputPgm).
Let width : Z := PGM.w inputPgm.

(** A task message run by a worker of the pool is one block of the
    pixel-by-pixel loop, answered by [TASK_COMPLETED]. *)
Lemma on_message_post (i : nat) (task : Task.t) (st : store) :
  let p := WorkerPool.post inputPgm mode t1 t2 nthreads i task in
  exists a,
    completed_by nthreads i a /\
    WorkerThread.on_message p.1 p.2 st =
    (for_range (Task.row_start task * width) (Task.row_end task * width)
       (pointwise f WorkerPool.inputBuffer WorkerPool.outputBuffer) st, a).
Proof.
  cbn [WorkerPool.post fst snd WorkerThread.on_message].
  unfold FilterDispatch.applyFilter.
  cbn [WorkerThread.inputBuffer WorkerThread.outputBuffer WorkerThread.width
       WorkerThread.mode WorkerThread.t1 WorkerThread.t2 WorkerThread.maxValue
       WorkerThread.threadId].
  subst f width. unfold pixel.
  destruct Hmode as [->| ->].
  - change (MODE_NEG =? MODE_NEG) with true. cbv iota.
    unfold Filters.applyNegativeBlock. rewrite negative_loop.
    eexists. split; reflexivity.
  - change (MODE_SLICE =? MODE_NEG) with false.
    change (MODE_SLICE =? MODE_SLICE) with true. cbv iota.
    unfold Filters.applySliceBlock. rewrite slice_loop.
    eexists. split; reflexivity.
Qed.

(** Running posted tasks in any order: the input array is never written,
    the output array keeps its length, a pixel of a block that was run holds
    the filtered input and every other pixel is as before; every task is
    answered by the completion message that carries its index. *)
Lemma run_posts (order : list (WorkerThread.workerData * WorkerThread.message)) :
  (forall p, p ∈ order ->
             exists i task, p = WorkerPool.post inputPgm mode t1 t2 nthreads i task) ->
  forall st : store,
    let r := WorkerPool.run order st in
    r.1 WorkerPool.inputBuffer = st WorkerPool.inputBuffer /\
    length (r.1 WorkerPool.outputBuffer) = length (st WorkerPool.outputBuffer) /\
    (forall j : Z,
        ta_get (r.1 WorkerPool.outputBuffer) j =
        if existsb (fun p => in_block width p j) order
        then match ta_get (st WorkerPool.outputBuffer) j with
             | Some _ => Some (ToUint8 (f (of_read (ta_get (st WorkerPool.inputBuffer) j))))
             | None => None
             end
        else ta_get (st WorkerPool.outputBuffer) j) /\
    Forall2 (completed_by nthreads) (map post_index order) r.2.
Proof.
  induction order as [|p order IH]; intros Hposts st.
  - cbn. repeat split; first [reflexivity | constructor].
  - destruct (Hposts p ltac:(left)) as (i & task & ->).
    destruct (on_message_post i task st) as (a & Ha & Hmsg). cbv zeta in Hmsg.
    cbn [WorkerPool.run].
    destruct (WorkerPool.post inputPgm mode t1 t2 nthreads i task) as [wd m] eqn:Hpost.
    cbn [fst snd] in Hmsg. rewrite Hmsg.
    set (st1 := for_range _ _ _ st).
    specialize (IH ltac:(intros q Hq; apply Hposts; right; exact Hq) st1).
    cbv zeta in IH. destruct (WorkerPool.run order st1) as [st2 answers].
    cbn [fst snd] in *. destruct IH as (Hin & Hlen & Hget & Hcomp).
    pose proof (for_range_writes_only f WorkerPool.inputBuffer WorkerPool.outputBuffer
                  (Task.row_start task * width) (Task.row_end task * width) st)
      as (Hother & Hlen1 & Hout1).
    fold st1 in Hother, Hlen1, Hout1.
    assert (Hin1 : st1 WorkerPool.inputBuffer = st WorkerPool.inputBuffer)
      by (apply Hother; discriminate).
    split; [congruence|]. split; [congruence|].
    split.
    2:{ cbn [map]. constructor; [|assumption].
        unfold WorkerPool.post in Hpost. injection Hpost as <- <-.
        unfold post_index. cbn [snd]. rewrite Nat2Z.id. exact Ha. }
    intros j. rewrite Hget, Hin1. cbn [existsb].
    assert (Hblock : in_block width (wd, m) j =
                     (Task.row_start task * width <=? j) && (j <? Task.row_end task * width)).
    { unfold WorkerPool.post in Hpost. injection Hpost as <- <-. reflexivity. }
    rewrite Hblock.
    destruct (in_range_spec (Task.row_start task * width) (Task.row_end task * width) j)
      as [Hj|Hj]; cbn [orb].
    + pose proof (for_range_get f WorkerPool.inputBuffer WorkerPool.outputBuffer
                    _ _ st j Hj) as Hg.
      fold st1 in Hg. rewrite Hg.
      destruct (existsb _ order); [|reflexivity].
      destruct (ta_get (st WorkerPool.outputBuffer) j); reflexivity.
    + rewrite (Hout1 j Hj). reflexivity.
Qed.

End PoolProofs.

Section PoolResults.
Import Js Spec PgmUtils PoolSpec.

Lemma ta_get_of_nat (a : typed_array) (i : nat) : ta_get a (Z.of_nat i) = a !! i.
Proof.
  unfold ta_get. destruct (Z.ltb_spec (Z.of_nat i) 0); [lia|].
  rewrite Nat2Z.id. reflexivity.
Qed.

Lemma createTasks_loop_length (linesPerThread height : Z) (n : nat) :
  forall (i : Z) (tasks : list Task.t),
    (length (for_loop n i (Worker.createTasks_step linesPerThread height) tasks)
     <= length tasks + n)%nat.
Proof.
  induction n as [|n IH]; intros i tasks; cbn [for_loop]; [lia|].
  etransitivity; [apply IH|].
  unfold Worker.createTasks_step.
  destruct (i * linesPerThread <? height); [rewrite length_app; cbn [length]|]; lia.
Qed.

Lemma createTasks_loop_skips (linesPerThread height : Z) (n : nat) :
  forall (i : Z) (tasks : list Task.t),
    (forall k, i <= k < i + Z.of_nat n -> height <= k * linesPerThread) ->
    for_loop n i (Worker.createTasks_step linesPerThread height) tasks = tasks.
Proof.
  induction n as [|n IH]; intros i tasks Hskip; cbn [for_loop]; [reflexivity|].
  unfold Worker.createTasks_step at 2.
  destruct (Z.ltb_spec (i * linesPerThread) height) as [Hlt|Hge].
  - specialize (Hskip i ltac:(lia)). lia.
  - apply IH. intros k Hk. apply Hskip. lia.
Qed.

Lemma createTasks_no_rows (height nthreads : Z) :
  height <= 0 -> 1 <= nthreads -> Worker.createTasks height nthreads = [].
Proof.
  intros Hh Hn. unfold Worker.createTasks, for_range.
  apply createTasks_loop_skips. intros k Hk.
  unfold Worker.ceil_div.
  pose proof (Z.div_mod (- height) nthreads ltac:(lia)) as Hdiv.
  pose proof (Z.mod_pos_bound (- height) nthreads ltac:(lia)) as Hmod.
  assert (0 <= - height / nthreads) by (apply Z.div_pos; lia).
  nia.
Qed.

(** For a height and a worker count of at least 1, [createTasks] gives at
    least one task and at most [nthreads], every one a non-empty range of
    rows of the raster; for a height of 0 or less it gives none. *)
Theorem createTasks_shape (height nthreads : Z) :
  1 <= nthreads ->
  let tasks := Worker.createTasks height nthreads in
  if 1 <=? height
  then 1 <= Z.of_nat (length tasks) <= nthreads /\
       forall t, t ∈ tasks ->
                 0 <= Task.row_start t /\ Task.row_start t < Task.row_end t /\
                 Task.row_end t <= height
  else tasks = [].
Proof.
  intros Hn tasks. destruct (Z.leb_spec 1 height) as [Hh|Hh].
  - pose proof (createTasks_contiguous height nthreads Hh Hn) as Hc. fold tasks in Hc.
    split; [split|].
    + destruct tasks; [inversion Hc; [lia|]|cbn [length]; lia].
      match goal with H : _ ++ [_] = [] |- _ => destruct (app_cons_not_nil _ _ _ (eq_sym H)) end.
    + subst tasks. unfold Worker.createTasks, for_range.
      pose proof (createTasks_loop_length (Worker.ceil_div height nthreads) height
                    (Z.to_nat (nthreads - 0)) 0 []) as Hl.
      cbn [length] in Hl. lia.
    + apply (contiguous_bounds _ _ _ Hc).
  - apply createTasks_no_rows; lia.
Qed.

Lemma createTasks_shape_witness :
  let tasks := Worker.createTasks 5 4 in
  if 1 <=? 5
  then 1 <= Z.of_nat (length tasks) <= 4 /\
       forall t, t ∈ tasks ->
                 0 <= Task.row_start t /\ Task.row_start t < Task.row_end t /\
                 Task.row_end t <= 5
  else tasks = [].
Proof. apply (createTasks_shape 5 4). lia. Defined.

(** *** The listeners of the tasks *)

(** A message no listener of an unsettled task acts on. *)
Lemma deliver_ignored (nthreads : Z) (a : WorkerThread.answer) (unsettled : list nat)
    (c : SyncUtils.CompletionCoordinator.t) :
  (forall j, j ∈ unsettled ->
             (if WorkerPool.hears nthreads j a then WorkerPool.messageListener j a
              else WorkerPool.Ignore) = WorkerPool.Ignore) ->
  WorkerPool.deliver nthreads a unsettled c = (unsettled, c, None).
Proof.
  induction unsettled as [|j rest IH]; intros Hign; [reflexivity|].
  cbn [WorkerPool.deliver]. rewrite (Hign j ltac:(left)).
  rewrite IH by (intros k Hk; apply Hign; right; exact Hk). reflexivity.
Qed.

(** The completion message of task [i] is for the listener of task [i]
    alone. *)
Lemma completed_by_listener (nthreads : Z) (i j : nat) (a : WorkerThread.answer) :
  completed_by nthreads i a ->
  (if WorkerPool.hears nthreads j a then WorkerPool.messageListener j a
   else WorkerPool.Ignore) =
  if Nat.eqb j i then WorkerPool.Resolve else WorkerPool.Ignore.
Proof.
  unfold completed_by. intros ->. unfold WorkerPool.hears, WorkerPool.messageListener.
  cbn [WorkerPool.threadId_of WorkerPool.taskId_of WorkerPool.taskId_is].
  destruct (Nat.eqb_spec j i) as [->|Hne].
  - rewrite !Z.eqb_refl. reflexivity.
  - destruct (Z.eqb_spec (Z.of_nat i) (Z.of_nat j)); [lia|].
    destruct (_ =? _); reflexivity.
Qed.

Lemma deliver_completed (nthreads : Z) (i : nat) (a : WorkerThread.answer)
    (c : SyncUtils.CompletionCoordinator.t) :
  completed_by nthreads i a ->
  forall unsettled : list nat,
    NoDup unsettled -> i ∈ unsettled ->
    exists unsettled',
      WorkerPool.deliver nthreads a unsettled c =
      (unsettled',
       SyncUtils.CompletionCoordinator.state_of (SyncUtils.CompletionCoordinator.taskCompleted 0%nat c),
       None) /\
      NoDup unsettled' /\
      forall j, j ∈ unsettled' <-> j ∈ unsettled /\ j <> i.
Proof.
  intros Ha. induction unsettled as [|j rest IH]; intros Hnd Hi.
  - apply elem_of_nil in Hi. destruct Hi.
  - apply NoDup_cons in Hnd as [Hj Hnd].
    cbn [WorkerPool.deliver]. rewrite (completed_by_listener nthreads i j a Ha).
    destruct (Nat.eqb_spec j i) as [->|Hne].
    + exists rest. split; [|split; [assumption|]].
      * apply deliver_ignored. intros k Hk.
        rewrite (completed_by_listener nthreads i k a Ha).
        destruct (Nat.eqb_spec k i) as [->|]; [contradiction|reflexivity].
      * intros k. rewrite elem_of_cons. split.
        -- intros Hk. split; [right; assumption|]. intros ->. contradiction.
        -- intros [[->|Hk] Hki]; [contradiction|assumption].
    + apply elem_of_cons in Hi as [->|Hi]; [contradiction|].
      destruct (IH Hnd Hi) as (u & Hu & Hndu & Hmem). rewrite Hu.
      exists (j :: u). split; [reflexivity|]. split.
      * apply NoDup_cons. split; [|assumption]. rewrite Hmem. tauto.
      * intros k. rewrite !elem_of_cons, Hmem. split.
        -- intros [->|[Hk Hki]]; [split; [left; reflexivity|assumption]|].
           split; [right; assumption|assumption].
        -- intros [[->|Hk] Hki]; [left; reflexivity|right; split; assumption].
Qed.

(** When the messages are the completion messages of the unsettled tasks,
    one for each, [Promise.all] is fulfilled after as many calls of
    [taskCompleted]. *)
Lemma await_all_completed (nthreads : Z) (ids : list nat)
    (messages : list WorkerThread.answer) :
  Forall2 (completed_by nthreads) ids messages ->
  forall (unsettled : list nat) (c : SyncUtils.CompletionCoordinator.t),
    NoDup ids -> NoDup unsettled -> (forall j, j ∈ unsettled <-> j ∈ ids) ->
    WorkerPool.await_all nthreads unsettled c messages =
    ([], SyncUtils.CompletionCoordinator.calls (replicate (length ids) 0%nat) c, None).
Proof.
  induction 1 as [|i a ids messages Ha _ IH]; intros unsettled c Hids Hnd Hmem.
  - destruct unsettled as [|j rest]; [reflexivity|].
    pose proof (proj1 (Hmem j) ltac:(left)) as Hj. apply elem_of_nil in Hj. destruct Hj.
  - apply NoDup_cons in Hids as [Hi Hids].
    destruct (deliver_completed nthreads i a c Ha unsettled Hnd
                (proj2 (Hmem i) ltac:(left))) as (u & Hu & Hndu & Hmemu).
    cbn [WorkerPool.await_all]. rewrite Hu.
    rewrite (IH u _ Hids Hndu).
    + reflexivity.
    + intros j. rewrite Hmemu, Hmem, elem_of_cons. split.
      * intros [[->|Hj] Hne]; [contradiction|assumption].
      * intros Hj. split; [right; assumption|]. intros ->. contradiction.
Qed.

(** A [TASK_ERROR] message has no [taskId]: no listener acts on it. *)
Lemma await_all_errors (nthreads : Z) (messages : list WorkerThread.answer) :
  Forall is_error messages ->
  forall (unsettled : list nat) (c : SyncUtils.CompletionCoordinator.t),
    WorkerPool.await_all nthreads unsettled c messages = (unsettled, c, None).
Proof.
  induction 1 as [|a messages (threadId & task & error & ->) _ IH]; intros unsettled c;
    [reflexivity|].
  cbn [WorkerPool.await_all]. rewrite deliver_ignored.
  - apply IH.
  - intros j _. destruct (WorkerPool.hears nthreads j _); reflexivity.
Qed.

(** The indices carried by the posted tasks, in any order of the tasks. *)
Lemma post_index_imap (inputPgm : PGM.t) (mode : Z) (t1 t2 : num) (nthreads : Z)
    (tasks : list Task.t) :
  forall k : nat,
    map post_index
      (imap (fun i => WorkerPool.post inputPgm mode t1 t2 nthreads (k + i)) tasks) =
    seq k (length tasks).
Proof.
  induction tasks as [|task tasks IH]; intros k; [reflexivity|].
  cbn [imap map length seq]. f_equal.
  - unfold post_index, WorkerPool.post. cbn [snd]. rewrite Nat.add_0_r. apply Nat2Z.id.
  - rewrite <- (IH (S k)). f_equal. apply imap_ext. intros i x _. cbn.
    f_equal. lia.
Qed.

Lemma createTasks_nonempty (height nthreads : Z) :
  1 <= height -> 1 <= nthreads ->
  (1 <= length (Worker.createTasks height nthreads))%nat.
Proof.
  intros Hh Hn. pose proof (createTasks_contiguous _ _ Hh Hn) as Hc.
  destruct (Worker.createTasks height nthreads); [inversion Hc; [lia|]|cbn [length]; lia].
  match goal with H : _ ++ [_] = [] |- _ => destruct (app_cons_not_nil _ _ _ (eq_sym H)) end.
Qed.

(** The pool filters every pixel. For a raster of at least one row whose
    data has [w * h] bytes, with at least one worker and mode 0 or 1,
    [processWithThreadPool] resolves, whatever the order in which the workers
    run the posted tasks, with the raster of the same width, height and
    maximum whose bytes are the filtered input bytes, one by one. *)
Theorem pool_filters_every_pixel (inputPgm : PGM.t) (mode : Z) (t1 t2 : num)
    (nthreads : Z)
    (schedule : list (WorkerThread.workerData * WorkerThread.message) ->
                list (WorkerThread.workerData * WorkerThread.message)) :
  1 <= PGM.h inputPgm ->
  1 <= nthreads ->
  Z.of_nat (length (PGM.data inputPgm)) = PGM.w inputPgm * PGM.h inputPgm ->
  mode = MODE_NEG \/ mode = MODE_SLICE ->
  (forall posted, schedule posted ≡ₚ posted) ->
  WorkerPool.processWithThreadPool inputPgm mode t1 t2 nthreads schedule =
  WorkerPool.Resolved
    (PGM.mk (PGM.w inputPgm) (PGM.h inputPgm) (PGM.maxv inputPgm)
       (filtered mode t1 t2 (PGM.maxv inputPgm) <$> PGM.data inputPgm)).
Proof.
  intros Hh Hn Hsize Hmode Hperm. unfold WorkerPool.processWithThreadPool.
  unfold WorkerPool.new_PGM.
  destruct (Z.ltb_spec (PGM.w inputPgm * PGM.h inputPgm) 0); [lia|].
  cbn [PGM.w PGM.h PGM.maxv].
  set (tasks := Worker.createTasks (PGM.h inputPgm) nthreads).
  set (posted := imap (WorkerPool.post inputPgm mode t1 t2 nthreads) tasks).
  set (order := schedule posted).
  pose proof (createTasks_contiguous _ _ Hh Hn) as Hc. fold tasks in Hc.
  assert (Hposts : forall p, p ∈ order ->
            exists i task, p = WorkerPool.post inputPgm mode t1 t2 nthreads i task).
  { intros p Hp. subst order. rewrite (Hperm posted) in Hp.
    apply elem_of_lookup_imap_1 in Hp as (i & task & -> & _). eauto. }
  pose proof (run_posts inputPgm mode t1 t2 nthreads Hmode order Hposts
                (WorkerPool.initial_store inputPgm)) as Hrun.
  cbv zeta in Hrun.
  destruct (WorkerPool.run order (WorkerPool.initial_store inputPgm)) as [st answers].
  cbn [fst snd] in Hrun. destruct Hrun as (Hin & Hlen & Hget & Hcomp).
  assert (Hids : map post_index order ≡ₚ seq 0 (length tasks)).
  { subst order. rewrite (Hperm posted). subst posted.
    rewrite <- (post_index_imap inputPgm mode t1 t2 nthreads tasks 0). reflexivity. }
  assert (Hk : length (map post_index order) = length tasks)
    by (rewrite Hids; apply length_seq).
  assert (Hne : (1 <= length tasks)%nat) by (apply createTasks_nonempty; assumption).
  rewrite (await_all_completed nthreads _ _ Hcomp).
  2:{ rewrite Hids. apply NoDup_seq. }
  2:{ apply NoDup_seq. }
  2:{ intros j. rewrite Hids. reflexivity. }
  rewrite calls_new, length_replicate, Hk. unfold coordinator_after.
  destruct (Z.leb_spec (Z.max (Z.of_nat (length tasks)) 1) (Z.of_nat (length tasks)));
    [|lia].
  cbn. do 2 f_equal.
  apply list_eq. intros i.
  rewrite <- ta_get_of_nat, Hget, list_lookup_fmap.
  unfold WorkerPool.initial_store, WorkerPool.inputBuffer, WorkerPool.outputBuffer.
  cbn [Nat.eqb]. unfold Buffer_alloc. rewrite Nat2Z.id, !ta_get_of_nat.
  destruct (PGM.data inputPgm !! i) as [r|] eqn:Hr.
  - pose proof (lookup_lt_Some _ _ _ Hr) as Hi.
    rewrite (lookup_replicate_2 _ 0 _ Hi). cbn [of_read fmap option_fmap option_map].
    replace (existsb _ order) with true; [reflexivity|].
    symmetry. apply existsb_exists.
    assert (Hw : 0 < PGM.w inputPgm) by nia.
    set (j := Z.of_nat i). set (row := j / PGM.w inputPgm).
    assert (Hrow : 0 <= row < PGM.h inputPgm).
    { subst row. split; [apply Z.div_pos; lia|].
      apply Z.div_lt_upper_bound; [lia|]. lia. }
    destruct (proj1 (contiguous_cover _ _ _ Hc row) Hrow) as (t & Ht & Hin_t).
    apply list_elem_of_lookup in Ht as [k Hk'].
    exists (WorkerPool.post inputPgm mode t1 t2 nthreads k t). split.
    + apply list_elem_of_In. subst order. rewrite (Hperm posted).
      subst posted. apply elem_of_lookup_imap_2. assumption.
    + unfold in_block, WorkerPool.post. cbn [snd].
      unfold in_task in Hin_t.
      pose proof (Z.div_mod j (PGM.w inputPgm) ltac:(lia)) as Hdm.
      pose proof (Z.mod_pos_bound j (PGM.w inputPgm) Hw) as Hmb.
      fold row in Hdm.
      apply andb_true_iff. split; [apply Z.leb_le|apply Z.ltb_lt]; nia.
  - cbn [fmap option_fmap option_map].
    pose proof (proj1 (lookup_ge_None _ _) Hr) as Hi.
    rewrite (lookup_ge_None_2 (replicate _ 0) i) by (rewrite length_replicate; exact Hi).
    destruct (existsb _ order); reflexivity.
Qed.

Lemma pool_filters_every_pixel_witness :
  WorkerPool.processWithThreadPool scenario_pgm MODE_NEG (Num 0) (Num 255) 2 (@rev _) =
  WorkerPool.Resolved
    (PGM.mk (PGM.w scenario_pgm) (PGM.h scenario_pgm) (PGM.maxv scenario_pgm)
       (filtered MODE_NEG (Num 0) (Num 255) (PGM.maxv scenario_pgm)
          <$> PGM.data scenario_pgm)).
Proof.
  apply (pool_filters_every_pixel scenario_pgm MODE_NEG (Num 0) (Num 255) 2 (@rev _)).
  - cbn. lia.
  - lia.
  - reflexivity.
  - left. reflexivity.
  - intros posted. symmetry. apply Permutation_rev.
Defined.

Example pool_negative_scenario :
  WorkerPool.processWithThreadPool scenario_pgm MODE_NEG (Num 0) (Num 255) 2 (@rev _) =
  WorkerPool.Resolved
    (PGM.mk 4 4 255
       [245; 235; 225; 215; 205; 195; 185; 175; 165; 155; 145; 135; 125; 115; 105; 95]).
Proof. vm_compute. reflexivity. Qed.

(** A negative size rejects the pool at once: [new PGM(w, h, maxv)]
    allocates [w * h] bytes before anything else. *)
Lemma pool_rejects_negative_size (inputPgm : PGM.t) (mode : Z) (t1 t2 : num)
    (nthreads : Z)
    (schedule : list (WorkerThread.workerData * WorkerThread.message) ->
                list (WorkerThread.workerData * WorkerThread.message)) :
  PGM.w inputPgm * PGM.h inputPgm < 0 ->
  WorkerPool.processWithThreadPool inputPgm mode t1 t2 nthreads schedule =
  WorkerPool.Rejected (WorkerPool.RangeError (PGM.w inputPgm * PGM.h inputPgm)).
Proof.
  intros Hneg. unfold WorkerPool.processWithThreadPool, WorkerPool.new_PGM.
  destruct (Z.ltb_spec (PGM.w inputPgm * PGM.h inputPgm) 0); [reflexivity|lia].
Qed.

Example pool_rejects_negative_height :
  WorkerPool.processWithThreadPool (PGM.mk 2 (-3) 255 []) MODE_NEG (Num 0) (Num 255) 4
    (fun posted => posted) =
  WorkerPool.Rejected (WorkerPool.RangeError (-6)).
Proof. reflexivity. Qed.

(** A raster without rows hangs the pool. For a raster of [w * h] bytes
    with a height of 0 or less, the output raster is allocated, there is no
    task, [Promise.all] of no promise is fulfilled, the coordinator is
    created with 0 tasks and never signalled, and [processWithThreadPool]
    never settles. *)
Theorem pool_hangs_without_rows (inputPgm : PGM.t) (mode : Z) (t1 t2 : num)
    (nthreads : Z)
    (schedule : list (WorkerThread.workerData * WorkerThread.message) ->
                list (WorkerThread.workerData * WorkerThread.message)) :
  PGM.h inputPgm <= 0 ->
  1 <= nthreads ->
  Z.of_nat (length (PGM.data inputPgm)) = PGM.w inputPgm * PGM.h inputPgm ->
  (forall posted, schedule posted ≡ₚ posted) ->
  WorkerPool.processWithThreadPool inputPgm mode t1 t2 nthreads schedule = WorkerPool.Hangs.
Proof.
  intros Hh Hn Hsize Hperm. unfold WorkerPool.processWithThreadPool, WorkerPool.new_PGM.
  destruct (Z.ltb_spec (PGM.w inputPgm * PGM.h inputPgm) 0); [lia|].
  rewrite createTasks_no_rows by assumption. cbn [imap length].
  rewrite (proj1 (Permutation_nil_r _) (Hperm [])). reflexivity.
Qed.

Lemma pool_hangs_without_rows_witness :
  WorkerPool.processWithThreadPool (PGM.mk 4 0 255 []) MODE_NEG (Num 0) (Num 255) 4
    (fun posted => posted) = WorkerPool.Hangs.
Proof.
  apply (pool_hangs_without_rows (PGM.mk 4 0 255 []) MODE_NEG (Num 0) (Num 255) 4
           (fun posted => posted)).
  - cbn. lia.
  - lia.
  - reflexivity.
  - reflexivity.
Defined.

(** With a mode other than 0 and 1 a worker answers a task by
    [TASK_ERROR] and writes nothing. *)
Lemma on_message_invalid_mode (inputPgm : PGM.t) (mode : Z) (t1 t2 : num)
    (nthreads : Z) (i : nat) (task : Task.t) (st : store) :
  mode <> MODE_NEG -> mode <> MODE_SLICE ->
  let p := WorkerPool.post inputPgm mode t1 t2 nthreads i task in
  WorkerThread.on_message p.1 p.2 st =
  (st, WorkerThread.TASK_ERROR (Z.rem (Z.of_nat i) nthreads) task
         (FilterDispatch.InvalidMode mode)).
Proof.
  intros Hneg Hslice. cbn [WorkerPool.post fst snd WorkerThread.on_message].
  unfold FilterDispatch.applyFilter. cbn [WorkerThread.mode].
  destruct (Z.eqb_spec mode MODE_NEG); [contradiction|].
  destruct (Z.eqb_spec mode MODE_SLICE); [contradiction|]. reflexivity.
Qed.

Lemma run_invalid_mode (inputPgm : PGM.t) (mode : Z) (t1 t2 : num) (nthreads : Z)
    (order : list (WorkerThread.workerData * WorkerThread.message)) :
  mode <> MODE_NEG -> mode <> MODE_SLICE ->
  (forall p, p ∈ order ->
             exists i task, p = WorkerPool.post inputPgm mode t1 t2 nthreads i task) ->
  forall st : store,
    (WorkerPool.run order st).1 = st /\ Forall is_error (WorkerPool.run order st).2.
Proof.
  intros Hneg Hslice. induction order as [|p order IH]; intros Hposts st.
  - cbn. split; [reflexivity|constructor].
  - destruct (Hposts p ltac:(left)) as (i & task & ->).
    pose proof (on_message_invalid_mode inputPgm mode t1 t2 nthreads i task st Hneg Hslice)
      as Hmsg.
    cbv zeta in Hmsg. cbn [WorkerPool.run].
    destruct (WorkerPool.post inputPgm mode t1 t2 nthreads i task) as [wd m].
    cbn [fst snd] in Hmsg. rewrite Hmsg.
    specialize (IH ltac:(intros q Hq; apply Hposts; right; exact Hq) st).
    destruct (WorkerPool.run order st) as [st' answers]. cbn [fst snd] in *.
    destruct IH as [Hst Herr]. split; [assumption|].
    constructor; [|assumption]. do 3 eexists. reflexivity.
Qed.

(** An error in a task hangs the pool. With a mode other than 0 and 1, for
    a raster of at least one row, every worker answers its tasks by
    [TASK_ERROR]; that message carries the task and no [taskId], so the
    listener of no task rejects its promise: [Promise.all] never settles,
    and [processWithThreadPool] neither rejects nor resolves, whatever the
    order in which the workers run the tasks. *)
Theorem pool_hangs_on_task_error (inputPgm : PGM.t) (mode : Z) (t1 t2 : num)
    (nthreads : Z)
    (schedule : list (WorkerThread.workerData * WorkerThread.message) ->
                list (WorkerThread.workerData * WorkerThread.message)) :
  mode <> MODE_NEG -> mode <> MODE_SLICE ->
  1 <= PGM.h inputPgm ->
  1 <= nthreads ->
  Z.of_nat (length (PGM.data inputPgm)) = PGM.w inputPgm * PGM.h inputPgm ->
  (forall posted, schedule posted ≡ₚ posted) ->
  WorkerPool.processWithThreadPool inputPgm mode t1 t2 nthreads schedule = WorkerPool.Hangs.
Proof.
  intros Hneg Hslice Hh Hn Hsize Hperm.
  unfold WorkerPool.processWithThreadPool, WorkerPool.new_PGM.
  destruct (Z.ltb_spec (PGM.w inputPgm * PGM.h inputPgm) 0); [lia|].
  set (tasks := Worker.createTasks (PGM.h inputPgm) nthreads).
  set (posted := imap (WorkerPool.post inputPgm mode t1 t2 nthreads) tasks).
  set (order := schedule posted).
  assert (Hposts : forall p, p ∈ order ->
            exists i task, p = WorkerPool.post inputPgm mode t1 t2 nthreads i task).
  { intros p Hp. subst order. rewrite (Hperm posted) in Hp.
    apply elem_of_lookup_imap_1 in Hp as (i & task & -> & _). eauto. }
  destruct (run_invalid_mode inputPgm mode t1 t2 nthreads order Hneg Hslice Hposts
              (WorkerPool.initial_store inputPgm)) as [_ Herr].
  destruct (WorkerPool.run order (WorkerPool.initial_store inputPgm)) as [st messages].
  cbn [snd] in Herr. rewrite (await_all_errors nthreads messages Herr).
  pose proof (createTasks_nonempty _ _ Hh Hn) as Hne. fold tasks in Hne.
  destruct tasks as [|task tasks']; [cbn [length] in Hne; lia|]. reflexivity.
Qed.

Lemma pool_hangs_on_task_error_witness :
  WorkerPool.processWithThreadPool scenario_pgm 2 (Num 0) (Num 255) 2 (@rev _) =
  WorkerPool.Hangs.
Proof.
  apply (pool_hangs_on_task_error scenario_pgm 2 (Num 0) (Num 255) 2 (@rev _)).
  - discriminate.
  - discriminate.
  - cbn. lia.
  - lia.
  - reflexivity.
  - intros posted. symmetry. apply Permutation_rev.
Defined.

End PoolResults.

(** ** More on the command line of worker.js *)

Section ParseArgsMore.
Import Js Spec PgmUtils.

(** What [parseArgs] returns when it returns: there are at least three
    arguments, the two paths are the first two, the mode is 0 or 1, the
    worker count is a number from 1 to 32 or NaN, and each limit of the
    slice is a number from 0 to 255 or NaN, with [t1 <= t2] when both are
    numbers. *)
Theorem parseArgs_returns_checked_values (args : list string) (c : Worker.config) :
  Worker.parseArgs args = Worker.Parsed c ->
  (3 <= length args)%nat /\
  Worker.fifoPath c = Worker.arg args 0 /\
  Worker.outputPath c = Worker.arg args 1 /\
  (Worker.mode c = MODE_NEG \/ Worker.mode c = MODE_SLICE) /\
  match Worker.nthreads c with Num n => 1 <= n <= 32 | NaN => True end /\
  match Worker.t1 c with Num a => 0 <= a <= 255 | NaN => True end /\
  match Worker.t2 c with Num b => 0 <= b <= 255 | NaN => True end /\
  match Worker.t1 c, Worker.t2 c with Num a, Num b => a <= b | _, _ => True end.
Proof.
  unfold Worker.parseArgs.
  destruct (Nat.ltb_spec (length args) 3) as [|Hlen]; [discriminate|].
  assert (Hcheck : forall c0, Worker.check_nthreads c0 = Worker.Parsed c ->
            c0 = c /\ match Worker.nthreads c with Num n => 1 <= n <= 32 | NaN => True end).
  { intros c0. unfold Worker.check_nthreads, lt, gt, lt.
    destruct (Worker.nthreads c0) as [n|] eqn:Hn.
    - destruct (Z.ltb_spec n 1); [discriminate|].
      destruct (Z.ltb_spec 32 n); [discriminate|].
      cbn [orb]. intros [= <-]. rewrite Hn. split; [reflexivity|lia].
    - cbn [orb]. intros [= <-]. rewrite Hn. split; [reflexivity|exact I]. }
  destruct (String.eqb (Worker.arg args 2) "negativo").
  - intros Hp. apply Hcheck in Hp as [<- Hn]. cbn.
    repeat split; try assumption; lia.
  - destruct (String.eqb (Worker.arg args 2) "slice"); [|discriminate].
    destruct (length args <? 5)%nat; [discriminate|].
    destruct (Filters.validateSliceParams _ _ _) eqn:Hv; [discriminate|].
    intros Hp. apply Hcheck in Hp as [<- Hn]. cbn.
    unfold Filters.validateSliceParams, lt, gt, lt in Hv.
    destruct (parseInt (Worker.arg args 3)) as [a|], (parseInt (Worker.arg args 4)) as [b|];
      cbn [orb] in Hv;
      repeat match type of Hv with
             | context [?x <? ?y] => destruct (Z.ltb_spec x y); cbn [orb] in Hv
             end;
      try discriminate;
      (split; [assumption|]); repeat split; first [assumption | exact I | lia].
Qed.

Lemma parseArgs_returns_checked_values_witness :
  (3 <= length ["/tmp/imgpipe"; "out.pgm"; "slice"; "50"; "100"; "8"]%string)%nat /\
  Worker.fifoPath
    (Worker.mkConfig "/tmp/imgpipe" "out.pgm" MODE_SLICE (Num 50) (Num 100) (Num 8)) =
    Worker.arg ["/tmp/imgpipe"; "out.pgm"; "slice"; "50"; "100"; "8"]%string 0 /\
  Worker.outputPath
    (Worker.mkConfig "/tmp/imgpipe" "out.pgm" MODE_SLICE (Num 50) (Num 100) (Num 8)) =
    Worker.arg ["/tmp/imgpipe"; "out.pgm"; "slice"; "50"; "100"; "8"]%string 1 /\
  (Worker.mode
     (Worker.mkConfig "/tmp/imgpipe" "out.pgm" MODE_SLICE (Num 50) (Num 100) (Num 8)) =
   MODE_NEG \/
   Worker.mode
     (Worker.mkConfig "/tmp/imgpipe" "out.pgm" MODE_SLICE (Num 50) (Num 100) (Num 8)) =
   MODE_SLICE) /\
  match Worker.nthreads
          (Worker.mkConfig "/tmp/imgpipe" "out.pgm" MODE_SLICE (Num 50) (Num 100) (Num 8))
  with Num n => 1 <= n <= 32 | NaN => True end /\
  match Worker.t1
          (Worker.mkConfig "/tmp/imgpipe" "out.pgm" MODE_SLICE (Num 50) (Num 100) (Num 8))
  with Num a => 0 <= a <= 255 | NaN => True end /\
  match Worker.t2
          (Worker.mkConfig "/tmp/imgpipe" "out.pgm" MODE_SLICE (Num 50) (Num 100) (Num 8))
  with Num b => 0 <= b <= 255 | NaN => True end /\
  match Worker.t1
          (Worker.mkConfig "/tmp/imgpipe" "out.pgm" MODE_SLICE (Num 50) (Num 100) (Num 8)),
        Worker.t2
          (Worker.mkConfig "/tmp/imgpipe" "out.pgm" MODE_SLICE (Num 50) (Num 100) (Num 8))
  with Num a, Num b => a <= b | _, _ => True end.
Proof.
  apply (parseArgs_returns_checked_values
           ["/tmp/imgpipe"; "out.pgm"; "slice"; "50"; "100"; "8"]%string
           (Worker.mkConfig "/tmp/imgpipe" "out.pgm" MODE_SLICE (Num 50) (Num 100) (Num 8))).
  reflexivity.
Defined.

End ParseArgsMore.


Section PgmFileProofs.
Import Js Spec PgmUtils PoolSpec FileSpec.

Example writePGM_scenario_header :
  take 11 (PgmFile.writePGM scenario_pgm) = [80; 53; 10; 52; 32; 52; 10; 50; 53; 53; 10].
Proof. vm_compute. reflexivity. Qed.

Example readPGM_writePGM_negative :
  PgmFile.readPGM (PgmFile.writePGM (PGM.mk (-2) (-3) 65535 [1; 10; 35; 32; 200; 255])) =
  inl (PGM.mk (-2) (-3) 65535 [1; 10; 35; 32; 200; 255]).
Proof. vm_compute. reflexivity. Qed.

Lemma parseInt_unfold (s : string) :
  parseInt s =
  let '(sign, s1) := strip_sign (skip_white_space s) in
  let '(radix, s2) := strip_prefix s1 in
  match read_digits radix s2 None with
  | Some m => Num (sign * m)
  | None => NaN
  end.
Proof. reflexivity. Qed.

Lemma length_append (a b : string) :
  String.length (String.append a b) = (String.length a + String.length b)%nat.
Proof. induction a as [|c a IH]; cbn; [reflexivity|]. rewrite IH. reflexivity. Qed.

Lemma all_chars_append (P : ascii -> bool) (a b : string) :
  all_chars P (String.append a b) = all_chars P a && all_chars P b.
Proof.
  induction a as [|c a IH]; cbn; [reflexivity|]. rewrite IH, andb_assoc. reflexivity.
Qed.

Lemma all_chars_impl (P Q : ascii -> bool) (s : string) :
  (forall c, P c = true -> Q c = true) -> all_chars P s = true -> all_chars Q s = true.
Proof.
  intros HPQ. induction s as [|c s IH]; cbn; [reflexivity|].
  intros H. apply andb_true_iff in H as [Hc Hs].
  rewrite (HPQ c Hc), (IH Hs). reflexivity.
Qed.

(** The characters of a printed number: digits, after a minus sign for a
    negative one. *)
Lemma digit_char_cases (d : Z) :
  0 <= d < 10 ->
  is_digit (PgmFile.digit_char d) = true /\
  digit_in 10 (PgmFile.digit_char d) = Some d.
Proof.
  intros Hd.
  assert (d = 0 \/ d = 1 \/ d = 2 \/ d = 3 \/ d = 4 \/ d = 5 \/ d = 6 \/ d = 7 \/
          d = 8 \/ d = 9) as Hcases by lia.
  repeat (destruct Hcases as [->|Hcases]; [split; reflexivity|]).
  subst d. split; reflexivity.
Qed.

Lemma digits_of_chars (fuel : nat) :
  forall (n : Z) (acc : string),
    0 <= n -> all_chars is_digit acc = true ->
    all_chars is_digit (PgmFile.digits_of fuel n acc) = true.
Proof.
  induction fuel as [|fuel IH]; intros n acc Hn Hacc; cbn [PgmFile.digits_of];
    [assumption|].
  assert (Hd : all_chars is_digit (String (PgmFile.digit_char (n mod 10)) acc) = true).
  { cbn [all_chars]. rewrite Hacc, andb_true_r.
    apply digit_char_cases. apply Z.mod_pos_bound. lia. }
  destruct (n <? 10); [assumption|].
  apply IH; [apply Z.div_pos; lia|assumption].
Qed.

Lemma digits_of_length (fuel : nat) :
  forall (n : Z) (acc : string),
    (String.length (PgmFile.digits_of fuel n acc) <= fuel + String.length acc)%nat.
Proof.
  induction fuel as [|fuel IH]; intros n acc; cbn [PgmFile.digits_of]; [lia|].
  destruct (n <? 10); [cbn [String.length]; lia|].
  etransitivity; [apply IH|]. cbn [String.length]. lia.
Qed.

Lemma digits_of_nonempty (fuel : nat) (n : Z) (acc : string) :
  exists c s, PgmFile.digits_of (S fuel) n acc = String c s.
Proof.
  revert n acc. induction fuel as [|fuel IH]; intros n acc.
  - cbn. destruct (n <? 10); eauto.
  - cbn [PgmFile.digits_of]. destruct (n <? 10); [eauto|]. apply IH.
Qed.

Lemma digits_of_value (fuel : nat) :
  forall (n : Z) (acc : string),
    0 <= n < 10 ^ Z.of_nat (S fuel) ->
    read_digits 10 (PgmFile.digits_of (S fuel) n acc) None = read_digits 10 acc (Some n).
Proof.
  induction fuel as [|fuel IH]; intros n acc Hn.
  - change (10 ^ Z.of_nat 1) with 10 in Hn.
    cbn [PgmFile.digits_of]. rewrite Z.mod_small by lia.
    destruct (n <? 10); cbn [read_digits];
      rewrite (proj2 (digit_char_cases n ltac:(lia))); reflexivity.
  - remember (S fuel) as f eqn:Hf. cbn [PgmFile.digits_of].
    destruct (Z.ltb_spec n 10) as [Hsmall|Hbig].
    + cbn [read_digits]. rewrite Z.mod_small by lia.
      rewrite (proj2 (digit_char_cases n ltac:(lia))). reflexivity.
    + subst f. rewrite IH.
      * cbn [read_digits].
        rewrite (proj2 (digit_char_cases (n mod 10) ltac:(apply Z.mod_pos_bound; lia))).
        do 2 f_equal. pose proof (Z.div_mod n 10 ltac:(lia)). lia.
      * split; [apply Z.div_pos; lia|].
        apply Z.div_lt_upper_bound; [lia|].
        replace (Z.of_nat (S (S fuel))) with (Z.succ (Z.of_nat (S fuel))) in Hn by lia.
        rewrite Z.pow_succ_r in Hn by lia. lia.
Qed.

Lemma pow2_le_pow10 (k : Z) : 0 <= k -> 2 ^ k <= 10 ^ k.
Proof. intros Hk. apply Z.pow_le_mono_l. lia. Qed.

Lemma digits_fuel (n : Z) :
  0 <= n -> 0 <= n < 10 ^ Z.of_nat (S (Z.to_nat (Z.log2 n))).
Proof.
  intros Hn. split; [assumption|].
  pose proof (Z.log2_nonneg n) as Hl.
  replace (Z.of_nat (S (Z.to_nat (Z.log2 n)))) with (Z.succ (Z.log2 n)) by lia.
  destruct (Z.eq_dec n 0) as [->|Hne].
  - change (Z.log2 0) with 0. reflexivity.
  - pose proof (Z.log2_spec n ltac:(lia)) as [_ Hup].
    pose proof (pow2_le_pow10 (Z.succ (Z.log2 n)) ltac:(lia)). lia.
Qed.

Lemma is_digit_num_char (c : ascii) : is_digit c = true -> num_char c = true.
Proof. unfold num_char. intros ->. reflexivity. Qed.

Lemma num_char_cases (c : ascii) :
  num_char c = true -> is_digit c = true \/ c = "-"%char.
Proof.
  unfold num_char. intros H. apply orb_true_iff in H as [H|H]; [left; assumption|].
  right. apply Ascii.eqb_eq. assumption.
Qed.

Lemma is_digit_range (c : ascii) :
  is_digit c = true -> (48 <= nat_of_ascii c <= 57)%nat.
Proof.
  unfold is_digit. intros H. apply andb_true_iff in H as [H1 H2].
  apply Nat.leb_le in H1, H2. lia.
Qed.

Lemma num_char_solid (c : ascii) : num_char c = true -> solid c = true.
Proof.
  intros H. destruct (num_char_cases c H) as [Hd| ->]; [|reflexivity].
  apply is_digit_range in Hd. unfold solid, is_white_space. cbv zeta.
  destruct (Nat.leb_spec 9 (nat_of_ascii c)), (Nat.leb_spec (nat_of_ascii c) 13),
    (Nat.eqb_spec (nat_of_ascii c) 32), (Nat.eqb_spec (nat_of_ascii c) 160);
    cbn; first [reflexivity | lia].
Qed.

Lemma num_char_plain (c : ascii) : num_char c = true -> plain c = true.
Proof.
  intros H. destruct (num_char_cases c H) as [Hd| ->]; [|reflexivity].
  apply is_digit_range in Hd. unfold plain.
  destruct (Nat.ltb_spec (nat_of_ascii c) 128), (Nat.eqb_spec (nat_of_ascii c) 10);
    cbn; first [reflexivity | lia].
Qed.

Lemma num_char_not_hash (c : ascii) : num_char c = true -> Ascii.eqb c "#"%char = false.
Proof.
  intros H. destruct (Ascii.eqb_spec c "#"%char) as [->|]; [|reflexivity].
  vm_compute in H. discriminate H.
Qed.

Lemma plain_ascii7 (c : ascii) : plain c = true -> ascii7 c = true.
Proof. unfold plain, ascii7. intros H. apply andb_true_iff in H as [H _]. exact H. Qed.

Lemma plain_not_LF (c : ascii) : plain c = true -> Ascii.eqb c "010"%char = false.
Proof.
  intros H. destruct (Ascii.eqb_spec c "010"%char) as [->|]; [|reflexivity].
  vm_compute in H. discriminate H.
Qed.

(** *** Numbers in the header *)

Lemma Number_toString_chars (z : Z) :
  all_chars num_char (PgmFile.Number_toString z) = true.
Proof.
  unfold PgmFile.Number_toString. destruct (Z.ltb_spec z 0).
  - cbn [all_chars]. change (num_char "-"%char) with true. cbn [andb].
    apply (all_chars_impl is_digit); [apply is_digit_num_char|].
    apply digits_of_chars; [lia|reflexivity].
  - apply (all_chars_impl is_digit); [apply is_digit_num_char|].
    apply digits_of_chars; [lia|reflexivity].
Qed.

Lemma Number_toString_nonempty (z : Z) :
  exists c s, PgmFile.Number_toString z = String c s.
Proof.
  unfold PgmFile.Number_toString. destruct (z <? 0); [eauto|].
  apply digits_of_nonempty.
Qed.

Lemma Number_toString_length (z : Z) :
  safe_integer z -> (String.length (PgmFile.Number_toString z) <= 55)%nat.
Proof.
  unfold safe_integer. intros Hz.
  assert (Hlog : forall n, 0 <= n < 2 ^ 53 -> (Z.to_nat (Z.log2 n) <= 52)%nat).
  { intros n Hn. destruct (Z.eq_dec n 0) as [->|Hne]; [cbn; lia|].
    assert (Z.log2 n < 53) by (apply Z.log2_lt_pow2; lia).
    pose proof (Z.log2_nonneg n). lia. }
  unfold PgmFile.Number_toString. destruct (Z.ltb_spec z 0).
  - cbn [String.length].
    pose proof (digits_of_length (S (Z.to_nat (Z.log2 (- z)))) (- z) EmptyString) as Hl.
    pose proof (Hlog (- z) ltac:(lia)). cbn [String.length] in Hl. lia.
  - pose proof (digits_of_length (S (Z.to_nat (Z.log2 z))) z EmptyString) as Hl.
    pose proof (Hlog z ltac:(lia)). cbn [String.length] in Hl. lia.
Qed.

Lemma skip_white_space_solid (c : ascii) (s : string) :
  solid c = true -> skip_white_space (String c s) = String c s.
Proof.
  unfold solid. intros H. apply negb_true_iff in H. cbn [skip_white_space].
  rewrite H. reflexivity.
Qed.

Lemma strip_sign_digits (s : string) :
  all_chars is_digit s = true -> strip_sign s = (1, s).
Proof.
  destruct s as [|c s]; [reflexivity|]. cbn [all_chars]. intros H.
  apply andb_true_iff in H as [Hc _].
  destruct c as [[] [] [] [] [] [] [] []]; vm_compute in Hc;
    first [discriminate Hc | reflexivity].
Qed.

Lemma strip_prefix_digits (s : string) :
  all_chars is_digit s = true -> strip_prefix s = (10, s).
Proof.
  destruct s as [|c s]; [reflexivity|]. cbn [all_chars]. intros H.
  apply andb_true_iff in H as [Hc Hs].
  destruct c as [[] [] [] [] [] [] [] []]; vm_compute in Hc;
    first [discriminate Hc | reflexivity | idtac].
  destruct s as [|c s]; [reflexivity|]. cbn [all_chars] in Hs.
  apply andb_true_iff in Hs as [Hc' _].
  destruct c as [[] [] [] [] [] [] [] []]; vm_compute in Hc';
    first [discriminate Hc' | reflexivity].
Qed.

Lemma parseInt_digits (fuel : nat) (n : Z) :
  0 <= n < 10 ^ Z.of_nat (S fuel) ->
  parseInt (PgmFile.digits_of (S fuel) n EmptyString) = Num n.
Proof.
  intros Hn. rewrite parseInt_unfold.
  assert (Hd : all_chars is_digit (PgmFile.digits_of (S fuel) n EmptyString) = true)
    by (apply digits_of_chars; [lia|reflexivity]).
  destruct (digits_of_nonempty fuel n EmptyString) as (c & s & Hcs).
  assert (Hskip : skip_white_space (PgmFile.digits_of (S fuel) n EmptyString) =
                  PgmFile.digits_of (S fuel) n EmptyString).
  { rewrite Hcs in Hd |- *. cbn [all_chars] in Hd. apply andb_true_iff in Hd as [Hc _].
    apply skip_white_space_solid, num_char_solid, is_digit_num_char, Hc. }
  rewrite Hskip, (strip_sign_digits _ Hd), (strip_prefix_digits _ Hd).
  rewrite digits_of_value by assumption. cbn [read_digits].
  f_equal. lia.
Qed.

Lemma parseInt_Number_toString (z : Z) : parseInt (PgmFile.Number_toString z) = Num z.
Proof.
  unfold PgmFile.Number_toString. destruct (Z.ltb_spec z 0).
  - rewrite parseInt_unfold.
    set (ds := PgmFile.digits_of _ _ _).
    assert (Hd : all_chars is_digit ds = true)
      by (apply digits_of_chars; [lia|reflexivity]).
    rewrite skip_white_space_solid by reflexivity.
    change (strip_sign (String "-"%char ds)) with (-1, ds). cbv beta iota.
    rewrite (strip_prefix_digits _ Hd). subst ds.
    rewrite digits_of_value by (apply digits_fuel; lia). cbn [read_digits].
    f_equal. lia.
  - apply parseInt_digits, digits_fuel. assumption.
Qed.

(** *** Bytes and text *)

Lemma append_assoc' (a b c : string) :
  String.append (String.append a b) c = String.append a (String.append b c).
Proof. induction a as [|x a IH]; cbn; [reflexivity|]. rewrite IH. reflexivity. Qed.

Lemma length_Buffer_from_ascii (s : string) :
  length (PgmFile.Buffer_from_ascii s) = String.length s.
Proof. induction s as [|c s IH]; cbn; [reflexivity|]. rewrite IH. reflexivity. Qed.

Lemma ascii7_byte (c : ascii) :
  ascii7 c = true ->
  ascii_of_nat (Z.to_nat (Z.land (Z.of_nat (nat_of_ascii c)) 127)) = c.
Proof.
  unfold ascii7. intros H. apply Nat.ltb_lt in H.
  change 127 with (Z.ones 7). rewrite Z.land_ones by lia.
  rewrite Z.mod_small by (change (2 ^ 7) with 128; lia).
  rewrite Nat2Z.id. apply ascii_nat_embedding.
Qed.

Lemma toString_ascii_from (s : string) (rest : typed_array) :
  all_chars ascii7 s = true ->
  PgmFile.toString_ascii (PgmFile.Buffer_from_ascii s ++ rest) =
  String.append s (PgmFile.toString_ascii rest).
Proof.
  induction s as [|c s IH]; cbn [all_chars]; intros H; [reflexivity|].
  apply andb_true_iff in H as [Hc Hs].
  cbn [PgmFile.Buffer_from_ascii app PgmFile.toString_ascii String.append].
  rewrite (ascii7_byte c Hc), (IH Hs). reflexivity.
Qed.

(** *** Lines *)

Lemma split_line (a b : string) :
  all_chars plain a = true ->
  PgmFile.split "010"%char (String.append a (String "010"%char b)) =
  a :: PgmFile.split "010"%char b.
Proof.
  induction a as [|c a IH]; cbn [all_chars]; intros H.
  - reflexivity.
  - apply andb_true_iff in H as [Hc Ha].
    cbn [String.append PgmFile.split]. rewrite (plain_not_LF c Hc), (IH Ha).
    reflexivity.
Qed.

Lemma split_comment_lines (cs : list string) (rest : string) :
  Forall (fun c => all_chars plain c = true) cs ->
  PgmFile.split "010"%char (String.append (comment_lines cs) rest) =
  map (String "#"%char) cs ++ PgmFile.split "010"%char rest.
Proof.
  induction 1 as [|c cs Hc _ IH]; [reflexivity|].
  cbn [comment_lines map app].
  change (String.append (String "#"%char ?x) rest) with (String "#"%char (String.append x rest)).
  rewrite <- IH.
  change (String "#"%char
            (String.append (String.append c (String "010"%char (comment_lines cs))) rest))
    with (String.append
            (String.append (String "#"%char c) (String "010"%char (comment_lines cs))) rest).
  rewrite append_assoc'. cbn [String.append].
  change (String "#"%char (String.append c ?x)) with (String.append (String "#"%char c) x).
  apply split_line. cbn [all_chars]. rewrite Hc. reflexivity.
Qed.

Lemma skip_comments_lines (cs : list string) (lines : list string) (headerSize : Z) :
  PgmFile.skip_comments (map (String "#"%char) cs ++ lines) headerSize =
  PgmFile.skip_comments lines (headerSize + Z.of_nat (String.length (comment_lines cs))).
Proof.
  revert headerSize. induction cs as [|c cs IH]; intros headerSize.
  - cbn [map app comment_lines String.length]. f_equal. lia.
  - cbn [map app PgmFile.skip_comments PgmFile.startsWith_hash].
    change (Ascii.eqb "#" "#") with true. cbv iota. rewrite IH. f_equal.
    cbn [comment_lines String.length]. rewrite length_append. cbn [String.length]. lia.
Qed.

(** *** White space *)

Lemma trim_end_cons (c : ascii) (b : string) :
  b <> EmptyString -> PgmFile.trim_end b = b ->
  PgmFile.trim_end (String c b) = String c b.
Proof.
  intros Hne Hb. cbn [PgmFile.trim_end]. rewrite Hb.
  destruct b; [congruence|reflexivity].
Qed.

Lemma trim_end_solid (s : string) :
  all_chars solid s = true -> PgmFile.trim_end s = s.
Proof.
  induction s as [|c s IH]; cbn [all_chars]; intros H; [reflexivity|].
  apply andb_true_iff in H as [Hc Hs]. cbn [PgmFile.trim_end]. rewrite (IH Hs).
  unfold solid in Hc. apply negb_true_iff in Hc. rewrite Hc.
  destruct s; reflexivity.
Qed.

Lemma trim_end_append (a b : string) :
  b <> EmptyString -> PgmFile.trim_end b = b ->
  PgmFile.trim_end (String.append a b) = String.append a b.
Proof.
  intros Hne Hb. induction a as [|c a IH]; [exact Hb|].
  cbn [String.append]. apply trim_end_cons; [|exact IH].
  destruct a; cbn; congruence.
Qed.

Lemma trim_solid (c : ascii) (s : string) :
  all_chars solid (String c s) = true -> PgmFile.trim (String c s) = String c s.
Proof.
  intros H. unfold PgmFile.trim.
  rewrite skip_white_space_solid; [apply trim_end_solid, H|].
  cbn [all_chars] in H. apply andb_true_iff in H as [Hc _]. exact Hc.
Qed.

Lemma split_spaces_solid (in_run : bool) (s : string) :
  all_chars solid s = true -> PgmFile.split_spaces_from in_run s = [s].
Proof.
  revert in_run. induction s as [|c s IH]; cbn [all_chars]; intros in_run H;
    [reflexivity|].
  apply andb_true_iff in H as [Hc Hs]. cbn [PgmFile.split_spaces_from].
  unfold solid in Hc. apply negb_true_iff in Hc. rewrite Hc, (IH false Hs).
  reflexivity.
Qed.

Lemma split_spaces_pair (a b : string) :
  all_chars solid a = true -> all_chars solid b = true ->
  PgmFile.split_spaces (String.append a (String " "%char b)) = [a; b].
Proof.
  unfold PgmFile.split_spaces. intros Ha Hb.
  induction a as [|c a IH]; cbn [all_chars] in Ha.
  - cbn [String.append PgmFile.split_spaces_from].
    change (is_white_space " ") with true. cbv iota.
    rewrite (split_spaces_solid true b Hb). reflexivity.
  - apply andb_true_iff in Ha as [Hc Ha].
    cbn [String.append PgmFile.split_spaces_from].
    unfold solid in Hc. apply negb_true_iff in Hc. rewrite Hc, (IH Ha).
    reflexivity.
Qed.

(** The line of the dimensions: trimming leaves it as it is, and it splits
    into the two numbers. *)
Lemma dimensions_line (w h : Z) :
  let line :=
    String.append (PgmFile.Number_toString w)
      (String " "%char (PgmFile.Number_toString h)) in
  PgmFile.startsWith_hash line = false /\
  all_chars plain line = true /\
  PgmFile.split_spaces (PgmFile.trim line) =
    [PgmFile.Number_toString w; PgmFile.Number_toString h].
Proof.
  intros line. subst line.
  pose proof (Number_toString_chars w) as Hw.
  pose proof (Number_toString_chars h) as Hh.
  destruct (Number_toString_nonempty w) as (cw & sw & Ew).
  destruct (Number_toString_nonempty h) as (ch & sh & Eh).
  assert (Hsw : all_chars solid (PgmFile.Number_toString w) = true)
    by (apply (all_chars_impl num_char); [apply num_char_solid|exact Hw]).
  assert (Hsh : all_chars solid (PgmFile.Number_toString h) = true)
    by (apply (all_chars_impl num_char); [apply num_char_solid|exact Hh]).
  split; [|split].
  - rewrite Ew in Hw |- *. cbn [all_chars] in Hw. apply andb_true_iff in Hw as [Hc _].
    cbn [String.append PgmFile.startsWith_hash]. apply num_char_not_hash, Hc.
  - rewrite all_chars_append. cbn [all_chars].
    rewrite !(all_chars_impl num_char plain _ num_char_plain) by assumption.
    reflexivity.
  - assert (Htrim : PgmFile.trim
                      (String.append (PgmFile.Number_toString w)
                         (String " "%char (PgmFile.Number_toString h))) =
                    String.append (PgmFile.Number_toString w)
                      (String " "%char (PgmFile.Number_toString h))).
    { unfold PgmFile.trim.
      assert (Hskip : skip_white_space
                        (String.append (PgmFile.Number_toString w)
                           (String " "%char (PgmFile.Number_toString h))) =
                      String.append (PgmFile.Number_toString w)
                        (String " "%char (PgmFile.Number_toString h))).
      { rewrite Ew in Hsw |- *. cbn [all_chars] in Hsw.
        apply andb_true_iff in Hsw as [Hc _].
        cbn [String.append]. apply skip_white_space_solid, Hc. }
      rewrite Hskip. apply trim_end_append; [discriminate|].
      apply trim_end_cons; [rewrite Eh; discriminate|apply trim_end_solid, Hsh]. }
    rewrite Htrim. apply split_spaces_pair; assumption.
Qed.

Lemma Number_toString_trim (z : Z) :
  PgmFile.trim (PgmFile.Number_toString z) = PgmFile.Number_toString z.
Proof.
  pose proof (Number_toString_chars z) as Hz.
  destruct (Number_toString_nonempty z) as (c & s & E). rewrite E in Hz |- *.
  apply trim_solid. apply (all_chars_impl num_char); [apply num_char_solid|exact Hz].
Qed.

(** *** Slices *)

Lemma Buffer_slice_at (a : typed_array) (off size : Z) :
  0 <= off <= Z.of_nat (length a) ->
  let data := Buffer_slice a off (off + size) in
  if (0 <=? size) && (size <=? Z.of_nat (length (drop (Z.to_nat off) a)))
  then data = take (Z.to_nat size) (drop (Z.to_nat off) a) /\ Z.of_nat (length data) = size
  else Z.of_nat (length data) <> size.
Proof.
  intros Hoff data. subst data. unfold Buffer_slice.
  assert (Hb : slice_index (Z.of_nat (length a)) off = off).
  { unfold slice_index. destruct (Z.ltb_spec off 0); lia. }
  rewrite Hb. rewrite length_take, !length_drop.
  destruct (Z.leb_spec 0 size) as [Hpos|Hneg]; cbn [andb].
  - destruct (Z.leb_spec size (Z.of_nat (length a - Z.to_nat off))) as [Hfit|Hshort].
    + assert (He : slice_index (Z.of_nat (length a)) (off + size) = off + size).
      { unfold slice_index. destruct (Z.ltb_spec (off + size) 0); lia. }
      rewrite He. replace (off + size - off) with size by lia.
      split; [reflexivity|lia].
    + unfold slice_index. destruct (Z.ltb_spec (off + size) 0); lia.
  - unfold slice_index. destruct (Z.ltb_spec (off + size) 0); lia.
Qed.

(** *** The header as [readPGM] sees it *)

Lemma header_with_append (cs : list string) (w h m : Z) (tail : string) :
  String.append (header_with cs w h m) tail =
  String.append "P5"
    (String "010"%char
       (String.append (comment_lines cs)
          (String.append
             (String.append (PgmFile.Number_toString w)
                (String " "%char (PgmFile.Number_toString h)))
             (String "010"%char
                (String.append (PgmFile.Number_toString m)
                   (String "010"%char tail)))))).
Proof.
  unfold header_with.
  repeat first [rewrite append_assoc' | progress cbn [String.append]].
  reflexivity.
Qed.

Lemma header_with_length (cs : list string) (w h m : Z) :
  Z.of_nat (String.length (header_with cs w h m)) =
  3 + Z.of_nat (String.length (comment_lines cs)) +
  Z.of_nat (String.length
              (String.append (PgmFile.Number_toString w)
                 (String " "%char (PgmFile.Number_toString h)))) + 1 +
  Z.of_nat (String.length (PgmFile.Number_toString m)) + 1.
Proof.
  unfold header_with.
  repeat first [rewrite length_append | progress cbn [String.length]]. lia.
Qed.

Lemma header_lines (cs : list string) (w h m : Z) (tail : string) :
  Forall (fun c => all_chars plain c = true) cs ->
  PgmFile.split "010"%char (String.append (header_with cs w h m) tail) =
  "P5"%string ::
    map (String "#"%char) cs ++
    String.append (PgmFile.Number_toString w) (String " "%char (PgmFile.Number_toString h)) ::
    PgmFile.Number_toString m :: PgmFile.split "010"%char tail.
Proof.
  intros Hcs. rewrite header_with_append.
  rewrite (split_line "P5") by reflexivity.
  rewrite split_comment_lines by assumption.
  rewrite split_line by apply dimensions_line.
  rewrite split_line
    by (apply (all_chars_impl num_char); [apply num_char_plain|apply Number_toString_chars]).
  reflexivity.
Qed.

Lemma header_with_ascii7 (cs : list string) (w h m : Z) :
  Forall (fun c => all_chars plain c = true) cs ->
  all_chars ascii7 (header_with cs w h m) = true.
Proof.
  intros Hcs.
  assert (Hnum : forall z, all_chars ascii7 (PgmFile.Number_toString z) = true).
  { intros z. apply (all_chars_impl plain); [apply plain_ascii7|].
    apply (all_chars_impl num_char); [apply num_char_plain|apply Number_toString_chars]. }
  assert (Hcl : all_chars ascii7 (comment_lines cs) = true).
  { induction Hcs as [|c cs Hc _ IH]; [reflexivity|].
    cbn [comment_lines all_chars]. rewrite all_chars_append. cbn [all_chars].
    rewrite (all_chars_impl plain ascii7 c plain_ascii7 Hc), IH. reflexivity. }
  unfold header_with.
  repeat first [rewrite all_chars_append | progress cbn [all_chars]].
  rewrite Hcl, !Hnum. reflexivity.
Qed.

(** A header followed by any bytes: [readPGM] finds the three numbers and
    slices [w * h] bytes right after the header. *)
Lemma readPGM_header (cs : list string) (w h m : Z) (payload : typed_array) :
  Forall (fun c => all_chars plain c = true) cs ->
  (String.length (header_with cs w h m) <= 200)%nat ->
  let file := PgmFile.Buffer_from_ascii (header_with cs w h m) ++ payload in
  let headerSize := Z.of_nat (String.length (header_with cs w h m)) in
  PgmFile.readPGM file =
  let imageData := Buffer_slice file headerSize (headerSize + w * h) in
  if negb (Z.of_nat (length imageData) =? w * h)
  then inr (PgmFile.IncompleteData (w * h) (Z.of_nat (length imageData)))
  else inl (PGM.mk w h m imageData).
Proof.
  intros Hcs Hfit file headerSize. subst headerSize.
  set (hs := header_with cs w h m) in *.
  set (hb := PgmFile.Buffer_from_ascii hs) in *.
  assert (Hhb : length hb = String.length hs) by apply length_Buffer_from_ascii.
  assert (Hlen : length file = (String.length hs + length payload)%nat)
    by (unfold file; rewrite length_app, Hhb; reflexivity).
  set (k := Z.to_nat (Z.min 200 (Z.of_nat (length file)))).
  assert (Hslice : Buffer_slice file 0 (Z.min 200 (Z.of_nat (length file))) =
                   hb ++ take (k - length hb) payload).
  { rewrite Buffer_slice_head by lia. unfold file. apply take_app_ge. lia. }
  pose proof (dimensions_line w h) as (Hhash & _ & Hdims). cbv zeta in Hhash, Hdims.
  unfold PgmFile.readPGM. rewrite Hslice. unfold hb at 1.
  rewrite toString_ascii_from by (apply header_with_ascii7; assumption).
  unfold hs at 1. rewrite header_lines by assumption.
  change (negb (String.eqb (PgmFile.trim "P5") "P5")) with false. cbv iota.
  rewrite skip_comments_lines.
  cbn [PgmFile.skip_comments]. rewrite Hhash. cbv iota beta.
  rewrite Hdims. cbn [nth]. rewrite !parseInt_Number_toString. cbv iota beta.
  rewrite Number_toString_trim, parseInt_Number_toString. cbv iota beta zeta.
  replace (Z.of_nat (String.length "P5") + 1 +
           Z.of_nat (String.length (comment_lines cs)) +
           Z.of_nat (String.length
                       (String.append (PgmFile.Number_toString w)
                          (String " "%char (PgmFile.Number_toString h)))) + 1 +
           Z.of_nat (String.length (PgmFile.Number_toString m)) + 1)
    with (Z.of_nat (String.length hs)).
  - reflexivity.
  - unfold hs. rewrite header_with_length. cbn [String.length]. lia.
Qed.

(** The pixels [readPGM] slices after a header of [n] characters. *)
Lemma payload_slice (hb payload : typed_array) (size : Z) :
  0 <= size ->
  Buffer_slice (hb ++ payload) (Z.of_nat (length hb)) (Z.of_nat (length hb) + size) =
  take (Z.to_nat size) payload.
Proof.
  intros Hsize. unfold Buffer_slice, slice_index. rewrite length_app.
  destruct (Z.ltb_spec (Z.of_nat (length hb)) 0); [lia|].
  destruct (Z.ltb_spec (Z.of_nat (length hb) + size) 0); [lia|].
  rewrite (Z.min_l (Z.of_nat (length hb))) by lia.
  rewrite Nat2Z.id, drop_app_length.
  destruct (Z.le_gt_cases (Z.of_nat (length hb) + size) (Z.of_nat (length hb + length payload))).
  - rewrite Z.min_l by lia. f_equal. lia.
  - rewrite Z.min_r by lia. rewrite !take_ge by lia. reflexivity.
Qed.

Lemma nonneg_safe (z : Z) : 0 <= z < 2 ^ 53 -> safe_integer z.
Proof.
  unfold safe_integer. intros Hz. split; [|lia].
  apply Z.lt_le_trans with 0; [reflexivity|lia].
Qed.

(** [writePGM] writes the header without comment lines. *)
Lemma header_text_with (pgm : PGM.t) :
  PgmFile.header_text pgm = header_with [] (PGM.w pgm) (PGM.h pgm) (PGM.maxv pgm).
Proof. reflexivity. Qed.

(** The header [writePGM] writes has at most 171 characters. *)
Lemma header_fits (w h m : Z) :
  safe_integer w -> safe_integer h -> safe_integer m ->
  (String.length (header_with [] w h m) <= 171)%nat.
Proof.
  intros Hw Hh Hm. pose proof (header_with_length [] w h m) as Hl.
  rewrite length_append in Hl. cbn [comment_lines String.length] in Hl.
  pose proof (Number_toString_length w Hw). pose proof (Number_toString_length h Hh).
  pose proof (Number_toString_length m Hm). lia.
Qed.

(** An image written by [writePGM] is read back by [readPGM] as it
    was: the same width, height, maximum value and pixels, when the three
    numbers are integers a JavaScript number holds exactly and the raster
    has [w * h] bytes. *)
Theorem readPGM_writePGM (pgm : PGM.t) :
  safe_integer (PGM.w pgm) -> safe_integer (PGM.h pgm) -> safe_integer (PGM.maxv pgm) ->
  Z.of_nat (length (PGM.data pgm)) = PGM.w pgm * PGM.h pgm ->
  PgmFile.readPGM (PgmFile.writePGM pgm) = inl pgm.
Proof.
  destruct pgm as [w h m data]. cbn [PGM.w PGM.h PGM.maxv PGM.data].
  intros Hw Hh Hm Hsize.
  pose proof (header_fits w h m Hw Hh Hm) as Hfit.
  pose proof (readPGM_header [] w h m data (Forall_nil_2 _) ltac:(lia)) as Hread.
  cbv zeta in Hread.
  change (PgmFile.writePGM (PGM.mk w h m data))
    with (PgmFile.Buffer_from_ascii (header_with [] w h m) ++ data).
  rewrite Hread. rewrite <- (length_Buffer_from_ascii (header_with [] w h m)).
  rewrite payload_slice by lia.
  rewrite take_ge by lia. rewrite Hsize, Z.eqb_refl. reflexivity.
Qed.

Lemma readPGM_writePGM_witness :
  PgmFile.readPGM (PgmFile.writePGM scenario_pgm) = inl scenario_pgm.
Proof.
  apply (readPGM_writePGM scenario_pgm).
  - unfold safe_integer. cbn. lia.
  - unfold safe_integer. cbn. lia.
  - unfold safe_integer. cbn. lia.
  - reflexivity.
Defined.

(** After a header as [writePGM] writes it, with non-negative
    dimensions, [readPGM] takes the first [w * h] bytes as the pixels: bytes
    after them are ignored, and with fewer bytes it throws, reporting the
    expected count and the bytes found.  The numbers are taken in the range
    where a JavaScript number is exact. *)
Theorem readPGM_takes_the_first_pixels (w h m : Z) (payload : typed_array) :
  0 <= w < 2 ^ 53 -> 0 <= h < 2 ^ 53 -> safe_integer m -> safe_integer (w * h) ->
  PgmFile.readPGM (PgmFile.Buffer_from_ascii (header_with [] w h m) ++ payload) =
  if w * h <=? Z.of_nat (length payload)
  then inl (PGM.mk w h m (take (Z.to_nat (w * h)) payload))
  else inr (PgmFile.IncompleteData (w * h) (Z.of_nat (length payload))).
Proof.
  intros Hw Hh Hm _.
  assert (Hfit : (String.length (header_with [] w h m) <= 171)%nat)
    by (apply header_fits; first [assumption | apply nonneg_safe; assumption]).
  pose proof (readPGM_header [] w h m payload (Forall_nil_2 _) ltac:(lia)) as Hread.
  cbv zeta in Hread.
  rewrite Hread. rewrite <- (length_Buffer_from_ascii (header_with [] w h m)).
  rewrite payload_slice by nia.
  destruct (Z.leb_spec (w * h) (Z.of_nat (length payload))) as [Hle|Hgt].
  - rewrite length_take, Nat.min_l by lia.
    rewrite Z2Nat.id by nia. rewrite Z.eqb_refl. reflexivity.
  - rewrite take_ge by lia.
    destruct (Z.eqb_spec (Z.of_nat (length payload)) (w * h)); [lia|reflexivity].
Qed.

Lemma readPGM_takes_the_first_pixels_witness :
  PgmFile.readPGM (PgmFile.Buffer_from_ascii (header_with [] 2 2 255) ++ [1; 2; 3]) =
  (if 2 * 2 <=? Z.of_nat (length [1; 2; 3])
   then inl (PGM.mk 2 2 255 (take (Z.to_nat (2 * 2)) [1; 2; 3]))
   else inr (PgmFile.IncompleteData (2 * 2) (Z.of_nat (length [1; 2; 3])))).
Proof.
  apply (readPGM_takes_the_first_pixels 2 2 255 [1; 2; 3]).
  - lia.
  - lia.
  - unfold safe_integer. lia.
  - unfold safe_integer. lia.
Defined.

(** Comment lines after the magic number change nothing: as long as
    the header stays within the 200 bytes [readPGM] decodes, the file with
    the comments is read as the file without them. *)
Theorem readPGM_skips_comments (cs : list string) (w h m : Z) (payload : typed_array) :
  Forall (fun c => all_chars plain c = true) cs ->
  0 <= w < 2 ^ 53 -> 0 <= h < 2 ^ 53 -> safe_integer m -> safe_integer (w * h) ->
  (String.length (header_with cs w h m) <= 200)%nat ->
  PgmFile.readPGM (PgmFile.Buffer_from_ascii (header_with cs w h m) ++ payload) =
  PgmFile.readPGM (PgmFile.Buffer_from_ascii (header_with [] w h m) ++ payload).
Proof.
  intros Hcs Hw Hh Hm _ Hfit.
  assert (Hfit0 : (String.length (header_with [] w h m) <= 171)%nat)
    by (apply header_fits; first [assumption | apply nonneg_safe; assumption]).
  pose proof (readPGM_header cs w h m payload Hcs Hfit) as Hread.
  pose proof (readPGM_header [] w h m payload (Forall_nil_2 _) ltac:(lia)) as Hread0.
  cbv zeta in Hread, Hread0. rewrite Hread, Hread0.
  rewrite <- (length_Buffer_from_ascii (header_with cs w h m)).
  rewrite <- (length_Buffer_from_ascii (header_with [] w h m)).
  rewrite !payload_slice by nia. reflexivity.
Qed.

Lemma readPGM_skips_comments_witness :
  PgmFile.readPGM
    (PgmFile.Buffer_from_ascii (header_with ["a comment"%string; ""%string] 2 2 255) ++
     [1; 2; 3; 4]) =
  PgmFile.readPGM (PgmFile.Buffer_from_ascii (header_with [] 2 2 255) ++ [1; 2; 3; 4]).
Proof.
  apply (readPGM_skips_comments ["a comment"%string; ""%string] 2 2 255 [1; 2; 3; 4]).
  - repeat constructor.
  - lia.
  - lia.
  - unfold safe_integer. lia.
  - unfold safe_integer. lia.
  - vm_compute. lia.
Defined.

(** *** The 200 bytes of the header *)

Lemma substring_cons (n : nat) (c : ascii) (s : string) :
  substring 0 (S n) (String c s) = String c (substring 0 n s).
Proof. reflexivity. Qed.

Lemma take_Buffer_from_ascii (s : string) (rest : typed_array) :
  forall n : nat,
    (n <= String.length s)%nat ->
    take n (PgmFile.Buffer_from_ascii s ++ rest) =
    PgmFile.Buffer_from_ascii (substring 0 n s).
Proof.
  induction s as [|c s IH]; intros [|n] Hn; cbn [String.length] in Hn;
    try reflexivity; try lia.
  rewrite substring_cons. cbn [PgmFile.Buffer_from_ascii app take].
  rewrite IH by lia. reflexivity.
Qed.

Lemma all_chars_substring (P : ascii -> bool) (s : string) :
  forall n : nat, all_chars P s = true -> all_chars P (substring 0 n s) = true.
Proof.
  induction s as [|c s IH]; intros [|n] H; try reflexivity.
  rewrite substring_cons. cbn [all_chars] in H |- *.
  apply andb_true_iff in H as [Hc Hs]. rewrite Hc, (IH n Hs). reflexivity.
Qed.

Lemma substring_append (a b : string) :
  forall n : nat,
    (n <= String.length a)%nat ->
    substring 0 n (String.append a b) = substring 0 n a.
Proof.
  induction a as [|c a IH]; intros [|n] Hn; cbn [String.length] in Hn;
    try lia.
  - destruct b; reflexivity.
  - destruct b; reflexivity.
  - cbn [String.append]. rewrite !substring_cons, IH by lia. reflexivity.
Qed.

Lemma toString_ascii_Buffer_from_ascii (s : string) :
  all_chars ascii7 s = true ->
  PgmFile.toString_ascii (PgmFile.Buffer_from_ascii s) = s.
Proof.
  induction s as [|c s IH]; cbn [all_chars]; intros H; [reflexivity|].
  apply andb_true_iff in H as [Hc Hs].
  cbn [PgmFile.Buffer_from_ascii PgmFile.toString_ascii].
  rewrite (ascii7_byte c Hc), (IH Hs). reflexivity.
Qed.

Lemma split_plain (s : string) :
  all_chars plain s = true -> PgmFile.split "010"%char s = [s].
Proof.
  induction s as [|c s IH]; cbn [all_chars]; intros H; [reflexivity|].
  apply andb_true_iff in H as [Hc Hs].
  cbn [PgmFile.split]. rewrite (plain_not_LF c Hc), (IH Hs). reflexivity.
Qed.

(** [readPGM] decodes only the first 200 bytes of the file as the
    header.  A file whose first comment has 196 characters or more leaves
    no dimensions among them, and [readPGM] throws a [TypeError], whatever
    the rest of the file is. *)
Theorem readPGM_header_window
    (c : string) (cs : list string) (w h m : Z) (payload : typed_array) :
  all_chars plain c = true ->
  (196 <= String.length c)%nat ->
  PgmFile.readPGM (PgmFile.Buffer_from_ascii (header_with (c :: cs) w h m) ++ payload) =
  inr PgmFile.TypeError.
Proof.
  intros Hc Hlong.
  assert (Hhs : exists R,
             header_with (c :: cs) w h m =
             String "P"%char (String "5"%char (String "010"%char (String "#"%char
               (String.append c R))))).
  { eexists. unfold header_with. cbn [comment_lines String.append].
    rewrite append_assoc'. reflexivity. }
  destruct Hhs as [R Hhs]. rewrite Hhs.
  set (hs := String "P"%char _).
  assert (Hlen : (200 <= String.length hs)%nat).
  { unfold hs. cbn [String.length]. rewrite length_append. lia. }
  set (file := PgmFile.Buffer_from_ascii hs ++ payload).
  assert (Hfile : (200 <= length file)%nat).
  { unfold file. rewrite length_app, length_Buffer_from_ascii. lia. }
  set (pre := substring 0 196 c).
  assert (Hpre : all_chars plain pre = true) by (apply all_chars_substring, Hc).
  assert (Hslice : Buffer_slice file 0 (Z.min 200 (Z.of_nat (length file))) =
                   PgmFile.Buffer_from_ascii
                     (String.append "P5" (String "010"%char (String "#"%char pre)))).
  { rewrite Z.min_l by lia. rewrite Buffer_slice_head by lia.
    change (Z.to_nat 200) with (S (S (S (S 196)))).
    unfold file. rewrite take_Buffer_from_ascii by exact Hlen.
    unfold hs. rewrite !substring_cons, substring_append by exact Hlong.
    reflexivity. }
  unfold PgmFile.readPGM. rewrite Hslice.
  rewrite toString_ascii_Buffer_from_ascii.
  - rewrite (split_line "P5") by reflexivity.
    rewrite (split_plain (String "#"%char pre))
      by (cbn [all_chars]; rewrite Hpre; reflexivity).
    change (negb (String.eqb (PgmFile.trim "P5") "P5")) with false. cbv iota.
    cbn [PgmFile.skip_comments PgmFile.startsWith_hash].
    change (Ascii.eqb "#" "#") with true. reflexivity.
  - cbn [String.append all_chars].
    rewrite (all_chars_impl plain ascii7 pre plain_ascii7 Hpre). reflexivity.
Qed.

Lemma readPGM_header_window_witness :
  PgmFile.readPGM
    (PgmFile.Buffer_from_ascii
       (header_with
          [String.concat EmptyString (repeat "0123456789abcd"%string 14)] 2 2 255) ++
     [1; 2; 3; 4]) =
  inr PgmFile.TypeError.
Proof.
  apply (readPGM_header_window
           (String.concat EmptyString (repeat "0123456789abcd"%string 14)) [] 2 2 255
           [1; 2; 3; 4]).
  - vm_compute. reflexivity.
  - vm_compute. lia.
Defined.

End PgmFileProofs.
